(** * The neural-HMM core and the AlignTTS duration path

    A shallow embedding of [TTS/tts/layers/neural_hmm/hmm.py] and of the
    alignment and duration functions of [TTS/tts/models/align_tts.py].

    Tensors are nested lists.  A tensor entry is a real number or one of the
    three special values of the floating-point formats ([+inf], [-inf], [nan]);
    arithmetic on finite entries is exact real arithmetic, arithmetic on the
    special values follows IEEE 754 (so [-inf * 0] is [nan]).  The
    operations of [AlignTTS] carry the range of float32: a result beyond
    the largest float is an infinity, one below half the smallest is 0.
    Rounding inside the range is not modelled.

    Python exceptions are the [Raise] results of the monad [py]. *)

From Stdlib Require Import Reals Lra Lia List Bool Arith ZArith.
Import ListNotations.

Local Open Scope R_scope.

(** ** Tensor entries *)

Inductive tval : Type :=
| Fin (x : R)
| PInf
| NInf
| NaN.

Definition Rltb (x y : R) : bool := if Rlt_dec x y then true else false.
Definition Rleb (x y : R) : bool := if Rle_dec x y then true else false.
Definition Reqb (x y : R) : bool := if Req_dec_T x y then true else false.

Definition tadd (a b : tval) : tval :=
  match a, b with
  | NaN, _ | _, NaN => NaN
  | PInf, NInf | NInf, PInf => NaN
  | PInf, _ | _, PInf => PInf
  | NInf, _ | _, NInf => NInf
  | Fin x, Fin y => Fin (x + y)
  end.

Definition tneg (a : tval) : tval :=
  match a with
  | Fin x => Fin (- x)
  | PInf => NInf
  | NInf => PInf
  | NaN => NaN
  end.

Definition tsub (a b : tval) : tval := tadd a (tneg b).

(** The product of an infinity and a finite value: [nan] at zero, else the
    infinity with the product's sign. *)
Definition inf_times (positive : bool) (x : R) : tval :=
  if Reqb x 0 then NaN
  else if Bool.eqb positive (Rltb 0 x) then PInf else NInf.

Definition tmul (a b : tval) : tval :=
  match a, b with
  | NaN, _ | _, NaN => NaN
  | Fin x, Fin y => Fin (x * y)
  | PInf, Fin x | Fin x, PInf => inf_times true x
  | NInf, Fin x | Fin x, NInf => inf_times false x
  | PInf, PInf | NInf, NInf => PInf
  | PInf, NInf | NInf, PInf => NInf
  end.

Definition tdiv (a b : tval) : tval :=
  match a, b with
  | NaN, _ | _, NaN => NaN
  | Fin x, Fin y =>
      if Reqb y 0
      then (if Reqb x 0 then NaN else if Rltb 0 x then PInf else NInf)
      else Fin (x / y)
  | Fin _, (PInf | NInf) => Fin 0
  | PInf, Fin y => if Rltb y 0 then NInf else PInf
  | NInf, Fin y => if Rltb y 0 then PInf else NInf
  | (PInf | NInf), (PInf | NInf) => NaN
  end.

Definition texp (a : tval) : tval :=
  match a with
  | Fin x => Fin (exp x)
  | PInf => PInf
  | NInf => Fin 0
  | NaN => NaN
  end.

Definition tlog (a : tval) : tval :=
  match a with
  | Fin x => if Rltb x 0 then NaN else if Reqb x 0 then NInf else Fin (ln x)
  | PInf => PInf
  | NInf => NaN
  | NaN => NaN
  end.

(** [torch.sigmoid]. *)
Definition sigmoid (a : tval) : tval :=
  match a with
  | Fin x => Fin (/ (1 + exp (- x)))
  | PInf => Fin 1
  | NInf => Fin 0
  | NaN => NaN
  end.

(** Comparisons; every comparison with [nan] is false. *)
Definition tlt (a b : tval) : bool :=
  match a, b with
  | NaN, _ | _, NaN => false
  | Fin x, Fin y => Rltb x y
  | NInf, (Fin _ | PInf) => true
  | Fin _, PInf => true
  | _, _ => false
  end.

Definition tge (a b : tval) : bool :=
  match a, b with
  | NaN, _ | _, NaN => false
  | _, _ => negb (tlt a b)
  end.

Definition teq (a b : tval) : bool :=
  match a, b with
  | Fin x, Fin y => Reqb x y
  | PInf, PInf | NInf, NInf => true
  | _, _ => false
  end.

(** A Boolean mask entry as a number, the way [tensor * mask] promotes it. *)
Definition of_bool (b : bool) : tval := if b then Fin 1 else Fin 0.

Definition is_fin (a : tval) : Prop :=
  match a with Fin _ => True | _ => False end.

(** A valid log-probability: a real that is at most 0, or [-inf]. *)
Definition is_logprob (a : tval) : Prop :=
  match a with Fin x => x <= 0 | NInf => True | _ => False end.

Definition tsum (xs : list tval) : tval := fold_right tadd (Fin 0) xs.

(** Modelled from the spec: [logsumexp] of [TTS.tts.utils.helpers], which is
    not among the sources; the spec has the two terms "combined via
    log-sum-exp".  It is the logarithm of the sum of the exponentials, [-inf]
    when every term is [-inf]; [torch.logsumexp] over one axis is the same
    function. *)
Definition logsumexp (xs : list tval) : tval := tlog (tsum (map texp xs)).

(** ** Python results *)

Inductive exn : Type :=
| TypeError
| ValueError
| IndexError
| RuntimeError
| UnboundLocalError
| AttributeError.

Inductive py (A : Type) : Type :=
| Ok (a : A)
| Raise (e : exn).

Arguments Ok {A} a.
Arguments Raise {A} e.

Definition bind {A B : Type} (m : py A) (k : A -> py B) : py B :=
  match m with
  | Ok a => k a
  | Raise e => Raise e
  end.

Notation "x <- m ;; k" := (bind m (fun x => k))
  (at level 61, m at next level, right associativity).
Notation "' p <- m ;; k" := (bind m (fun x => let 'p := x in k))
  (at level 61, p pattern, m at next level, right associativity).

Fixpoint mapM {A B : Type} (f : A -> py B) (l : list A) : py (list B) :=
  match l with
  | [] => Ok []
  | a :: l' => b <- f a ;; bs <- mapM f l' ;; Ok (b :: bs)
  end.

Fixpoint zipM {A B C : Type} (f : A -> B -> py C)
  (xs : list A) (ys : list B) : py (list C) :=
  match xs, ys with
  | x :: xs', y :: ys' => c <- f x y ;; cs <- zipM f xs' ys' ;; Ok (c :: cs)
  | _, _ => Ok []
  end.

(** The pure counterpart of [zipM]. *)
Fixpoint zip_with {A B C : Type} (g : A -> B -> C) (xs : list A) (ys : list B)
  : list C :=
  match xs, ys with
  | x :: xs', y :: ys' => g x y :: zip_with g xs' ys'
  | _, _ => []
  end.

Definition zip3 {A B C : Type} (g : A -> B -> C)
  : list (list (list A)) -> list (list (list B)) -> list (list (list C)) :=
  zip_with (zip_with (zip_with g)).

(** ** Tensors and broadcasting *)

Abbreviation T1 := (list tval).
Abbreviation T2 := (list (list tval)).
Abbreviation T3 := (list (list (list tval))).

Abbreviation mask1 := (list bool).
Abbreviation mask2 := (list (list bool)).

(** The size two axes broadcast to: equal sizes, or one of them 1. *)
Definition bsize (n m : nat) : py nat :=
  if n =? m then Ok n
  else if n =? 1 then Ok m
  else if m =? 1 then Ok n
  else Raise RuntimeError.

(** [expand n l]: an axis of size [n] from [l], which has size [n] or 1. *)
Definition expand {A : Type} (n : nat) (l : list A) : py (list A) :=
  if length l =? n then Ok l
  else match l with
       | [x] => Ok (repeat x n)
       | _ => Raise RuntimeError
       end.

(** A binary operation along one broadcast axis. *)
Definition bcast {A B C : Type} (f : A -> B -> py C)
  (xs : list A) (ys : list B) : py (list C) :=
  n <- bsize (length xs) (length ys) ;;
  xs' <- expand n xs ;;
  ys' <- expand n ys ;;
  zipM f xs' ys'.

Definition ew0 (f : tval -> tval -> tval) (a b : tval) : py tval := Ok (f a b).
Definition ew1 (f : tval -> tval -> tval) : T1 -> T1 -> py T1 := bcast (ew0 f).
Definition ew2 (f : tval -> tval -> tval) : T2 -> T2 -> py T2 := bcast (ew1 f).
Definition ew3 (f : tval -> tval -> tval) : T3 -> T3 -> py T3 := bcast (ew2 f).

Definition map2d {A B : Type} (f : A -> B) (x : list (list A)) : list (list B) :=
  map (map f) x.
Definition map3d {A B : Type} (f : A -> B) (x : list (list (list A)))
  : list (list (list B)) :=
  map (map2d f) x.

(** [x.masked_fill(mask, v)]: the mask is broadcast to the shape of [x]. *)
Definition fill0 (v a : tval) (m : bool) : py tval := Ok (if m then v else a).

Definition masked_fill1 (v : tval) (x : T1) (m : mask1) : py T1 :=
  m' <- expand (length x) m ;; zipM (fill0 v) x m'.

Definition masked_fill2 (v : tval) (x : T2) (m : mask2) : py T2 :=
  m' <- expand (length x) m ;; zipM (masked_fill1 v) x m'.

(** [torch.stack((x, y), dim=2)] of two (B, N) tensors followed by a
    reduction [g] over the new axis; the two shapes must be equal. *)
Definition same_size {A B C : Type} (f : A -> B -> py C)
  (xs : list A) (ys : list B) : py (list C) :=
  if length xs =? length ys then zipM f xs ys else Raise RuntimeError.

Definition stack_reduce2 (g : list tval -> tval) (x y : T2) : py T2 :=
  same_size (same_size (fun a b => Ok (g [a; b]))) x y.

(** [x.roll(1, dims=1)] on one row: the last entry comes first. *)
Definition roll1 {A : Type} (d : A) (l : list A) : list A :=
  match l with
  | [] => []
  | _ => last l d :: removelast l
  end.

(** [x[:, 0] = v] on one row. *)
Definition set_first {A : Type} (v : A) (l : list A) : py (list A) :=
  match l with
  | [] => Raise IndexError
  | _ :: l' => Ok (v :: l')
  end.

Definition zmax_list (l : list Z) : Z := fold_right Z.max 0%Z l.

(** Modelled from the spec: [sequence_mask] of [TTS.tts.utils.helpers] (and of
    [TTS.tts.utils.data]), which is not among the sources.  Entry [(b, i)] is
    true exactly when [i] is below the valid length of item [b]: the spec masks
    "entries at timesteps >= the item's valid length" and "states beyond the
    valid length".  Without [max_len] the mask is as wide as the longest
    item. *)
Definition sequence_mask (lens : list Z) (max_len : option Z) : mask2 :=
  let w := match max_len with Some m => m | None => zmax_list lens end in
  map (fun len => map (fun i => (Z.of_nat i <? len)%Z) (seq 0 (Z.to_nat w))) lens.

(** Modelled from the spec: [log_clamped] of [TTS.tts.utils.helpers], which is
    not among the sources.  The spec writes the logarithm of a sigmoid; the
    helper clamps its argument from below at [eps] first, so that the
    logarithm of 0 is never taken. *)
Definition clamp_min (eps : R) (a : tval) : tval :=
  match a with
  | Fin x => Fin (Rmax x eps)
  | NInf => Fin eps
  | PInf => PInf
  | NaN => NaN
  end.

Definition log_clamped (eps : R) (a : tval) : tval := tlog (clamp_min eps a).

(** ** TransitionModel *)

Section Transition.

Variable eps : R.

(** [leaving] as it is after [leaving[:, 0] = -inf]. *)
Definition TransitionModel_leaving (log_alpha_scaled transition_vector : T2)
  : py T2 :=
  let transition_p := map2d sigmoid transition_vector in
  let log_transition_probability := map2d (log_clamped eps) transition_p in
  leaving <- ew2 tadd log_alpha_scaled log_transition_probability ;;
  let leaving := map (roll1 NaN) leaving in
  mapM (set_first NInf) leaving.

(** [staying]. *)
Definition TransitionModel_staying (log_alpha_scaled transition_vector : T2)
  : py T2 :=
  let staying_p := map2d sigmoid (map2d tneg transition_vector) in
  let log_staying_probability := map2d (log_clamped eps) staying_p in
  ew2 tadd log_alpha_scaled log_staying_probability.

(** [forward]; the two probabilities that [_update_current_values] keeps on
    the object are not read again. *)
Definition TransitionModel_forward
  (log_alpha_scaled transition_vector : T2) (inputs_len : list Z) : py T2 :=
  staying <- TransitionModel_staying log_alpha_scaled transition_vector ;;
  leaving <- TransitionModel_leaving log_alpha_scaled transition_vector ;;
  let inputs_len_mask := sequence_mask inputs_len None in
  out <- stack_reduce2 logsumexp staying leaving ;;
  masked_fill2 NInf out (map2d negb inputs_len_mask).

End Transition.

(** Entry [(b, i)] of a (B, N) tensor. *)
Definition get2 (x : T2) (b i : nat) : tval := nth i (nth b x []) NaN.

(** What [TransitionModel.forward] puts at state [i] of one item: [prev] is
    the item's row of [log_alpha_scaled], [tv] its row of transition logits
    and [len] its valid state count. *)
Definition transition_entry (eps : R) (prev tv : T1) (len : Z) (i : nat)
  : tval :=
  if (Z.of_nat i <? len)%Z then
    logsumexp
      [ tadd (nth i prev NaN) (log_clamped eps (sigmoid (tneg (nth i tv NaN))));
        match i with
        | O => NInf
        | S j => tadd (nth j prev NaN) (log_clamped eps (sigmoid (nth j tv NaN)))
        end ]
  else NInf.

(** The same entry as the contract of section 4.2 words it: "stay" with
    [log (sigmoid logit)], "advance" with [log (sigmoid (- logit))]. *)
Definition claimed_transition_entry (prev tv : T1) (len : Z) (i : nat) : tval :=
  if (Z.of_nat i <? len)%Z then
    logsumexp
      [ tadd (nth i prev NaN) (tlog (sigmoid (nth i tv NaN)));
        match i with
        | O => NInf
        | S j => tadd (nth j prev NaN) (tlog (sigmoid (tneg (nth j tv NaN))))
        end ]
  else NInf.

(** A (B, N) tensor. *)
Definition shape2 {A : Type} (b n : nat) (x : list (list A)) : Prop :=
  length x = b /\ Forall (fun r => length r = n) x.

(** A batch of [b] items over [n] states: the two tensors are (b, n), there is
    one length per item, and the longest item fills the state axis, so that
    the mask of [sequence_mask] has the shape of the tensors. *)
Definition transition_batch (b n : nat) (log_alpha_scaled transition_vector : T2)
  (inputs_len : list Z) : Prop :=
  (1 <= n)%nat /\
  shape2 b n log_alpha_scaled /\
  shape2 b n transition_vector /\
  length inputs_len = b /\
  Z.to_nat (zmax_list inputs_len) = n.

(** The probability mass that a row of log-probabilities gives to the first
    [len] states, and the rows whose mass there is at most 1. *)
Definition row_mass (len : Z) (row : T1) : tval :=
  tsum (map texp (firstn (Z.to_nat len) row)).

Definition normalized (len : Z) (row : T1) : Prop :=
  exists s, row_mass len row = Fin s /\ s <= 1.

(** ** EmissionModel *)

(** [torch.distributions.Normal(loc, scale).log_prob(value)] at one entry:
    [-((value - loc) ** 2) / (2 * scale ** 2) - log scale - log (sqrt (2 pi))]. *)
Definition normal_log_prob (value loc scale : tval) : tval :=
  let var := tmul scale scale in
  let d := tsub value loc in
  tsub (tsub (tdiv (tneg (tmul d d)) (tmul (Fin 2) var)) (tlog scale))
       (Fin (ln (sqrt (2 * PI)))).

(** The checks of [torch.distributions] on its arguments, which are on by
    default: a location and a value are not [nan], a scale is greater
    than 0. *)
Definition not_nan (a : tval) : bool :=
  match a with NaN => false | _ => true end.

Definition positive (a : tval) : bool := tlt (Fin 0) a.

Definition all3 (p : tval -> bool) (x : T3) : bool :=
  forallb (forallb (forallb p)) x.

(** The log-density tensor of [Normal(means, stds)] at [value].  The
    constructor broadcasts the two parameters against each other
    ([RuntimeError] when they do not broadcast) and checks them; [log_prob]
    checks that the value broadcasts against them and is not [nan]; the
    failed checks raise [ValueError]. *)
Definition Normal_log_prob (means stds value : T3) : py T3 :=
  loc <- ew3 (fun a _ => a) means stds ;;
  scale <- ew3 (fun _ c => c) means stds ;;
  if negb (all3 not_nan loc && all3 positive scale) then Raise ValueError
  else
    match ew3 tsub value loc with
    | Raise _ => Raise ValueError
    | Ok d =>
        if negb (all3 not_nan value) then Raise ValueError
        else
          let num := map3d (fun x => tneg (tmul x x)) d in
          let den := map3d (fun s => tmul (Fin 2) (tmul s s)) scale in
          q <- ew3 tdiv num den ;;
          r <- ew3 tsub q (map3d tlog scale) ;;
          Ok (map3d (fun x => tsub x (Fin (ln (sqrt (2 * PI))))) r)
    end.

(** [x.unsqueeze(1)] of a (B, D) tensor. *)
Definition unsqueeze1 {A : Type} (x : list (list A)) : list (list (list A)) :=
  map (fun r => [r]) x.

(** A two-axis tensor against a three-axis one: broadcasting aligns the
    trailing axes, so the two-axis tensor gets a leading axis of size 1. *)
Definition lead1 {A : Type} (x : list (list A)) : list (list (list A)) := [x].

(** [EmissionModel.forward]; the mask is multiplied as the source has it,
    without a trailing axis. *)
Definition EmissionModel_forward (x_t : T2) (means stds : T3)
  (state_lengths : list Z) : py T2 :=
  out <- Normal_log_prob means stds (unsqueeze1 x_t) ;;
  let state_lengths_mask := sequence_mask state_lengths None in
  out <- ew3 tmul out (lead1 (map2d of_bool state_lengths_mask)) ;;
  Ok (map2d tsum out).

(** The contract of section 4.1 at state [i] of one item: the log density
    summed over the features for a valid state, zero for the others. *)
Definition claimed_emission_entry (x : T1) (means stds : T2) (len : Z) (i : nat)
  : tval :=
  if (Z.of_nat i <? len)%Z
  then tsum (map (fun d => normal_log_prob (nth d x NaN)
                             (nth d (nth i means []) NaN)
                             (nth d (nth i stds []) NaN))
               (seq 0 (length x)))
  else Fin 0.

(** ** HMM *)

(** The attributes that [HMM.forward] writes on the object. *)
Record hmm : Type := {
  self_N : nat;
  self_log_alpha_scaled : T3;
  self_transition_vector : T3;
  self_means : list T3
}.

(** Assignments to the attributes. *)
Definition set_N (self : hmm) (n : nat) : hmm :=
  {| self_N := n;
     self_log_alpha_scaled := self_log_alpha_scaled self;
     self_transition_vector := self_transition_vector self;
     self_means := self_means self |}.

Definition set_log_alpha_scaled (self : hmm) (x : T3) : hmm :=
  {| self_N := self_N self;
     self_log_alpha_scaled := x;
     self_transition_vector := self_transition_vector self;
     self_means := self_means self |}.

Definition set_transition_vector (self : hmm) (x : T3) : hmm :=
  {| self_N := self_N self;
     self_log_alpha_scaled := self_log_alpha_scaled self;
     self_transition_vector := x;
     self_means := self_means self |}.

Definition set_means (self : hmm) (x : list T3) : hmm :=
  {| self_N := self_N self;
     self_log_alpha_scaled := self_log_alpha_scaled self;
     self_transition_vector := self_transition_vector self;
     self_means := x |}.

(** Entry [(b, t, i)] of a (B, T, N) tensor. *)
Definition get3 (x : T3) (b t i : nat) : tval := nth i (nth t (nth b x []) []) NaN.

(** The three sizes of a (B, T, N) tensor. *)
Definition shape3 {A : Type} (x : list (list (list A))) : list nat :=
  [length x; length (hd [] x); length (hd [] (hd [] x))].

(** [new_zeros]. *)
Definition zeros1 (n : nat) : T1 := repeat (Fin 0) n.
Definition zeros2 (b n : nat) : T2 := repeat (zeros1 n) b.
Definition zeros3 (b t n : nat) : T3 := repeat (zeros2 t n) b.

(** [x[:, t]]: index [t] of the second axis. *)
Definition select1 {A : Type} (x : list (list A)) (t : nat) : py (list A) :=
  mapM (fun r => match nth_error r t with
                 | Some a => Ok a
                 | None => Raise IndexError
                 end) x.

(** [l[t] = a]. *)
Definition set_nth {A : Type} (t : nat) (a : A) (l : list A) : py (list A) :=
  if t <? length l then Ok (firstn t l ++ a :: skipn (S t) l)
  else Raise IndexError.

(** [x[:, t] = v] on the whole batch. *)
Definition assign1 {A : Type} (x : list (list A)) (t : nat) (v : list A)
  : py (list (list A)) :=
  same_size (fun r a => set_nth t a r) x v.

(** The transpose of a matrix whose rows have the length of the first one. *)
Definition transpose {A : Type} (x : list (list A)) : list (list A) :=
  map (fun j => flat_map (fun r => match nth_error r j with
                                   | Some a => [a]
                                   | None => []
                                   end) x)
      (seq 0 (length (hd [] x))).

(** [x.permute(0, 2, 1)]. *)
Definition permute021 {A : Type} (x : list (list (list A)))
  : list (list (list A)) :=
  map transpose x.

(** An entry of [torch.gather(x, 1, index)] for an index of shape (B, 1, N):
    entry [(b, 0, i)] of the result is [x[b][index[b][0][i]][i]]. *)
Definition gather_entry (xb : T2) (i : nat) (t : Z) : py tval :=
  if (t <? 0)%Z then Raise RuntimeError
  else match nth_error xb (Z.to_nat t) with
       | None => Raise RuntimeError
       | Some row => match nth_error row i with
                     | Some a => Ok a
                     | None => Raise RuntimeError
                     end
       end.

(** [torch.gather(x, 1, index)]. *)
Definition gather1 (x : T3) (index : list (list (list Z))) : py T3 :=
  same_size
    (fun xb ib =>
       mapM (fun irow => zipM (gather_entry xb) (seq 0 (length irow)) irow) ib)
    x index.

(** [x.squeeze(1)] of a (B, 1, N) tensor. *)
Definition squeeze1 {A : Type} (x : list (list (list A))) : list (list A) :=
  map (fun m => hd [] m) x.

(** [module(args)] for an object of [TransitionModel] or [EmissionModel].
    The two classes are [@dataclass] subclasses of [nn.Module]: the
    [__init__] that the decorator generates does not run
    [nn.Module.__init__], and [nn.Module.__call__] reads the hook tables
    that it would have set, so the call raises [AttributeError] before
    [forward] is run.  [HMM.__init__] builds the objects as
    [TransitionModel()] and [EmissionModel()]; calling the method [forward]
    or [sample] of such an object directly runs it. *)
Definition dataclass_module_call {A : Type} (forward_result : py A) : py A :=
  Raise AttributeError.

(** A Python argument of the calls modelled with their argument lists. *)
Inductive pyval : Type :=
| VT3 (x : T3)
| VT2 (x : T2)
| VLens (l : list Z).

Section HMM.

(** The bound of [log_clamped]. *)
Variable eps : R.

(** The encoder outputs are only handed to the output network; [forward]
    itself reads their shape. *)
Variable Enc : Type.
Variable enc_shape : Enc -> list nat.

(** Configuration and the learned networks. *)
Variables (frame_channels ar_order memory_rnn_dim : nat).
Variable prenet : T2 -> T2.
Variable memory_rnn : T2 -> T2 * T2 -> T2 * T2.
Variable output_net : T2 -> Enc -> T3 * T3 * T2.

(** [a, b = shape]. *)
Definition unpack2 (shape : list nat) : py (nat * nat) :=
  match shape with
  | [a; b] => Ok (a, b)
  | _ => Raise ValueError
  end.

(** [a, b, c = shape]. *)
Definition unpack3 (shape : list nat) : py (nat * nat * nat) :=
  match shape with
  | [a; b; c] => Ok (a, b, c)
  | _ => Raise ValueError
  end.

(** [-inf] everywhere, 0 at state 0. *)
Definition _initialize_log_state_priors (self : hmm) : py T1 :=
  set_nth 0 (Fin 0) (repeat NInf (self_N self)).

(** The placeholders of the forward algorithm; returns [log_c]. *)
Definition _initialize_forward_algorithm_variables (self : hmm) (mel_inputs : T3)
  : py (T2 * hmm) :=
  '(batch_size, T_max, _) <- unpack3 (shape3 mel_inputs) ;;
  let self := set_log_alpha_scaled self (zeros3 batch_size T_max (self_N self)) in
  let log_c := zeros2 batch_size T_max in
  let self := set_means self [] in
  let self := set_transition_vector self (zeros3 batch_size T_max (self_N self)) in
  Ok (log_c, self).

(** [ar_order] zero frames in front of the frames, cut to [T] frames. *)
Definition _add_go_token (mel_inputs : T3) : py T3 :=
  '(batch_size, T, _) <- unpack3 (shape3 mel_inputs) ;;
  let go_tokens := zeros3 batch_size ar_order frame_channels in
  if (nth 2 (shape3 mel_inputs) 0 =? frame_channels)%nat
  then same_size (fun g m => Ok (firstn T (g ++ m))) go_tokens mel_inputs
  else Raise RuntimeError.

(** Zero hidden and cell state. *)
Definition _init_lstm_states (batch_size hidden_state_dim : nat) : T2 * T2 :=
  (zeros2 batch_size hidden_state_dim, zeros2 batch_size hidden_state_dim).

(** The [ar_order] frames from [t] on, through the prenet and the memory
    cell. *)
Definition _process_ar_timestep (t : nat) (ar_inputs : T3) (h_memory c_memory : T2)
  : T2 * T2 :=
  let prenet_input :=
    map (fun m => concat (firstn ar_order (skipn t m))) ar_inputs in
  let memory_inputs := prenet prenet_input in
  memory_rnn memory_inputs (h_memory, c_memory).

(** [log_c] and [self.log_alpha_scaled] times the mask of the lengths. *)
Definition _mask_lengths (self : hmm) (mel_inputs_lengths : list Z) (log_c : T2)
  : py (T2 * hmm) :=
  let mask_log_c := sequence_mask mel_inputs_lengths None in
  log_c <- ew2 tmul log_c (map2d of_bool mask_log_c) ;;
  let mask_log_alpha_scaled := map2d (fun m => [of_bool m]) mask_log_c in
  las <- ew3 tmul (self_log_alpha_scaled self) mask_log_alpha_scaled ;;
  Ok (log_c, set_log_alpha_scaled self las).

(** A call of [self._mask_lengths] with the argument list [args]: the
    method takes [mel_inputs_lengths] and [log_c]. *)
Definition call_mask_lengths (self : hmm) (args : list pyval) : py (T2 * hmm) :=
  match args with
  | [a1; a2] =>
      match a1, a2 with
      | VLens mel_inputs_lengths, VT2 log_c =>
          _mask_lengths self mel_inputs_lengths log_c
      | _, _ => Raise TypeError
      end
  | _ => Raise TypeError
  end.

(** [final_log_c] of [get_absorption_state_scaling_factor]. *)
Definition absorption_final_log_c (self : hmm) (mels_len : list Z)
  (log_alpha_scaled : T3) (inputs_len : list Z) : py T2 :=
  let max_inputs_len := nth 2 (shape3 log_alpha_scaled) 0%nat in
  let state_lengths_mask :=
    sequence_mask inputs_len (Some (Z.of_nat max_inputs_len)) in
  let last_log_alpha_scaled_index :=
    map (fun l => [repeat (l - 1)%Z (self_N self)]) mels_len in
  g <- gather1 log_alpha_scaled last_log_alpha_scaled_index ;;
  let last_log_alpha_scaled := squeeze1 g in
  last_log_alpha_scaled <-
    masked_fill2 NInf last_log_alpha_scaled (map2d negb state_lengths_mask) ;;
  g <- gather1 (self_transition_vector self) last_log_alpha_scaled_index ;;
  let last_transition_vector := squeeze1 g in
  let last_transition_probability := map2d sigmoid last_transition_vector in
  let log_probability_of_transitioning :=
    map2d (log_clamped eps) last_transition_probability in
  let last_transition_probability_index :=
    map (fun l => map (fun i => (Z.of_nat i =? l - 1)%Z) (seq 0 max_inputs_len))
        inputs_len in
  log_probability_of_transitioning <-
    masked_fill2 NInf log_probability_of_transitioning
      (map2d negb last_transition_probability_index) ;;
  ew2 tadd last_log_alpha_scaled log_probability_of_transitioning.

(** The log-sum-exp of [final_log_c] over the states. *)
Definition get_absorption_state_scaling_factor (self : hmm) (mels_len : list Z)
  (log_alpha_scaled : T3) (inputs_len : list Z) : py T1 :=
  final_log_c <- absorption_final_log_c self mels_len log_alpha_scaled inputs_len ;;
  Ok (map logsumexp final_log_c).

(** [torch.sum(log_c, dim=1) + sum_final_log_c], the value that [forward]
    returns. *)
Definition log_probs_of (log_c : T2) (sum_final_log_c : T1) : py T1 :=
  ew1 tadd (map tsum log_c) sum_final_log_c.

(** One pass of the loop over [t] in [forward]; [self.emission_model(...)]
    and [self.transition_model(...)] are calls of the module objects. *)
Definition forward_step (inputs : Enc) (inputs_len : list Z) (mels ar_inputs : T3)
  (log_state_priors : T1) (t : nat) (st : T2 * T2 * T2 * hmm)
  : py (T2 * T2 * T2 * hmm) :=
  let '(h_memory, c_memory, log_c, self) := st in
  let '(h_memory, c_memory) := _process_ar_timestep t ar_inputs h_memory c_memory in
  let '(mean, std, transition_vector) := output_net h_memory inputs in
  log_alpha_temp <-
    (if (t =? 0)%nat then
       x_t <- select1 mels 0 ;;
       e <- dataclass_module_call (EmissionModel_forward x_t mean std inputs_len) ;;
       ew2 tadd [log_state_priors] e
     else
       x_t <- select1 mels t ;;
       e <- dataclass_module_call (EmissionModel_forward x_t mean std inputs_len) ;;
       prev <- select1 (self_log_alpha_scaled self) (t - 1) ;;
       tr <- dataclass_module_call
               (TransitionModel_forward eps prev transition_vector inputs_len) ;;
       ew2 tadd e tr) ;;
  let c_t := map logsumexp log_alpha_temp in
  log_c <- assign1 log_c t c_t ;;
  scaled <- ew2 tsub log_alpha_temp (map (fun c => [c]) c_t) ;;
  las <- assign1 (self_log_alpha_scaled self) t scaled ;;
  let self := set_log_alpha_scaled self las in
  tvs <- assign1 (self_transition_vector self) t transition_vector ;;
  let self := set_transition_vector self tvs in
  let self := set_means self (self_means self ++ [mean]) in
  Ok (h_memory, c_memory, log_c, self).

(** [for t in range(T_max)]. *)
Fixpoint forward_loop (inputs : Enc) (inputs_len : list Z) (mels ar_inputs : T3)
  (log_state_priors : T1) (ts : list nat) (st : T2 * T2 * T2 * hmm)
  : py (T2 * T2 * T2 * hmm) :=
  match ts with
  | [] => Ok st
  | t :: ts' =>
      st' <- forward_step inputs inputs_len mels ar_inputs log_state_priors t st ;;
      forward_loop inputs inputs_len mels ar_inputs log_state_priors ts' st'
  end.

(** [HMM.forward]; the call of [_mask_lengths] has the three arguments of the
    source. *)
Definition forward (self : hmm) (inputs : Enc) (inputs_len : list Z)
  (mels : T3) (mel_lens : list Z) : py (T1 * hmm) :=
  '(batch_size, n) <- unpack2 (enc_shape inputs) ;;
  let self := set_N self n in
  let T_max := zmax_list mel_lens in
  let mels := permute021 mels in
  log_state_priors <- _initialize_log_state_priors self ;;
  '(log_c, self) <- _initialize_forward_algorithm_variables self mels ;;
  ar_inputs <- _add_go_token mels ;;
  let '(h_memory, c_memory) := _init_lstm_states batch_size memory_rnn_dim in
  '(_, _, log_c, self) <-
    forward_loop inputs inputs_len mels ar_inputs log_state_priors
      (seq 0 (Z.to_nat T_max)) (h_memory, c_memory, log_c, self) ;;
  '(log_c, self) <- call_mask_lengths self [VT3 mels; VLens mel_lens; VT2 log_c] ;;
  sum_final_log_c <-
    get_absorption_state_scaling_factor self mel_lens
      (self_log_alpha_scaled self) inputs_len ;;
  log_probs <- log_probs_of log_c sum_final_log_c ;;
  Ok (log_probs, self).

End HMM.

(** ** HMM.sample *)

(** The local variables and lists of [sample] that change in its loop.
    [ar_mel_inputs] is [None] while the name is unbound. *)
Record sample_state : Type := {
  st_t : nat;
  st_current_z_number : nat;
  st_z : list nat;
  st_x : list T1;
  st_h_memory : T2;
  st_c_memory : T2;
  st_quantile : T1;
  st_ar_mel_inputs : option T2;
  st_input_parameter_values : list (T2 * nat);
  st_output_parameter_values : list (T2 * T2 * T1)
}.

(** What [sample] returns: [torch.stack(x)], [z] and the two lists of
    parameter values. *)
Definition sample_result : Type :=
  (list T1 * list nat * list (T2 * nat) * list (T2 * T2 * T1))%type.

(** Reading a local variable. *)
Definition read_local {A : Type} (v : option A) : py A :=
  match v with
  | Some a => Ok a
  | None => Raise UnboundLocalError
  end.

(** The truth value of a tensor: defined for one element only. *)
Definition tensor_bool (l : list bool) : py bool :=
  match l with
  | [b] => Ok b
  | _ => Raise RuntimeError
  end.

Section Sample.

(** Attributes of the object that [sample] reads. *)
Variables (ar_order post_prenet_rnn_dim : nat).
Variable max_sampling_time : Z.
Variables (predict_means deterministic_transition : bool).
Variable duration_quantile_threshold : tval.
Variable prenet : T3 -> T3.
Variable memory_rnn : T2 -> T2 * T2 -> T2 * T2.
Variable decoder : T2 -> T3 -> T2 * T2 * T2.

(** The random draws: the [t]-th draw of [Normal(means, stds).sample()] and
    of [transition_matrix.multinomial(1)[0].item()]. *)
Variable normal_sample : nat -> T2 -> T2 -> T2.
Variable multinomial : nat -> T1 -> Z.

Definition EmissionModel_sample (t : nat) (means stds : T2) (sampling_temp : tval)
  : T2 :=
  if tlt (Fin 0) sampling_temp
  then normal_sample t means (map2d (fun s => tmul s sampling_temp) stds)
  else means.

(** The end of one pass: the test of the [break] and [t += 1]. *)
Definition sample_next (T : Z) (N : nat) (st : sample_state) : sample_state + sample_result :=
  if (st_current_z_number st =? N)%nat
     || (negb (T =? 0)%Z && (Z.of_nat (st_t st) =? T - 1)%Z)
  then inr (st_x st, st_z st, st_input_parameter_values st,
            st_output_parameter_values st)
  else inl {| st_t := S (st_t st);
              st_current_z_number := st_current_z_number st;
              st_z := st_z st;
              st_x := st_x st;
              st_h_memory := st_h_memory st;
              st_c_memory := st_c_memory st;
              st_quantile := st_quantile st;
              st_ar_mel_inputs := st_ar_mel_inputs st;
              st_input_parameter_values := st_input_parameter_values st;
              st_output_parameter_values := st_output_parameter_values st |}.

(** One pass of [while True]. *)
Definition sample_body (inputs : T3) (sampling_temp : tval) (T : Z) (N : nat)
  (prenet_input : T3) (st : sample_state) : py (sample_state + sample_result) :=
  let memory_input := prenet [map (@concat tval) prenet_input] in
  let '(h_memory, c_memory) :=
    memory_rnn (hd [] memory_input) (st_h_memory st, st_c_memory st) in
  z_t <- select1 inputs (st_current_z_number st) ;;
  let '(mean, std, transition_vector) := decoder h_memory [z_t] in
  let transition_probability := map sigmoid (concat transition_vector) in
  let staying_probability := map sigmoid (map tneg (concat transition_vector)) in
  ar_mel_inputs <- read_local (st_ar_mel_inputs st) ;;
  let input_parameter_values :=
    st_input_parameter_values st ++ [(ar_mel_inputs, st_current_z_number st)] in
  let output_parameter_values :=
    st_output_parameter_values st ++ [(mean, std, transition_probability)] in
  let x_t :=
    if predict_means then mean
    else EmissionModel_sample (st_t st) mean std sampling_temp in
  ar_mel_inputs <- same_size (fun a c => Ok (tl (a ++ c))) ar_mel_inputs x_t ;;
  let x := st_x st ++ [concat x_t] in
  let transition_matrix := staying_probability ++ transition_probability in
  quantile <- ew1 tmul (st_quantile st) staying_probability ;;
  switch <-
    (if negb deterministic_transition
     then Ok (negb (multinomial (st_t st) transition_matrix =? 0)%Z)
     else tensor_bool (map (fun q => tlt q duration_quantile_threshold) quantile)) ;;
  let current_z_number :=
    if switch then S (st_current_z_number st) else st_current_z_number st in
  let quantile := if switch then [Fin 1] else quantile in
  Ok (sample_next T N
        {| st_t := st_t st;
           st_current_z_number := current_z_number;
           st_z := st_z st ++ [current_z_number];
           st_x := x;
           st_h_memory := h_memory;
           st_c_memory := c_memory;
           st_quantile := quantile;
           st_ar_mel_inputs := Some ar_mel_inputs;
           st_input_parameter_values := input_parameter_values;
           st_output_parameter_values := output_parameter_values |}).

(** The loop, run for at most [fuel] passes; [None] when the passes run
    out before the loop has ended. *)
Fixpoint sample_loop (fuel : nat) (inputs : T3) (sampling_temp : tval) (T : Z)
  (N : nat) (prenet_input : T3) (st : sample_state)
  : option (py sample_result) :=
  match fuel with
  | O => None
  | S fuel' =>
      match sample_body inputs sampling_temp T N prenet_input st with
      | Raise e => Some (Raise e)
      | Ok (inr result) => Some (Ok result)
      | Ok (inl st') => sample_loop fuel' inputs sampling_temp T N prenet_input st'
      end
  end.

(** The state at the first pass; [ar_mel_inputs] has not been assigned. *)
Definition sample_init : sample_state :=
  let '(h_memory, c_memory) := _init_lstm_states 1 post_prenet_rnn_dim in
  {| st_t := 0;
     st_current_z_number := 0;
     st_z := [0%nat];
     st_x := [];
     st_h_memory := h_memory;
     st_c_memory := c_memory;
     st_quantile := [Fin 1];
     st_ar_mel_inputs := None;
     st_input_parameter_values := [];
     st_output_parameter_values := [] |}.

(** [T] is [None] when the caller gives no budget. *)
Definition sample (fuel : nat) (inputs : T3) (sampling_temp : tval) (T : option Z)
  : option (py sample_result) :=
  let T := match T with
           | Some t => if (t =? 0)%Z then max_sampling_time else t
           | None => max_sampling_time
           end in
  let N := length (hd [] inputs) in
  let prenet_input := [zeros2 ar_order 1] in
  sample_loop fuel inputs sampling_temp T N prenet_input sample_init.

End Sample.

(** ** The range of float32 *)

(** The tensors of [AlignTTS] hold float32 numbers.  [float_overflow] is
    the least magnitude that float32 rounds to an infinity (half a unit in
    the last place above the largest float), [float_underflow] the greatest
    magnitude that it rounds to 0 (half the smallest subnormal). *)
Definition float_overflow : R := IZR (2 ^ 128 - 2 ^ 103).
Definition float_underflow : R := / IZR (2 ^ 150).

(** The float32 result of an operation whose exact result is [x]: an
    infinity from [float_overflow] on, 0 up to [float_underflow], and [x]
    in between, where the rounding to 24 significant bits is left out. *)
Definition fl (x : R) : tval :=
  if Rleb float_overflow x then PInf
  else if Rleb x (- float_overflow) then NInf
  else if Rleb (Rabs x) float_underflow then Fin 0
  else Fin x.

Definition rng (a : tval) : tval :=
  match a with
  | Fin x => fl x
  | _ => a
  end.

(** ** AlignTTS: durations *)

(** [torch.round] on a real: to the nearest integer, a tie to the even one. *)
Definition Rround (x : R) : Z :=
  let f := Int_part x in
  let r := x - IZR f in
  if Rltb r (/ 2) then f
  else if Rltb (/ 2) r then (f + 1)%Z
  else if Z.even f then f else (f + 1)%Z.

Definition tround (a : tval) : tval :=
  match a with
  | Fin x => Fin (IZR (Rround x))
  | _ => a
  end.

(** A whole number that is at least 1. *)
Definition whole_ge_1 (a : tval) : Prop :=
  exists k : Z, a = Fin (IZR k) /\ (1 <= k)%Z.

(** One entry of [format_durations], each operation with its float32
    range: an exponential that overflows is [inf], which the mask entry 0
    turns into [nan]; neither is below 1, so that both come out as they
    are. *)
Definition duration_entry (length_scale v m : tval) : tval :=
  let e := rng (tsub (rng (texp v)) (Fin 1)) in
  let raw := rng (tmul (rng (tmul e m)) length_scale) in
  tround (if tlt raw (Fin 1) then Fin 1 else raw).

(** A (B, C, N) tensor. *)
Definition shape3p {A : Type} (b c n : nat) (x : list (list (list A))) : Prop :=
  length x = b /\ Forall (shape2 c n) x.

Definition all_fin3 (x : T3) : Prop :=
  Forall (Forall (Forall is_fin)) x.

Section AlignTTS_durations.

Variable length_scale : tval.

(** The tensors are (B, 1, T). *)
Definition format_durations (o_dr_log x_mask : T3) : py T3 :=
  o_dr <- ew3 (fun a c => rng (tmul a c))
            (map3d (fun v => rng (tsub (rng (texp v)) (Fin 1))) o_dr_log)
            x_mask ;;
  let o_dr := map3d (fun v => rng (tmul v length_scale)) o_dr in
  let o_dr := map3d (fun v => if tlt v (Fin 1) then Fin 1 else v) o_dr in
  Ok (map3d tround o_dr).

(** The mask of [inference]: [sequence_mask] of the single length
    [x.shape[1]], with the channel axis added. *)
Definition inference_x_mask (T_max : nat) : T3 :=
  unsqueeze1
    (map2d of_bool
       (sequence_mask [Z.of_nat T_max] (Some (Z.of_nat T_max)))).

(** [y_lengths] of [inference], from the output of the duration
    predictor.  No entry of [o_dr] is negative, so that the float32 sum of
    a row overflows exactly when the exact sum is out of range, in whatever
    order the terms are added. *)
Definition inference_y_lengths (T_max : nat) (o_dr_log : T3) : py T1 :=
  let x_mask := inference_x_mask T_max in
  o_dr <- format_durations o_dr_log x_mask ;;
  let o_dr := squeeze1 o_dr in
  Ok (map (fun row => rng (tsum row)) o_dr).

End AlignTTS_durations.

(** ** AlignTTS: the monotonic alignment *)

(** [x.mean(dim=-1)] of one row: the sum, then the division by the number
    of entries, each with its float32 range.  The sum is brought into range
    once it is complete: a partial sum that leaves the range while the
    whole sum does not is left out. *)
Definition tmean (l : T1) : tval :=
  rng (tdiv (rng (tsum l)) (Fin (INR (length l)))).

(** Entry [(i, j)] of [compute_log_probs] for one item, from row [i] of the
    transposed [mu] and [log_sigma] and row [j] of the transposed [y], each
    operation with its float32 range: a variance [exp(log_sigma) ** 2] that
    underflows is 0, and the quotient by it is [inf], or [nan] for a
    squared error 0. *)
Definition log_prob_entry (mu_i log_sigma_i y_j : T1) : py tval :=
  d <- ew1 (fun a c => rng (tsub a c)) y_j mu_i ;;
  q <- ew1 (fun a c => rng (tdiv a c)) (map (fun x => rng (tmul x x)) d)
         (map (fun s => let e := rng (texp s) in rng (tmul e e)) log_sigma_i) ;;
  Ok (rng (tsub (rng (tmul (Fin (- / 2)) (tmean q)))
            (rng (tmul (Fin (/ 2)) (tmean log_sigma_i))))).

(** [mu] and [log_sigma] are (B, D, T_en), [y] is (B, D, T_dec); the result
    is (B, T_en, T_dec). *)
Definition compute_log_probs (mu log_sigma y : T3) : py T3 :=
  let y := permute021 y in
  let mu := permute021 mu in
  let log_sigma := permute021 log_sigma in
  ms <- same_size (same_size (fun m s => Ok (m, s))) mu log_sigma ;;
  bcast (fun ms_b y_b =>
           mapM (fun ms_i => mapM (log_prob_entry (fst ms_i) (snd ms_i)) y_b) ms_b)
        ms y.

(** Modelled from the spec: [maximum_path] of
    [TTS.tts.layers.glow_tts.monotonic_align], which is not among the
    sources: "the monotonic (non-decreasing, no-skip character-to-frame)
    path maximizing total log-probability via dynamic programming (the
    classic monotonic alignment search used in flow-based TTS)".

    For one item of [t_x] valid characters and [t_y] valid frames.  [v] holds
    the best score of a path that ends on each character at the previous
    frame; a path reaches character [x] at frame [j] by staying on [x] or by
    advancing from [x - 1], and no path is on a character beyond [j] at frame
    [j].  [mas_direction] records, per character, whether staying is at
    least as good as advancing; the path is read off backwards from the last
    character at the last frame. *)
Definition mas_shift (v : T1) : T1 :=
  match v with
  | [] => []
  | _ => NInf :: removelast v
  end.

Definition mas_direction (v : T1) : list bool := zip_with tge v (mas_shift v).

Definition mas_column (j : nat) (v col : T1) : T1 :=
  let v_max := zip_with (fun v1 v0 => if tge v1 v0 then v1 else v0) v (mas_shift v) in
  zip_with (fun x s => if (x <=? j)%nat then s else NInf)
    (seq 0 (length v)) (zip_with tadd v_max col).

Fixpoint mas_forward (j : nat) (v : T1) (cols : T2) : list (list bool) :=
  match cols with
  | [] => []
  | col :: cols' => mas_direction v :: mas_forward (S j) (mas_column j v col) cols'
  end.

(** [dirs] from the last frame to the first. *)
Fixpoint mas_backtrack (dirs : list (list bool)) (index : nat) : list nat :=
  match dirs with
  | [] => []
  | d :: dirs' =>
      index :: mas_backtrack dirs' (if nth index d true then index else pred index)
  end.

(** The character of each of the [t_y] valid frames. *)
Definition mas_path (t_x t_y : nat) (value : T2) : list nat :=
  let cols := firstn t_y (transpose (firstn t_x value)) in
  rev (mas_backtrack (rev (mas_forward 0 (zeros1 t_x) cols)) (t_x - 1)).

Definition count_true (l : list bool) : nat := length (filter (fun c => c) l).

(** The alignment as a 0/1 matrix of the shape of [value], zero outside the
    mask. *)
Definition path_attn (mask : list (list bool)) (T_en T_dec : nat) (path : list nat)
  : T2 :=
  map (fun i =>
         map (fun j =>
                of_bool (nth j (nth i mask []) false
                         && match nth_error path j with
                            | Some p => (p =? i)%nat
                            | None => false
                            end))
             (seq 0 T_dec))
      (seq 0 T_en).





(** ** AlignTTS: the training phase *)

(** [l.index(True)]. *)
Fixpoint index_true (l : list bool) : py nat :=
  match l with
  | [] => Raise ValueError
  | c :: l' => if c then Ok 0%nat else k <- index_true l' ;; Ok (S k)
  end.

(** [True in l]. *)
Definition True_in (l : list bool) : bool := existsb (fun c => c) l.

(** [AlignTTS._set_phase]; [phase_start_steps] is [None] when the
    configuration does not hold a list, and the phase is then [None]. *)
Definition _set_phase (phase_start_steps : option (list Z)) (global_step : Z)
  : py (option Z) :=
  match phase_start_steps with
  | Some steps =>
      let vals := map (fun i => (i <? global_step)%Z) steps in
      if negb (True_in vals) then Ok (Some 0%Z)
      else
        k <- index_true (rev (map (fun i => (i <? global_step)%Z) steps)) ;;
        Ok (Some (Z.of_nat (length steps) - Z.of_nat k - 1)%Z)
  | None => Ok None
  end.

(** ** AlignTTS: the logarithm of the durations *)

(** An entry of [dr_mas_log = torch.log(dr_mas + 1)] in [AlignTTS.forward]. *)
Definition duration_log (d : tval) : tval := tlog (tadd d (Fin 1)).

(** ** AlignTTS.forward: the phases *)

(** [x.squeeze(1)]: the axis goes when its size is 1, and stays
    otherwise. *)
Definition squeeze1_of2 (x : T2) : T1 + T2 :=
  if (length (hd [] x) =? 1)%nat then inl (map (hd NaN) x) else inr x.

Definition squeeze1_of3 (x : T3) : T2 + T3 :=
  if (length (hd [] x) =? 1)%nat then inl (squeeze1 x) else inr x.

(** The dictionary that [forward] returns; [None] is Python's [None]. *)
Record align_outputs : Type := {
  model_outputs : T3;
  alignments : T3;
  durations_log : option (T2 + T3);
  durations_mas_log : T1 + T2;
  out_mu : option T3;
  out_log_sigma : option T3;
  out_logp : option T3
}.

(** How a call of [forward] ends: with the dictionary, with an exception of
    one of the methods it calls, or with the [AttributeError] of a method
    call on [None]. *)
Inductive align_result : Type :=
| Returned (o : align_outputs)
| Raised (e : exn)
| RaisedAttributeError.

(** [phase == k]; [None == k] is false. *)
Definition phase_is (phase : option Z) (k : Z) : bool :=
  match phase with
  | Some p => (p =? k)%Z
  | None => false
  end.

Section AlignTTS_forward.

(** The token batch and the speaker embedding are only handed on. *)
Variables (Tokens Speaker : Type).

(** The methods and the networks that [forward] calls; they run networks
    that are not part of the sources, and [convert_dr_to_align] runs
    [generate_path]. *)
Variable _forward_encoder :
  Tokens -> list Z -> option Speaker -> py (T3 * T3 * T3 * option Speaker).
Variable _forward_mdn : T3 -> T3 -> list Z -> T3 -> py (T2 * T3 * T3 * T3).
Variable convert_dr_to_align : T2 -> T3 -> T3 -> py T3.
Variable _forward_decoder :
  T3 -> T3 -> T2 -> T3 -> list Z -> option Speaker -> py (T3 * T3).
Variable duration_predictor : Tokens + T3 -> T3 -> py T3.

(** The branches of [forward] on [phase]: the values of [o_de],
    [o_dr_log], [dr_mas], [attn], [mu], [log_sigma] and [logp] after
    them.  [x_vectors] is [cond_input["x_vectors"]], [None] when the key is
    missing. *)
Definition AlignTTS_forward_branches (x : Tokens) (x_lengths : list Z) (y : T3)
  (y_lengths : list Z) (x_vectors : option Speaker) (phase : option Z)
  : py (option T3 * option (T2 + T3) * T2 * T3
        * option T3 * option T3 * option T3) :=
  let y := permute021 y in
  let g := x_vectors in
  if phase_is phase 0 then
    '(o_en, o_en_dp, x_mask, g) <- _forward_encoder x x_lengths g ;;
    '(dr_mas, mu, log_sigma, logp) <- _forward_mdn o_en y y_lengths x_mask ;;
    let y_mask := unsqueeze1 (map2d of_bool (sequence_mask y_lengths None)) in
    attn <- convert_dr_to_align dr_mas x_mask y_mask ;;
    Ok (None, None, dr_mas, attn, Some mu, Some log_sigma, Some logp)
  else if phase_is phase 1 then
    '(o_en, o_en_dp, x_mask, g) <- _forward_encoder x x_lengths g ;;
    '(dr_mas, _, _, _) <- _forward_mdn o_en y y_lengths x_mask ;;
    '(o_de, attn) <- _forward_decoder o_en o_en_dp dr_mas x_mask y_lengths g ;;
    Ok (Some o_de, None, dr_mas, attn, None, None, None)
  else if phase_is phase 2 then
    '(o_en, o_en_dp, x_mask, g) <- _forward_encoder x x_lengths g ;;
    '(dr_mas, mu, log_sigma, logp) <- _forward_mdn o_en y y_lengths x_mask ;;
    '(o_de, attn) <- _forward_decoder o_en o_en_dp dr_mas x_mask y_lengths g ;;
    Ok (Some o_de, None, dr_mas, attn, Some mu, Some log_sigma, Some logp)
  else if phase_is phase 3 then
    '(o_en, o_en_dp, x_mask, g) <- _forward_encoder x x_lengths g ;;
    o_dr_log <- duration_predictor (inl x) x_mask ;;
    '(dr_mas, mu, log_sigma, logp) <- _forward_mdn o_en y y_lengths x_mask ;;
    '(o_de, attn) <- _forward_decoder o_en o_en_dp dr_mas x_mask y_lengths g ;;
    Ok (Some o_de, Some (squeeze1_of3 o_dr_log), dr_mas, attn,
        Some mu, Some log_sigma, Some logp)
  else
    '(o_en, o_en_dp, x_mask, g) <- _forward_encoder x x_lengths g ;;
    o_dr_log <- duration_predictor (inr o_en_dp) x_mask ;;
    '(dr_mas, mu, log_sigma, logp) <- _forward_mdn o_en y y_lengths x_mask ;;
    '(o_de, attn) <- _forward_decoder o_en o_en_dp dr_mas x_mask y_lengths g ;;
    Ok (Some o_de, Some (squeeze1_of3 o_dr_log), dr_mas, attn,
        Some mu, Some log_sigma, Some logp).

(** [AlignTTS.forward]: after the branches, [dr_mas_log] and the
    dictionary, whose first entry is [o_de.transpose(1, 2)]. *)
Definition AlignTTS_forward (x : Tokens) (x_lengths : list Z) (y : T3)
  (y_lengths : list Z) (x_vectors : option Speaker) (phase : option Z)
  : align_result :=
  match AlignTTS_forward_branches x x_lengths y y_lengths x_vectors phase with
  | Raise e => Raised e
  | Ok (o_de, o_dr_log, dr_mas, attn, mu, log_sigma, logp) =>
      let dr_mas_log := squeeze1_of2 (map2d duration_log dr_mas) in
      match o_de with
      | None => RaisedAttributeError
      | Some o_de =>
          Returned {| model_outputs := permute021 o_de;
                      alignments := attn;
                      durations_log := o_dr_log;
                      durations_mas_log := dr_mas_log;
                      out_mu := mu;
                      out_log_sigma := log_sigma;
                      out_logp := logp |}
      end
  end.

End AlignTTS_forward.

(** ** Auxiliary notions of the properties *)

(** One item with one frame and no valid state. *)
Definition absorption_example : hmm :=
  {| self_N := 1;
     self_log_alpha_scaled := [[[Fin 0]]];
     self_transition_vector := [[[Fin 0]]];
     self_means := [] |}.

(** Two items of 2 and 1 valid frames over two states; the second item has
    one valid state. *)
Definition masking_example : hmm :=
  {| self_N := 2;
     self_log_alpha_scaled :=
       [ [[Fin 0; NInf]; [Fin (-1); Fin (-1)]];
         [[Fin 0; NInf]; [Fin 0; NInf]] ];
     self_transition_vector := zeros3 2 2 2;
     self_means := [] |}.





(** The mask row of one item: true below its valid length. *)
Definition mask_row (len : Z) (n : nat) : list bool :=
  map (fun i => (Z.of_nat i <? len)%Z) (seq 0 n).

(** The mask of one item of [attn_mask]. *)
Definition item_mask (t_x t_y : Z) (T_en T_dec : nat) : list (list bool) :=
  map (fun a => map (fun c => a && c) (mask_row t_y T_dec)) (mask_row t_x T_en).


(** A row of [d] real entries. *)
Definition real_row (d : nat) (r : T1) : Prop := length r = d /\ Forall is_fin r.

(** A real or [-inf]: what a logarithm of a probability or of a density
    can be. *)
Definition real_or_neg_inf (a : tval) : Prop :=
  match a with Fin _ | NInf => True | _ => False end.

(** A trace of state indices that goes up by at most one at a time and
    never down. *)
Definition one_step_trace (z : list nat) : Prop :=
  forall j, (S j < length z)%nat ->
    (nth j z 0 <= nth (S j) z 0 <= S (nth j z 0))%nat.

(** What holds of the lists of [sample] at the head of its loop, once its
    locals are bound: [z] ends with the current state index, which is below
    [N]; it is a one-step trace within [0, N], one entry longer than [x]. *)
Definition sample_inv (N : nat) (st : sample_state) : Prop :=
  (exists z0, st_z st = z0 ++ [st_current_z_number st]) /\
  one_step_trace (st_z st) /\
  Forall (fun k => (k <= N)%nat) (st_z st) /\
  (st_current_z_number st < N)%nat /\
  length (st_z st) = S (length (st_x st)).

(** A state of the loop of [sample] after a first frame [Fin 0] of one
    channel has been bound to [ar_mel_inputs]. *)
Definition sample_bound_example : sample_state :=
  {| st_t := 0;
     st_current_z_number := 0;
     st_z := [0%nat];
     st_x := [];
     st_h_memory := [[Fin 0]];
     st_c_memory := [[Fin 0]];
     st_quantile := [Fin 1];
     st_ar_mel_inputs := Some [[Fin 0]];
     st_input_parameter_values := [];
     st_output_parameter_values := [] |}.

(** The logistic function on the reals, the probability mass of a
    log-probability, the real in a tensor entry, and the sum of the first
    [n] values of a sequence. *)
Definition sigmoidR (x : R) : R := / (1 + exp (- x)).

Definition massR (v : tval) : R :=
  match v with Fin a => exp a | _ => 0 end.

Definition realR (v : tval) : R :=
  match v with Fin a => a | _ => 0 end.

Definition Rsum (f : nat -> R) (n : nat) : R :=
  fold_right Rplus 0 (map f (seq 0 n)).

(** A real of magnitude at most [bound]. *)
Definition within (bound : R) (a : tval) : Prop :=
  match a with Fin x => Rabs x <= bound | _ => False end.

Definition all_within3 (bound : R) (x : T3) : Prop :=
  Forall (Forall (Forall (within bound))) x.

(** No step of [format_durations] overflows at an entry with log-duration
    [v], mask entry [m] and length scale [length_scale], all three real:
    the exponential, its product with the mask entry and the product of
    that with the length scale stay below [float_overflow].  After the
    subtraction of 1 the magnitude is at most the greater of the
    exponential and 1. *)
Definition in_float_range (length_scale v m : tval) : Prop :=
  match length_scale, v, m with
  | Fin l, Fin a, Fin c =>
      exp a < float_overflow /\
      Rmax (exp a) 1 * Rabs c < float_overflow /\
      Rmax (exp a) 1 * Rabs c * Rabs l < float_overflow
  | _, _, _ => False
  end.

(** * Properties *)

(** ** The monad and the broadcasting operations *)

Lemma zip_with_length {A B C : Type} (g : A -> B -> C) xs ys :
  length xs = length ys -> length (zip_with g xs ys) = length xs.
Proof.
  revert ys; induction xs as [|x xs IH]; intros [|y ys] H; simpl in *;
    try discriminate; auto.
Qed.

Lemma zip_with_nth {A B C : Type} (g : A -> B -> C) dx dy dz xs ys i :
  length xs = length ys -> (i < length xs)%nat ->
  nth i (zip_with g xs ys) dz = g (nth i xs dx) (nth i ys dy).
Proof.
  revert ys i; induction xs as [|x xs IH]; intros [|y ys] i H Hi; simpl in *;
    try discriminate; try lia.
  destruct i; auto. apply IH; lia.
Qed.

Lemma mapM_ok {A B : Type} (f : A -> py B) (g : A -> B) l :
  Forall (fun a => f a = Ok (g a)) l -> mapM f l = Ok (map g l).
Proof.
  induction 1 as [|a l Ha _ IH]; simpl; auto.
  now rewrite Ha, IH.
Qed.

Lemma zipM_ok {A B C : Type} (f : A -> B -> py C) (g : A -> B -> C) xs ys :
  Forall2 (fun x y => f x y = Ok (g x y)) xs ys ->
  zipM f xs ys = Ok (zip_with g xs ys).
Proof.
  induction 1 as [|x y xs ys Hxy _ IH]; simpl; auto.
  now rewrite Hxy, IH.
Qed.

Lemma expand_same {A : Type} (l : list A) n :
  length l = n -> expand n l = Ok l.
Proof.
  intros <-. unfold expand. now rewrite Nat.eqb_refl.
Qed.

Lemma bcast_same {A B C : Type} (f : A -> B -> py C) xs ys :
  length xs = length ys -> bcast f xs ys = zipM f xs ys.
Proof.
  intros H. unfold bcast, bsize. rewrite H, Nat.eqb_refl. simpl.
  rewrite (expand_same xs) by auto. simpl.
  now rewrite (expand_same ys).
Qed.

Lemma same_size_same {A B C : Type} (f : A -> B -> py C) xs ys :
  length xs = length ys -> same_size f xs ys = zipM f xs ys.
Proof.
  intros H. unfold same_size. now rewrite H, Nat.eqb_refl.
Qed.

(** Two lists of the same length, related entry by entry. *)
Lemma Forall2_nth_intro {A B : Type} (P : A -> B -> Prop) dx dy xs ys :
  length xs = length ys ->
  (forall i, (i < length xs)%nat -> P (nth i xs dx) (nth i ys dy)) ->
  Forall2 P xs ys.
Proof.
  revert ys; induction xs as [|x xs IH]; intros [|y ys] H Hi; simpl in *;
    try discriminate; constructor.
  - apply (Hi 0%nat); lia.
  - apply IH; [lia|]. intros i Hlt. apply (Hi (S i)); lia.
Qed.

Lemma shape2_row {A : Type} b n (x : list (list A)) i :
  shape2 b n x -> (i < b)%nat -> length (nth i x []) = n.
Proof.
  intros [Hb Hn] Hi. rewrite Forall_forall in Hn. apply Hn, nth_In. lia.
Qed.

Lemma shape2_intro {A : Type} b n (x : list (list A)) :
  length x = b -> (forall i, (i < b)%nat -> length (nth i x []) = n) ->
  shape2 b n x.
Proof.
  intros Hb Hn. split; auto. apply Forall_forall. intros r Hr.
  destruct (In_nth _ _ [] Hr) as (i & Hi & <-). apply Hn. lia.
Qed.

Lemma shape2_map2d {A B : Type} (f : A -> B) b n (x : list (list A)) :
  shape2 b n x -> shape2 b n (map2d f x).
Proof.
  intros [Hb Hn]. split; unfold map2d.
  - now rewrite length_map.
  - apply Forall_map. eapply Forall_impl; [|exact Hn].
    intros r Hr. simpl. now rewrite length_map.
Qed.

Lemma map2d_nth {A B : Type} (f : A -> B) (x : list (list A)) b :
  nth b (map2d f x) [] = map f (nth b x []).
Proof.
  unfold map2d. change (@nil B) with (map f []). apply map_nth.
Qed.

Lemma ew1_same f (x y : T1) :
  length x = length y -> ew1 f x y = Ok (zip_with f x y).
Proof.
  intros H. unfold ew1. rewrite bcast_same by auto.
  apply zipM_ok. apply (Forall2_nth_intro _ NaN NaN); auto.
Qed.

Lemma shape2_length_eq {A B : Type} b n m (x : list (list A)) (y : list (list B)) :
  shape2 b n x -> shape2 b m y -> length x = length y.
Proof.
  intros [Hx _] [Hy _]. now rewrite Hx, Hy.
Qed.

Lemma ew2_same f b n (x y : T2) :
  shape2 b n x -> shape2 b n y ->
  ew2 f x y = Ok (zip_with (zip_with f) x y).
Proof.
  intros Hx Hy. unfold ew2.
  rewrite bcast_same by (apply (shape2_length_eq b n n); assumption).
  apply zipM_ok. apply (Forall2_nth_intro _ [] []).
  - apply (shape2_length_eq b n n); assumption.
  - intros i Hi. apply ew1_same.
    assert (Hb : (i < b)%nat) by (destruct Hx as [Hx _]; now rewrite <- Hx).
    now rewrite (shape2_row b n x), (shape2_row b n y).
Qed.

Lemma shape2_zip_with {A B C : Type} (g : A -> B -> C) b n
  (x : list (list A)) (y : list (list B)) :
  shape2 b n x -> shape2 b n y -> shape2 b n (zip_with (zip_with g) x y).
Proof.
  intros Hx Hy.
  assert (Hl : length x = length y) by now apply (shape2_length_eq b n n).
  apply shape2_intro.
  - rewrite zip_with_length by auto. apply Hx.
  - intros i Hi.
    rewrite (zip_with_nth _ [] [] []) by (try exact Hl; destruct Hx as [Hb _]; lia).
    rewrite zip_with_length.
    + now apply (shape2_row b n x).
    + now rewrite (shape2_row b n x), (shape2_row b n y).
Qed.

Lemma zip_with2_nth {A B C : Type} (g : A -> B -> C) dx dy dz b n
  (x : list (list A)) (y : list (list B)) i j :
  shape2 b n x -> shape2 b n y -> (i < b)%nat -> (j < n)%nat ->
  nth j (nth i (zip_with (zip_with g) x y) []) dz
  = g (nth j (nth i x []) dx) (nth j (nth i y []) dy).
Proof.
  intros Hx Hy Hi Hj.
  assert (Hl : length x = length y) by now apply (shape2_length_eq b n n).
  rewrite (zip_with_nth _ [] [] []) by (try exact Hl; destruct Hx as [Hb _]; lia).
  apply zip_with_nth.
  - rewrite (shape2_row b n x), (shape2_row b n y); auto.
  - now rewrite (shape2_row b n x).
Qed.

Lemma nth_removelast {A : Type} (d : A) l j :
  (S j < length l)%nat -> nth j (removelast l) d = nth j l d.
Proof.
  revert j; induction l as [|a l IH]; intros j H; simpl in *; [lia|].
  destruct l as [|a' l]; simpl in *; [lia|].
  destruct j; auto. apply IH. simpl. lia.
Qed.

Lemma removelast_length {A : Type} (l : list A) :
  length (removelast l) = (length l - 1)%nat.
Proof.
  induction l as [|a l IH]; auto.
  destruct l as [|a' l]; auto.
  change (removelast (a :: a' :: l)) with (a :: removelast (a' :: l)).
  simpl length in *. lia.
Qed.

Lemma roll1_length {A : Type} (d : A) l : length (roll1 d l) = length l.
Proof.
  destruct l as [|a l]; auto. unfold roll1.
  change (length (last (a :: l) d :: removelast (a :: l)))
    with (S (length (removelast (a :: l)))).
  rewrite removelast_length. simpl. lia.
Qed.

Lemma map_nth_lt {A B : Type} (f : A -> B) l i d d' :
  (i < length l)%nat -> nth i (map f l) d' = f (nth i l d).
Proof.
  intros H. rewrite (nth_indep _ d' (f d)) by now rewrite length_map.
  apply map_nth.
Qed.

Lemma nth_S_cons_tl {A : Type} (v d : A) l k :
  (1 <= length l)%nat -> nth (S k) (v :: tl l) d = nth (S k) l d.
Proof.
  destruct l; simpl; [lia | reflexivity].
Qed.

Lemma roll1_nth_S {A : Type} (d d' : A) l j :
  (S j < length l)%nat -> nth (S j) (roll1 d l) d' = nth j l d'.
Proof.
  intros H. destruct l as [|a l]; [simpl in H; lia|].
  change (nth (S j) (roll1 d (a :: l)) d') with (nth j (removelast (a :: l)) d').
  now apply nth_removelast.
Qed.

(** The mask of [sequence_mask]. *)
Lemma sequence_mask_shape lens w :
  shape2 (length lens) (Z.to_nat w) (sequence_mask lens (Some w)).
Proof.
  unfold sequence_mask. split.
  - now rewrite length_map.
  - apply Forall_map, Forall_forall. intros len _.
    now rewrite length_map, length_seq.
Qed.

Lemma sequence_mask_default lens :
  sequence_mask lens None = sequence_mask lens (Some (zmax_list lens)).
Proof. reflexivity. Qed.

Lemma sequence_mask_nth lens w b i :
  (b < length lens)%nat -> (i < Z.to_nat w)%nat ->
  nth i (nth b (sequence_mask lens (Some w)) []) false
  = (Z.of_nat i <? nth b lens 0%Z)%Z.
Proof.
  intros Hb Hi. unfold sequence_mask.
  set (row := fun len : Z => map (fun i => (Z.of_nat i <? len)%Z) (seq 0 (Z.to_nat w))).
  rewrite (nth_indep _ [] (row 0%Z)) by now rewrite length_map.
  rewrite (map_nth row lens 0%Z b). unfold row.
  rewrite (nth_indep _ false ((Z.of_nat 0 <? nth b lens 0)%Z))
    by now rewrite length_map, length_seq.
  rewrite (map_nth (fun i => (Z.of_nat i <? nth b lens 0)%Z) _ 0%nat i).
  now rewrite seq_nth.
Qed.

Lemma stack_reduce2_ok g b n (x y : T2) :
  shape2 b n x -> shape2 b n y ->
  stack_reduce2 g x y = Ok (zip_with (zip_with (fun a c => g [a; c])) x y).
Proof.
  intros Hx Hy. unfold stack_reduce2.
  assert (Hl : length x = length y) by now apply (shape2_length_eq b n n).
  rewrite same_size_same by exact Hl.
  apply zipM_ok, (Forall2_nth_intro _ [] []); [exact Hl|].
  intros i Hi.
  assert (Hb : (i < b)%nat) by (destruct Hx as [Hx _]; now rewrite <- Hx).
  assert (Hr : length (nth i x []) = length (nth i y []))
    by now rewrite (shape2_row b n x), (shape2_row b n y).
  rewrite same_size_same by exact Hr.
  apply zipM_ok, (Forall2_nth_intro _ NaN NaN); auto.
Qed.

Lemma masked_fill1_ok v (x : T1) (m : mask1) :
  length x = length m ->
  masked_fill1 v x m = Ok (zip_with (fun a (c : bool) => if c then v else a) x m).
Proof.
  intros H. unfold masked_fill1. rewrite expand_same by auto. simpl.
  apply zipM_ok, (Forall2_nth_intro _ NaN false); auto.
Qed.

Lemma masked_fill2_ok v b n (x : T2) (m : mask2) :
  shape2 b n x -> shape2 b n m ->
  masked_fill2 v x m
  = Ok (zip_with (zip_with (fun a (c : bool) => if c then v else a)) x m).
Proof.
  intros Hx Hm. unfold masked_fill2.
  assert (Hl : length x = length m) by now apply (shape2_length_eq b n n).
  rewrite expand_same by auto. simpl.
  apply zipM_ok, (Forall2_nth_intro _ [] []); [exact Hl|].
  intros i Hi.
  assert (Hb : (i < b)%nat) by (destruct Hx as [Hx _]; now rewrite <- Hx).
  apply masked_fill1_ok.
  now rewrite (shape2_row b n x), (shape2_row b n m).
Qed.

(** ** TransitionModel.forward on a well-shaped batch *)

Section TransitionFacts.

Variable eps : R.
Variables (b n : nat) (las tv : T2) (lens : list Z).
Hypothesis batch : transition_batch b n las tv lens.

Let log_staying := map2d (log_clamped eps) (map2d sigmoid (map2d tneg tv)).
Let log_transition := map2d (log_clamped eps) (map2d sigmoid tv).
Let staying := zip_with (zip_with tadd) las log_staying.
Let leaving :=
  map (fun r => NInf :: tl (roll1 NaN r))
    (zip_with (zip_with tadd) las log_transition).
Let mask := map2d negb (sequence_mask lens None).
Let out :=
  zip_with (zip_with (fun a (c : bool) => if c then NInf else a))
    (zip_with (zip_with (fun a c => logsumexp [a; c])) staying leaving) mask.

Local Lemma batch_las : shape2 b n las.
Proof. apply batch. Qed.

Local Lemma batch_tv : shape2 b n tv.
Proof. apply batch. Qed.

Local Lemma batch_n : (1 <= n)%nat.
Proof. apply batch. Qed.

Local Lemma staying_shape : shape2 b n staying.
Proof.
  apply shape2_zip_with; [apply batch_las|].
  repeat apply shape2_map2d. apply batch_tv.
Qed.

Local Lemma leaving_shape : shape2 b n leaving.
Proof.
  assert (H0 : shape2 b n (zip_with (zip_with tadd) las log_transition)).
  { apply shape2_zip_with; [apply batch_las|].
    repeat apply shape2_map2d. apply batch_tv. }
  destruct H0 as [Hb Hn]. split; unfold leaving.
  - now rewrite length_map.
  - apply Forall_map. eapply Forall_impl; [|exact Hn].
    intros r Hr. simpl.
    pose proof (roll1_length NaN r) as Hl. pose proof batch_n.
    destruct (roll1 NaN r); simpl in *; lia.
Qed.

Local Lemma mask_shape : shape2 b n mask.
Proof.
  unfold mask. apply shape2_map2d. rewrite sequence_mask_default.
  destruct batch as (_ & _ & _ & <- & <-). apply sequence_mask_shape.
Qed.

Lemma TransitionModel_staying_ok :
  TransitionModel_staying eps las tv = Ok staying.
Proof.
  unfold TransitionModel_staying. apply (ew2_same _ b n); [apply batch_las|].
  repeat apply shape2_map2d. apply batch_tv.
Qed.

Lemma TransitionModel_leaving_ok :
  TransitionModel_leaving eps las tv = Ok leaving.
Proof.
  unfold TransitionModel_leaving.
  assert (H0 : shape2 b n (zip_with (zip_with tadd) las log_transition)).
  { apply shape2_zip_with; [apply batch_las|].
    repeat apply shape2_map2d. apply batch_tv. }
  rewrite (ew2_same _ b n); [|apply batch_las|
    repeat apply shape2_map2d; apply batch_tv].
  cbn [bind]. cbv zeta. unfold leaving.
  rewrite <- (map_map (roll1 NaN) (fun r : T1 => NInf :: tl r)).
  apply mapM_ok, Forall_map. destruct H0 as [_ Hn].
  eapply Forall_impl; [|exact Hn]. intros r Hr. simpl.
  pose proof (roll1_length NaN r) as Hl. pose proof batch_n.
  destruct (roll1 NaN r); simpl in *; [lia|reflexivity].
Qed.

Lemma TransitionModel_forward_ok :
  TransitionModel_forward eps las tv lens = Ok out.
Proof.
  unfold TransitionModel_forward.
  rewrite TransitionModel_staying_ok, TransitionModel_leaving_ok. simpl.
  rewrite (stack_reduce2_ok _ b n) by (apply staying_shape || apply leaving_shape).
  simpl. apply (masked_fill2_ok _ b n); [|apply mask_shape].
  apply shape2_zip_with; [apply staying_shape | apply leaving_shape].
Qed.

Lemma out_shape : shape2 b n out.
Proof.
  apply shape2_zip_with; [|apply mask_shape].
  apply shape2_zip_with; [apply staying_shape | apply leaving_shape].
Qed.

Lemma leaving_entry i j :
  (i < b)%nat -> (j < n)%nat ->
  get2 leaving i j
  = match j with
    | O => NInf
    | S k => tadd (get2 las i k) (log_clamped eps (sigmoid (get2 tv i k)))
    end.
Proof.
  intros Hi Hj. unfold get2, leaving.
  assert (H0 : shape2 b n (zip_with (zip_with tadd) las log_transition)).
  { apply shape2_zip_with; [apply batch_las|].
    repeat apply shape2_map2d. apply batch_tv. }
  set (f := fun r : T1 => NInf :: tl (roll1 NaN r)).
  rewrite (nth_indep _ [] (f [])) by (rewrite length_map; destruct H0 as [-> _]; auto).
  rewrite (map_nth f). unfold f.
  destruct j as [|k]; [reflexivity|].
  match goal with
  | |- context [roll1 NaN ?x] => remember x as r eqn:Er
  end.
  assert (Hr : length r = n) by (subst r; now apply (shape2_row b n)).
  pose proof batch_n as Hn.
  rewrite nth_S_cons_tl by (rewrite roll1_length; lia).
  rewrite roll1_nth_S by lia.
  subst r.
  rewrite (zip_with2_nth tadd NaN NaN NaN b n); auto;
    [|apply batch_las | repeat apply shape2_map2d; apply batch_tv | lia].
  unfold log_transition. rewrite !map2d_nth.
  assert (Ht : length (nth i tv []) = n)
    by (apply (shape2_row b n); auto; apply batch_tv).
  rewrite (map_nth_lt (log_clamped eps) _ _ NaN) by (rewrite length_map; lia).
  now rewrite (map_nth_lt sigmoid _ _ NaN) by lia.
Qed.

Lemma staying_entry i j :
  (i < b)%nat -> (j < n)%nat ->
  get2 staying i j
  = tadd (get2 las i j) (log_clamped eps (sigmoid (tneg (get2 tv i j)))).
Proof.
  intros Hi Hj. unfold get2, staying.
  rewrite (zip_with2_nth tadd NaN NaN NaN b n); auto;
    [|apply batch_las | repeat apply shape2_map2d; apply batch_tv].
  unfold log_staying. rewrite !map2d_nth.
  assert (Hr : length (nth i tv []) = n) by (apply (shape2_row b n); auto; apply batch_tv).
  rewrite (map_nth_lt (log_clamped eps) _ _ NaN) by (rewrite !length_map; lia).
  rewrite (map_nth_lt sigmoid _ _ NaN) by (rewrite length_map; lia).
  now rewrite (map_nth_lt tneg _ _ NaN) by lia.
Qed.

Lemma out_entry i j :
  (i < b)%nat -> (j < n)%nat ->
  get2 out i j
  = transition_entry eps (nth i las []) (nth i tv []) (nth i lens 0%Z) j.
Proof.
  intros Hi Hj. unfold get2 at 1. unfold out.
  rewrite (zip_with2_nth _ NaN false NaN b n); auto;
    [| apply shape2_zip_with; [apply staying_shape | apply leaving_shape]
     | apply mask_shape ].
  rewrite (zip_with2_nth _ NaN NaN NaN b n); auto;
    [| apply staying_shape | apply leaving_shape ].
  fold (get2 staying i j). fold (get2 leaving i j).
  rewrite staying_entry, leaving_entry by auto.
  unfold mask. rewrite map2d_nth.
  assert (Hm : shape2 b n (sequence_mask lens None)).
  { rewrite sequence_mask_default.
    destruct batch as (_ & _ & _ & <- & <-). apply sequence_mask_shape. }
  rewrite (map_nth_lt negb _ _ false) by (rewrite (shape2_row b n); auto).
  rewrite sequence_mask_default, sequence_mask_nth.
  - unfold transition_entry, get2.
    destruct (Z.of_nat j <? nth i lens 0%Z)%Z; reflexivity.
  - destruct batch as (_ & _ & _ & -> & _); auto.
  - destruct batch as (_ & _ & _ & _ & ->); auto.
Qed.

End TransitionFacts.

(** ** Tensor entries *)

Lemma Rltb_true x y : x < y -> Rltb x y = true.
Proof. intros H. unfold Rltb. destruct (Rlt_dec x y); [reflexivity|contradiction]. Qed.

Lemma Rltb_false x y : ~ x < y -> Rltb x y = false.
Proof. intros H. unfold Rltb. destruct (Rlt_dec x y); [contradiction|reflexivity]. Qed.

Lemma Reqb_true x y : x = y -> Reqb x y = true.
Proof. intros H. unfold Reqb. destruct (Req_dec_T x y); [reflexivity|contradiction]. Qed.

Lemma Reqb_false x y : x <> y -> Reqb x y = false.
Proof. intros H. unfold Reqb. destruct (Req_dec_T x y); [contradiction|reflexivity]. Qed.

Lemma tlog_pos x : 0 < x -> tlog (Fin x) = Fin (ln x).
Proof.
  intros H. unfold tlog. rewrite Rltb_false, Reqb_false by lra. reflexivity.
Qed.

Lemma tlog_zero : tlog (Fin 0) = NInf.
Proof.
  unfold tlog. rewrite Rltb_false, Reqb_true by lra. reflexivity.
Qed.

Lemma sigmoid_fin x : sigmoid (Fin x) = Fin (/ (1 + exp (- x))).
Proof. reflexivity. Qed.

Lemma sigmoid_range x : 0 < / (1 + exp (- x)) < 1.
Proof.
  pose proof (exp_pos (- x)) as H. split.
  - apply Rinv_0_lt_compat. lra.
  - rewrite <- Rinv_1 at 2. apply Rinv_lt_contravar; lra.
Qed.

(** The clamped logarithm of a probability is a real that is at most 0. *)
Lemma log_clamped_prob eps p :
  0 <= eps <= 1 -> 0 < p < 1 ->
  exists q, log_clamped eps (Fin p) = Fin q /\ q <= 0.
Proof.
  intros He Hp. unfold log_clamped, clamp_min.
  assert (Hm : 0 < Rmax p eps <= 1).
  { split.
    - apply Rlt_le_trans with p; [lra | apply Rmax_l].
    - apply Rmax_lub; lra. }
  exists (ln (Rmax p eps)). split; [apply tlog_pos; lra|].
  destruct (Req_dec (Rmax p eps) 1) as [-> | Hne]; [rewrite ln_1; lra|].
  rewrite <- ln_1. left. apply ln_increasing; lra.
Qed.

Lemma logsumexp_single_path x : logsumexp [Fin x; NInf] = Fin x.
Proof.
  unfold logsumexp, tsum. cbn [map texp fold_right tadd].
  pose proof (exp_pos x) as H. rewrite tlog_pos by lra.
  replace (exp x + (0 + 0)) with (exp x) by lra. now rewrite ln_exp.
Qed.

(** ** TransitionModel.forward: what it returns *)

(** C3 (as amended).  On a well-shaped batch [TransitionModel.forward]
    returns a (B, N) tensor whose entry at a valid state [j] is the
    log-sum-exp of the "stay" term [prev j + log_clamped (sigmoid (- logit j))]
    and of the "advance" term, which is [-inf] at state 0 and
    [prev (j-1) + log_clamped (sigmoid (logit (j-1)))] elsewhere; the entry at
    a state at or beyond the valid length is [-inf]. *)
Theorem TransitionModel_forward_entries :
  forall eps b n las tv lens,
    transition_batch b n las tv lens ->
    exists out,
      TransitionModel_forward eps las tv lens = Ok out /\
      shape2 b n out /\
      forall i j, (i < b)%nat -> (j < n)%nat ->
        get2 out i j
        = transition_entry eps (nth i las []) (nth i tv []) (nth i lens 0%Z) j.
Proof.
  intros eps b n las tv lens H. eexists. split; [|split].
  - apply (TransitionModel_forward_ok eps b n); exact H.
  - exact (out_shape eps b n las tv lens H).
  - intros i j Hi Hj. apply (out_entry eps b n); assumption.
Qed.

Lemma transition_batch_example :
  transition_batch 1 2 [[Fin 0; NInf]] [[Fin 1; Fin (-1)]] [2%Z].
Proof.
  repeat split; simpl; repeat constructor.
Defined.

Lemma TransitionModel_forward_entries_witness :
  transition_batch 1 2 [[Fin 0; NInf]] [[Fin 1; Fin (-1)]] [2%Z] /\
  exists out,
    TransitionModel_forward (/ 10000) [[Fin 0; NInf]] [[Fin 1; Fin (-1)]] [2%Z]
    = Ok out /\
    shape2 1 2 out /\
    forall i j, (i < 1)%nat -> (j < 2)%nat ->
      get2 out i j
      = transition_entry (/ 10000) (nth i [[Fin 0; NInf]] [])
          (nth i [[Fin 1; Fin (-1)]] []) (nth i [2%Z] 0%Z) j.
Proof.
  split; [exact transition_batch_example|].
  apply (TransitionModel_forward_entries (/ 10000) 1 2).
  exact transition_batch_example.
Defined.

(** C3 (as stated) fails: with one state, previous log-probability 0 and
    logit 1 the code returns [log (sigmoid (-1))], the contract's wording
    gives [log (sigmoid 1)]. *)
Lemma TransitionModel_forward_not_as_worded :
  exists out,
    TransitionModel_forward (/ 10000) [[Fin 0]] [[Fin 1]] [1%Z] = Ok out /\
    get2 out 0 0 <> claimed_transition_entry [Fin 0] [Fin 1] 1%Z 0.
Proof.
  assert (Hb : transition_batch 1 1 [[Fin 0]] [[Fin 1]] [1%Z])
    by (repeat split; simpl; repeat constructor).
  eexists. split; [apply (TransitionModel_forward_ok (/ 10000) 1 1); exact Hb|].
  rewrite (out_entry (/ 10000) 1 1) by (auto; lia).
  unfold transition_entry, claimed_transition_entry. simpl nth.
  change (Z.of_nat 0 <? 1)%Z with true. cbv iota.
  cbn [tneg]. rewrite !sigmoid_fin.
  pose proof (sigmoid_range (- (1))) as Hs1. pose proof (sigmoid_range 1) as Hs2.
  set (p := / (1 + exp (- - (1)))) in *. set (q := / (1 + exp (- (1)))) in *.
  assert (Hp : p < / 2).
  { unfold p. apply Rinv_lt_contravar; [|].
    - pose proof (exp_pos (- - (1))). nra.
    - rewrite Ropp_involutive. pose proof (exp_increasing 0 1 ltac:(lra)) as H.
      rewrite exp_0 in H. lra. }
  assert (Hq : / 2 < q).
  { unfold q. apply Rinv_lt_contravar.
    - pose proof (exp_pos (- (1))). nra.
    - pose proof (exp_increasing (- (1)) 0 ltac:(lra)) as H.
      rewrite exp_0 in H. lra. }
  unfold log_clamped, clamp_min.
  assert (Hm : 0 < Rmax p (/ 10000) < / 2).
  { split.
    - apply Rlt_le_trans with p; [lra | apply Rmax_l].
    - apply Rmax_lub_lt; lra. }
  rewrite !tlog_pos by lra. cbn [tadd].
  rewrite !logsumexp_single_path.
  intros Heq. injection Heq as Heq.
  pose proof (ln_increasing (Rmax p (/ 10000)) q ltac:(lra) ltac:(lra)). lra.
Qed.




(** ** TransitionModel.forward: log-probabilities *)

Lemma tadd_fin_inv a c s :
  tadd a c = Fin s -> exists x y, a = Fin x /\ c = Fin y /\ s = x + y.
Proof.
  destruct a, c; simpl; try discriminate.
  intros [= <-]. eauto.
Qed.

Lemma texp_fin_nonneg a x : texp a = Fin x -> 0 <= x.
Proof.
  destruct a; simpl; try discriminate; intros [= <-]; [|lra].
  left. apply exp_pos.
Qed.

Lemma mass_nonneg l s : tsum (map texp l) = Fin s -> 0 <= s.
Proof.
  revert s; induction l as [|a l IH]; intros s H; simpl in H.
  - injection H as <-. lra.
  - apply tadd_fin_inv in H as (x & y & Hx & Hy & ->).
    apply texp_fin_nonneg in Hx. apply IH in Hy. lra.
Qed.

Lemma mass_one l s j :
  tsum (map texp l) = Fin s -> (j < length l)%nat ->
  exists x, texp (nth j l NaN) = Fin x /\ 0 <= x <= s.
Proof.
  revert s j; induction l as [|a l IH]; intros s j H Hj; simpl in *; [lia|].
  apply tadd_fin_inv in H as (x & y & Hx & Hy & ->).
  pose proof (texp_fin_nonneg _ _ Hx). pose proof (mass_nonneg _ _ Hy).
  destruct j as [|j].
  - exists x. split; [assumption|lra].
  - destruct (IH y j Hy ltac:(lia)) as (z & Hz & Hr).
    exists z. split; [assumption|lra].
Qed.

Lemma mass_two l s k :
  tsum (map texp l) = Fin s -> (S k < length l)%nat ->
  exists x y,
    texp (nth k l NaN) = Fin x /\ texp (nth (S k) l NaN) = Fin y /\
    0 <= x /\ 0 <= y /\ x + y <= s.
Proof.
  revert s k; induction l as [|a l IH]; intros s k H Hk; simpl in Hk; [lia|].
  cbn [map tsum fold_right] in H.
  apply tadd_fin_inv in H as (x & y & Hx & Hy & ->).
  pose proof (texp_fin_nonneg _ _ Hx). pose proof (mass_nonneg _ _ Hy).
  destruct k as [|k].
  - destruct (mass_one l y 0 Hy ltac:(lia)) as (z & Hz & Hr).
    exists x, z. cbn [nth]. repeat split; try assumption; lra.
  - destruct (IH y k Hy ltac:(lia)) as (u & v & Hu & Hv & ? & ? & ?).
    exists u, v. cbn [nth] in *. repeat split; try assumption; lra.
Qed.

(** Adding a log-probability to a term does not increase its mass. *)
Lemma texp_tadd_shrink a x q :
  texp a = Fin x -> q <= 0 ->
  exists y, texp (tadd a (Fin q)) = Fin y /\ 0 <= y <= x.
Proof.
  intros Ha Hq. destruct a as [p| | |]; simpl in *; try discriminate.
  - injection Ha as <-. exists (exp (p + q)). split; [reflexivity|].
    pose proof (exp_pos (p + q)). split; [lra|].
    destruct (Req_dec q 0) as [-> | Hne]; [rewrite Rplus_0_r; lra|].
    left. apply exp_increasing. lra.
  - injection Ha as <-. exists 0. split; [reflexivity|lra].
Qed.

Lemma ln_le_0 x : 0 < x <= 1 -> ln x <= 0.
Proof.
  intros [H0 H1]. destruct (Req_dec x 1) as [-> | Hne]; [rewrite ln_1; lra|].
  rewrite <- ln_1. left. apply ln_increasing; lra.
Qed.

Lemma logsumexp_two_logprob a c y1 y2 :
  texp a = Fin y1 -> texp c = Fin y2 -> 0 <= y1 -> 0 <= y2 -> y1 + y2 <= 1 ->
  is_logprob (logsumexp [a; c]).
Proof.
  intros Ha Hc H1 H2 H. unfold logsumexp, tsum. cbn [map fold_right].
  rewrite Ha, Hc. cbn [tadd].
  destruct (Req_dec (y1 + (y2 + 0)) 0) as [-> | Hne].
  - now rewrite tlog_zero.
  - rewrite tlog_pos by lra. simpl. apply ln_le_0. lra.
Qed.

(** C7.  When every row of the previous scaled log-alpha is normalized over
    the item's valid states and the transition logits are real numbers, every
    entry that [TransitionModel.forward] returns at a valid state is a
    log-probability: a real that is at most 0, or [-inf]. *)
Theorem TransitionModel_forward_logprob :
  forall eps b n las tv lens,
    0 <= eps <= 1 ->
    transition_batch b n las tv lens ->
    (forall i j, (i < b)%nat -> (j < n)%nat -> is_fin (get2 tv i j)) ->
    (forall i, (i < b)%nat -> normalized (nth i lens 0%Z) (nth i las [])) ->
    exists out,
      TransitionModel_forward eps las tv lens = Ok out /\
      forall i j, (i < b)%nat -> (j < n)%nat ->
        (Z.of_nat j < nth i lens 0%Z)%Z -> is_logprob (get2 out i j).
Proof.
  intros eps b n las tv lens He Hb Htv Hnorm.
  eexists. split; [exact (TransitionModel_forward_ok eps b n las tv lens Hb)|].
  intros i j Hi Hj Hlen. rewrite (out_entry eps b n) by auto.
  unfold transition_entry.
  destruct (Z.ltb_spec (Z.of_nat j) (nth i lens 0%Z)) as [_|]; [|lia].
  destruct (Hnorm i Hi) as (s & Hs & Hs1). unfold row_mass in Hs.
  set (row := nth i las []) in *. set (len := nth i lens 0%Z) in *.
  assert (Hrow : length row = n)
    by (apply (shape2_row b n); [apply Hb | exact Hi]).
  assert (Hfl : length (firstn (Z.to_nat len) row) = Nat.min (Z.to_nat len) n)
    by (rewrite length_firstn; lia).
  assert (Hnth : forall k, (k <= j)%nat ->
            nth k (firstn (Z.to_nat len) row) NaN = nth k row NaN).
  { intros k Hk. rewrite nth_firstn.
    destruct (Nat.ltb_spec k (Z.to_nat len)); [reflexivity|lia]. }
  (* the two logits of the entry are real *)
  assert (Hlogit : forall k, (k < n)%nat ->
            exists q, log_clamped eps (sigmoid (nth k (nth i tv []) NaN)) = Fin q
                      /\ q <= 0).
  { intros k Hk. specialize (Htv i k Hi Hk). unfold get2 in Htv.
    destruct (nth k (nth i tv []) NaN) as [v| | |]; try contradiction.
    rewrite sigmoid_fin. apply log_clamped_prob; [exact He|apply sigmoid_range]. }
  assert (Hstay : exists q,
            log_clamped eps (sigmoid (tneg (nth j (nth i tv []) NaN))) = Fin q
            /\ q <= 0).
  { specialize (Htv i j Hi Hj). unfold get2 in Htv.
    destruct (nth j (nth i tv []) NaN) as [v| | |]; try contradiction.
    cbn [tneg]. rewrite sigmoid_fin.
    apply log_clamped_prob; [exact He|apply sigmoid_range]. }
  destruct Hstay as (q1 & -> & Hq1).
  destruct j as [|k].
  - destruct (mass_one _ s 0 Hs ltac:(lia)) as (x & Hx & Hx0 & Hxs).
    rewrite Hnth in Hx by lia.
    destruct (texp_tadd_shrink _ x q1 Hx Hq1) as (y & Hy & Hy0 & Hyx).
    apply (logsumexp_two_logprob _ _ y 0); auto; lra.
  - destruct (mass_two _ s k Hs ltac:(lia)) as (x & y & Hx & Hy & Hx0 & Hy0 & Hxy).
    rewrite Hnth in Hx, Hy by lia.
    destruct (Hlogit k ltac:(lia)) as (q2 & -> & Hq2).
    destruct (texp_tadd_shrink _ y q1 Hy Hq1) as (y' & Hy' & ? & ?).
    destruct (texp_tadd_shrink _ x q2 Hx Hq2) as (x' & Hx' & ? & ?).
    apply (logsumexp_two_logprob _ _ y' x'); auto; lra.
Qed.

Lemma TransitionModel_forward_logprob_witness :
  0 <= / 10000 <= 1 /\
  exists out,
    TransitionModel_forward (/ 10000) [[Fin 0; NInf]] [[Fin 1; Fin (-1)]] [2%Z]
    = Ok out /\
    forall i j, (i < 1)%nat -> (j < 2)%nat ->
      (Z.of_nat j < nth i [2%Z] 0%Z)%Z -> is_logprob (get2 out i j).
Proof.
  split; [lra|].
  apply (TransitionModel_forward_logprob (/ 10000) 1 2).
  - lra.
  - exact transition_batch_example.
  - intros i j Hi Hj. destruct i as [|i]; [|lia].
    destruct j as [|[|j]]; simpl; auto; lia.
  - intros i Hi. destruct i as [|i]; [|lia].
    exists 1. split; [|lra]. unfold row_mass. simpl. rewrite exp_0.
    f_equal. lra.
Defined.

(** ** EmissionModel.forward *)

Lemma tdiv_fin x y : y <> 0 -> tdiv (Fin x) (Fin y) = Fin (x / y).
Proof. intros H. unfold tdiv. now rewrite Reqb_false. Qed.

Lemma normal_log_prob_standard :
  normal_log_prob (Fin 0) (Fin 0) (Fin 1) = Fin (- ln (sqrt (2 * PI))).
Proof.
  unfold normal_log_prob, tsub. cbn [tneg tadd tmul].
  rewrite tdiv_fin by lra. rewrite tlog_pos by lra. cbn [tneg tadd].
  f_equal. rewrite ln_1. field.
Qed.

Lemma ln_sqrt_2pi_pos : 0 < ln (sqrt (2 * PI)).
Proof.
  pose proof PI2_1 as H. rewrite <- ln_1. apply ln_increasing; [lra|].
  rewrite <- sqrt_1 at 1. apply sqrt_lt_1; lra.
Qed.

(** C8 fails on the code.  The (batch, states) mask is multiplied into the
    (batch, states, features) log-density tensor without a trailing axis, so
    broadcasting lines its axes up with (states, features).  For two items
    of lengths 2 and 1 over two states and two features (observation 0, means
    0, standard deviations 1): state 1 of item 1 is beyond that item's length
    and still gets a non-zero entry, and state 1 of item 0 is valid and does
    not get its full log density.  With three features the shapes do not
    broadcast and the call raises. *)
Theorem EmissionModel_forward_mask_misaligned :
  let x := [[Fin 0; Fin 0]; [Fin 0; Fin 0]] in
  let means := [[[Fin 0; Fin 0]; [Fin 0; Fin 0]]; [[Fin 0; Fin 0]; [Fin 0; Fin 0]]] in
  let stds := [[[Fin 1; Fin 1]; [Fin 1; Fin 1]]; [[Fin 1; Fin 1]; [Fin 1; Fin 1]]] in
  let lens := [2%Z; 1%Z] in
  (exists out,
     EmissionModel_forward x means stds lens = Ok out /\
     claimed_emission_entry (nth 1 x []) (nth 1 means []) (nth 1 stds [])
       (nth 1 lens 0%Z) 1 = Fin 0 /\
     get2 out 1 1 <> Fin 0 /\
     get2 out 0 1
     <> claimed_emission_entry (nth 0 x []) (nth 0 means []) (nth 0 stds [])
          (nth 0 lens 0%Z) 1) /\
  EmissionModel_forward [[Fin 0; Fin 0; Fin 0]]
    [[[Fin 0; Fin 0; Fin 0]; [Fin 0; Fin 0; Fin 0]]]
    [[[Fin 1; Fin 1; Fin 1]; [Fin 1; Fin 1; Fin 1]]] [2%Z]
  = Raise RuntimeError.
Proof.
  cbv zeta. pose proof ln_sqrt_2pi_pos as Hpos. split.
  - assert (Hm : sequence_mask [2%Z; 1%Z] None = [[true; true]; [true; false]])
      by reflexivity.
    unfold EmissionModel_forward, Normal_log_prob. rewrite Hm.
    cbn -[tdiv tlog tmul tsub tneg tadd Rmult Rplus claimed_emission_entry].
    change (tsub (tsub (tdiv (tneg (tmul (tsub (Fin 0) (Fin 0)) (tsub (Fin 0) (Fin 0))))
                   (tmul (Fin 2) (tmul (Fin 1) (Fin 1)))) (tlog (Fin 1)))
             (Fin (ln (sqrt (2 * PI)))))
      with (normal_log_prob (Fin 0) (Fin 0) (Fin 1)).
    rewrite normal_log_prob_standard.
    rewrite !(Rltb_true 0 1) by lra. cbn [andb negb bind].
    eexists. split; [reflexivity|]. split; [reflexivity|]. split.
    + cbn. intros [= H]. lra.
    + unfold claimed_emission_entry.
      cbn -[normal_log_prob]. rewrite normal_log_prob_standard.
      cbn. intros [= H]. lra.
  - assert (Hm : sequence_mask [2%Z] None = [[true; true]]) by reflexivity.
    unfold EmissionModel_forward, Normal_log_prob. rewrite Hm.
    cbn -[tdiv tlog tmul tsub tneg tadd Rmult Rplus].
    rewrite !(Rltb_true 0 1) by lra. reflexivity.
Qed.

(** ** The absorption state *)

Lemma tsum_zeros l : Forall (fun v => v = Fin 0) l -> tsum l = Fin 0.
Proof.
  induction 1 as [|v l -> _ IH]; [reflexivity|].
  unfold tsum in *. cbn [fold_right]. rewrite IH. cbn [tadd].
  f_equal. lra.
Qed.

Lemma logsumexp_all_neg_inf l : Forall (fun v => v = NInf) l -> logsumexp l = NInf.
Proof.
  intros H. unfold logsumexp. rewrite tsum_zeros; [apply tlog_zero|].
  apply Forall_map. eapply Forall_impl; [|exact H].
  intros v ->. reflexivity.
Qed.

Lemma tadd_neg_inf_r a : is_logprob a -> tadd a NInf = NInf.
Proof. destruct a; simpl; tauto. Qed.

Lemma ew1_inv f (x y z : T1) :
  ew1 f x y = Ok z -> length x = length y -> z = zip_with f x y.
Proof.
  intros H Hl. rewrite ew1_same in H by exact Hl. now injection H as <-.
Qed.

Lemma tadd_real_neg_inf a : real_or_neg_inf a -> tadd a NInf = NInf.
Proof. destruct a; simpl; tauto. Qed.

Lemma tadd_neg_inf_not_fin a : ~ is_fin (tadd a NInf).
Proof. destruct a; simpl; tauto. Qed.

(** C9.  When the combined absorption-state tensor [final_log_c] is [-inf]
    at every state of item [b], [get_absorption_state_scaling_factor]
    returns normally and its entry for that item is [-inf]; added to the
    item's sum of [log_c], a real or [-inf], it makes the log-probability
    [-inf], and whatever that sum is, the log-probability is not a
    real. *)
Theorem absorption_all_neg_inf :
  forall eps self mels_len las inputs_len final b,
    absorption_final_log_c eps self mels_len las inputs_len = Ok final ->
    (b < length final)%nat ->
    Forall (fun v => v = NInf) (nth b final []) ->
    exists r,
      get_absorption_state_scaling_factor eps self mels_len las inputs_len = Ok r /\
      length r = length final /\
      nth b r NaN = NInf /\
      forall log_c log_probs,
        length log_c = length r ->
        log_probs_of log_c r = Ok log_probs ->
        (real_or_neg_inf (tsum (nth b log_c [])) ->
         nth b log_probs NaN = NInf) /\
        ~ is_fin (nth b log_probs NaN).
Proof.
  intros eps self mels_len las inputs_len final b Hf Hb Hall.
  exists (map logsumexp final).
  assert (Hr : nth b (map logsumexp final) NaN = NInf).
  { rewrite (map_nth_lt logsumexp _ _ []) by exact Hb.
    now apply logsumexp_all_neg_inf. }
  split; [|split; [|split]].
  - unfold get_absorption_state_scaling_factor. now rewrite Hf.
  - apply length_map.
  - exact Hr.
  - intros log_c log_probs Hl Hlp. unfold log_probs_of in Hlp.
    apply ew1_inv in Hlp; [|now rewrite length_map].
    subst log_probs. rewrite length_map in Hl.
    rewrite (zip_with_nth tadd NaN NaN NaN)
      by (rewrite !length_map; lia).
    rewrite Hr, (map_nth_lt tsum _ _ []) by lia.
    split; [apply tadd_real_neg_inf|apply tadd_neg_inf_not_fin].
Qed.

Lemma absorption_all_neg_inf_witness :
  absorption_final_log_c (/ 10000) absorption_example [1%Z] [[[Fin 0]]] [0%Z]
  = Ok [[NInf]] /\
  exists r,
    get_absorption_state_scaling_factor (/ 10000) absorption_example [1%Z]
      [[[Fin 0]]] [0%Z] = Ok r /\
    length r = length [[NInf]] /\
    nth 0 r NaN = NInf /\
    forall log_c log_probs,
      length log_c = length r ->
      log_probs_of log_c r = Ok log_probs ->
      (real_or_neg_inf (tsum (nth 0 log_c [])) ->
       nth 0 log_probs NaN = NInf) /\
      ~ is_fin (nth 0 log_probs NaN).
Proof.
  split; [reflexivity|].
  apply (absorption_all_neg_inf (/ 10000) absorption_example [1%Z] [[[Fin 0]]]
           [0%Z] [[NInf]] 0%nat).
  - reflexivity.
  - simpl. lia.
  - repeat constructor.
Defined.

(** ** HMM.forward *)

Lemma call_mask_lengths_three_arguments self a1 a2 a3 :
  call_mask_lengths self [a1; a2; a3] = Raise TypeError.
Proof. reflexivity. Qed.

(** C1 fails on the code.  [forward] never returns a log-probability: the
    call of [_mask_lengths] after the loop passes three arguments to a
    method of two, and with encoder outputs of three axes the unpacking of
    their shape into two names raises before that. *)
Theorem HMM_forward_raises :
  (forall eps Enc enc_shape frame_channels ar_order memory_rnn_dim
          prenet memory_rnn output_net self inputs inputs_len mels mel_lens,
      exists e,
        forward eps Enc enc_shape frame_channels ar_order memory_rnn_dim
          prenet memory_rnn output_net self inputs inputs_len mels mel_lens
        = Raise e) /\
  (forall eps frame_channels ar_order memory_rnn_dim prenet memory_rnn
          output_net self,
      forward eps T3 shape3 frame_channels ar_order memory_rnn_dim
        prenet memory_rnn output_net self
        [[[Fin 0]]] [1%Z] [[[Fin 1]]] [1%Z]
      = Raise ValueError).
Proof.
  split.
  - intros eps Enc enc_shape frame_channels ar_order memory_rnn_dim
      prenet memory_rnn output_net self inputs inputs_len mels mel_lens.
    unfold forward.
    destruct (unpack2 (enc_shape inputs)) as [[batch_size n]|]; cbn [bind];
      [|eexists; reflexivity].
    destruct (_initialize_log_state_priors _) as [priors|]; cbn [bind];
      [|eexists; reflexivity].
    destruct (_initialize_forward_algorithm_variables _ _) as [[log_c self']|];
      cbn [bind]; [|eexists; reflexivity].
    destruct (_add_go_token _ _ _) as [ar_inputs|]; cbn [bind];
      [|eexists; reflexivity].
    cbn [_init_lstm_states].
    destruct (forward_loop _ _ _ _ _ _ _ _ _ _ _ _ _)
      as [[[[h c] log_c'] self'']|]; cbn [bind]; eexists; reflexivity.
  - reflexivity.
Qed.

Lemma tmul_neg_inf_zero : tmul NInf (Fin 0) = NaN.
Proof.
  unfold tmul, inf_times. now rewrite Reqb_true.
Qed.

Lemma tmul_fin_zero x : tmul (Fin x) (Fin 0) = Fin 0.
Proof.
  unfold tmul. f_equal. lra.
Qed.

(** C2 fails on the code.  Two items of 2 and 1 valid frames over two
    states, the second item with one valid state, so that its state 1 is
    [-inf] at every frame: [_mask_lengths] multiplies the entry of frame 1,
    state 1 by 0 and leaves [nan] there, not zero (its [log_c] entry, a
    real, does become zero).  In [forward] the masking step is not reached
    as written: the call passes three arguments and raises. *)
Theorem HMM_mask_lengths_leaves_nan :
  let log_c := [[Fin (-1); Fin (-1)]; [Fin (-1); Fin (-1)]] in
  (exists log_c' self',
     _mask_lengths masking_example [2%Z; 1%Z] log_c = Ok (log_c', self') /\
     get2 log_c' 1 1 = Fin 0 /\
     get3 (self_log_alpha_scaled self') 1 1 0 = Fin 0 /\
     get3 (self_log_alpha_scaled self') 1 1 1 = NaN) /\
  (forall mels,
     call_mask_lengths masking_example [VT3 mels; VLens [2%Z; 1%Z]; VT2 log_c]
     = Raise TypeError).
Proof.
  cbv zeta. split; [|intros mels; apply call_mask_lengths_three_arguments].
  assert (Hm : sequence_mask [2%Z; 1%Z] None = [[true; true]; [true; false]])
    by reflexivity.
  unfold _mask_lengths. rewrite Hm. cbn -[tmul].
  eexists. eexists. split; [reflexivity|].
  cbn -[tmul]. rewrite !tmul_fin_zero, tmul_neg_inf_zero. auto.
Qed.

(** ** HMM.sample *)

Section SampleFacts.

Variables (ar_order post_prenet_rnn_dim : nat).
Variable max_sampling_time : Z.
Variables (predict_means deterministic_transition : bool).
Variable duration_quantile_threshold : tval.
Variable prenet : T3 -> T3.
Variable memory_rnn : T2 -> T2 * T2 -> T2 * T2.
Variable decoder : T2 -> T3 -> T2 * T2 * T2.
Variable normal_sample : nat -> T2 -> T2 -> T2.
Variable multinomial : nat -> T1 -> Z.

Variables (inputs : T3) (sampling_temp : tval) (T : Z) (N : nat).
Variable prenet_input : T3.





End SampleFacts.



(** In this revision the first pass reads [ar_mel_inputs] before any
    assignment to it. *)
Lemma HMM_sample_first_pass :
  forall ar_order post_prenet_rnn_dim max_sampling_time predict_means
         deterministic_transition duration_quantile_threshold prenet
         memory_rnn decoder normal_sample multinomial inputs sampling_temp T
         fuel z_t,
    select1 inputs 0 = Ok z_t ->
    sample ar_order post_prenet_rnn_dim max_sampling_time predict_means
      deterministic_transition duration_quantile_threshold prenet
      memory_rnn decoder normal_sample multinomial (S fuel) inputs
      sampling_temp T
    = Some (Raise UnboundLocalError).
Proof.
  intros. unfold sample. cbn [sample_loop]. unfold sample_body, sample_init.
  cbn [_init_lstm_states st_h_memory st_c_memory st_current_z_number
       st_ar_mel_inputs].
  destruct (memory_rnn _ _) as [h c]. rewrite H. cbn [bind].
  destruct (decoder _ _) as [[mean std] tv]. reflexivity.
Qed.

(** ** AlignTTS.format_durations *)

Lemma Int_part_ge_1 x : 1 <= x -> (1 <= Int_part x)%Z.
Proof.
  intros H. destruct (base_Int_part x) as [_ Hlt].
  assert (H0 : IZR 0 < IZR (Int_part x)) by lra.
  apply lt_IZR in H0. lia.
Qed.

Lemma Rround_ge_Int_part x : (Int_part x <= Rround x)%Z.
Proof.
  unfold Rround. destruct (Rltb _ _); [lia|].
  destruct (Rltb _ _); [lia|]. destruct (Z.even _); lia.
Qed.

Lemma Rround_ge_1 x : 1 <= x -> (1 <= Rround x)%Z.
Proof.
  intros H. pose proof (Int_part_ge_1 x H). pose proof (Rround_ge_Int_part x). lia.
Qed.

Lemma Int_part_1 : Int_part 1 = 1%Z.
Proof.
  destruct (base_Int_part 1) as [Hle Hlt].
  assert (H0 : IZR 0 < IZR (Int_part 1)) by lra.
  assert (H1 : IZR (Int_part 1) < IZR 2) by lra.
  apply lt_IZR in H0, H1. lia.
Qed.

Lemma Rround_1 : Rround 1 = 1%Z.
Proof.
  unfold Rround. rewrite Int_part_1. rewrite Rltb_true by lra. reflexivity.
Qed.

Lemma Rleb_true x y : x <= y -> Rleb x y = true.
Proof. intros H. unfold Rleb. destruct (Rle_dec x y); [reflexivity|contradiction]. Qed.

Lemma Rleb_false x y : ~ x <= y -> Rleb x y = false.
Proof. intros H. unfold Rleb. destruct (Rle_dec x y); [contradiction|reflexivity]. Qed.

Lemma float_overflow_gt_1 : 1 < float_overflow.
Proof. unfold float_overflow. apply IZR_lt. reflexivity. Qed.

Lemma float_underflow_pos : 0 < float_underflow.
Proof.
  unfold float_underflow. apply Rinv_0_lt_compat, IZR_lt. reflexivity.
Qed.

Lemma float_underflow_lt_1 : float_underflow < 1.
Proof.
  unfold float_underflow. rewrite <- Rinv_1.
  apply Rinv_lt_contravar; [|apply IZR_lt; reflexivity].
  rewrite Rmult_1_l. apply IZR_lt. reflexivity.
Qed.

(** Inside the range the result is the exact one, or 0 for an exact result
    of magnitude up to [float_underflow]. *)
Lemma fl_fin x :
  Rabs x < float_overflow ->
  exists y, fl x = Fin y /\
            ((y = x /\ float_underflow < Rabs x) \/
             (y = 0 /\ Rabs x <= float_underflow)).
Proof.
  intros H. unfold fl.
  rewrite Rleb_false
    by (intros Hc; pose proof (Rle_abs x); lra).
  rewrite Rleb_false
    by (intros Hc; pose proof (Rle_abs (- x)); rewrite Rabs_Ropp in *; lra).
  destruct (Rle_dec (Rabs x) float_underflow) as [Hu|Hu].
  - rewrite Rleb_true by exact Hu. exists 0. auto.
  - rewrite Rleb_false by exact Hu. exists x. split; [reflexivity|].
    left. split; [reflexivity|lra].
Qed.

Lemma fl_bound x bound :
  Rabs x <= bound -> bound < float_overflow ->
  exists y, fl x = Fin y /\ Rabs y <= bound /\
            (y = x \/ (y = 0 /\ Rabs x <= float_underflow)).
Proof.
  intros Hx Hb. destruct (fl_fin x ltac:(lra)) as (y & Hy & Hc).
  exists y. split; [exact Hy|].
  destruct Hc as [[-> _]|[-> Hu]]; (split; [|auto]); [exact Hx|].
  rewrite Rabs_R0. pose proof (Rabs_pos x). lra.
Qed.

Lemma fl_id x :
  float_underflow < Rabs x -> Rabs x < float_overflow -> fl x = Fin x.
Proof.
  intros Hu Ho. destruct (fl_fin x Ho) as (y & -> & [[-> _]|[_ Hc]]);
    [reflexivity|lra].
Qed.

Lemma fl_0 : fl 0 = Fin 0.
Proof.
  destruct (fl_fin 0) as (y & -> & [[-> _]|[-> _]]); try reflexivity.
  rewrite Rabs_R0. pose proof float_overflow_gt_1. lra.
Qed.

(** A result that is not negative stays so. *)
Lemma fl_nonneg x bound :
  0 <= x <= bound -> bound < float_overflow ->
  exists y, fl x = Fin y /\ 0 <= y <= bound /\ (x = 0 -> y = 0).
Proof.
  intros Hx Hb. destruct (fl_fin x) as (y & Hy & Hc);
    [rewrite Rabs_pos_eq; lra|].
  exists y. split; [exact Hy|].
  destruct Hc as [[-> _]|[-> _]]; (split; [lra|auto]).
Qed.

Lemma fl_IZR k :
  Rabs (IZR k) < float_overflow -> fl (IZR k) = Fin (IZR k).
Proof.
  intros H. destruct (Z.eq_dec k 0) as [->|Hk]; [apply fl_0|].
  apply fl_id; [|exact H].
  pose proof float_underflow_lt_1.
  assert (H1 : 1 <= Rabs (IZR k)).
  { rewrite <- abs_IZR. apply IZR_le. lia. }
  lra.
Qed.

Lemma fl_overflow x : float_overflow <= x -> fl x = PInf.
Proof. intros H. unfold fl. now rewrite Rleb_true. Qed.

Lemma round_clamp_whole x :
  whole_ge_1 (tround (if tlt (Fin x) (Fin 1) then Fin 1 else Fin x)).
Proof.
  cbn [tlt]. destruct (Rlt_dec x 1) as [Hlt|Hge].
  - rewrite Rltb_true by exact Hlt. cbn [tround]. rewrite Rround_1.
    exists 1%Z. split; [reflexivity|lia].
  - rewrite Rltb_false by exact Hge. cbn [tround].
    eexists. split; [reflexivity|]. apply Rround_ge_1. lra.
Qed.

Lemma Rabs_minus_1 e x : 0 <= e -> e <= x -> Rabs (e - 1) <= Rmax x 1.
Proof.
  intros H0 Hx. pose proof (Rmax_l x 1). pose proof (Rmax_r x 1).
  apply Rabs_le. lra.
Qed.

(** Inside the range an entry is a whole number that is at least 1. *)
Lemma duration_entry_whole length_scale v m :
  in_float_range length_scale v m ->
  whole_ge_1 (duration_entry length_scale v m).
Proof.
  destruct length_scale as [l| | |], v as [a| | |], m as [c| | |];
    try contradiction.
  intros (He & Hm & Hl). unfold duration_entry.
  pose proof (exp_pos a) as Hpos. pose proof float_overflow_gt_1 as Hov.
  pose proof (Rmax_l (exp a) 1) as Hmax. pose proof (Rmax_r (exp a) 1) as Hmax1.
  cbn [texp rng].
  destruct (fl_bound (exp a) (exp a)) as (e & -> & He' & Hec);
    [rewrite Rabs_pos_eq; lra|exact He|].
  assert (He0 : 0 <= e <= exp a)
    by (destruct Hec as [->|[-> _]]; lra).
  cbn [tsub tneg tadd rng].
  destruct (fl_bound (e + - (1)) (Rmax (exp a) 1)) as (e1 & -> & He1 & _);
    [apply (Rabs_minus_1 e (exp a)); lra|apply Rmax_lub_lt; lra|].
  cbn [tmul rng].
  destruct (fl_bound (e1 * c) (Rmax (exp a) 1 * Rabs c)) as (p & -> & Hp & _);
    [rewrite Rabs_mult; apply Rmult_le_compat_r; [apply Rabs_pos|exact He1]
    |exact Hm|].
  cbn [tmul rng].
  destruct (fl_bound (p * l) (Rmax (exp a) 1 * Rabs c * Rabs l))
    as (raw & -> & _ & _);
    [rewrite Rabs_mult; apply Rmult_le_compat_r; [apply Rabs_pos|exact Hp]
    |exact Hl|].
  apply round_clamp_whole.
Qed.

(** Inside the range of the exponential, a masked entry is 1. *)
Lemma duration_entry_masked length_scale v :
  in_float_range length_scale v (Fin 0) ->
  duration_entry length_scale v (Fin 0) = Fin 1.
Proof.
  destruct length_scale as [l| | |], v as [a| | |]; try contradiction.
  intros (He & _ & _). unfold duration_entry.
  pose proof (exp_pos a) as Hpos. pose proof float_overflow_gt_1 as Hov.
  pose proof (Rmax_l (exp a) 1) as Hmax. pose proof (Rmax_r (exp a) 1) as Hmax1.
  cbn [texp rng].
  destruct (fl_bound (exp a) (exp a)) as (e & -> & He' & Hec);
    [rewrite Rabs_pos_eq; lra|exact He|].
  assert (He0 : 0 <= e <= exp a)
    by (destruct Hec as [->|[-> _]]; lra).
  cbn [tsub tneg tadd rng].
  destruct (fl_bound (e + - (1)) (Rmax (exp a) 1)) as (e1 & -> & He1 & _);
    [apply (Rabs_minus_1 e (exp a)); lra|apply Rmax_lub_lt; lra|].
  cbn [tmul rng]. rewrite Rmult_0_r, fl_0. cbn [tmul rng].
  rewrite Rmult_0_l, fl_0. cbn [tlt]. rewrite Rltb_true by lra.
  cbn [tround]. now rewrite Rround_1.
Qed.

Lemma tsum_whole l :
  Forall whole_ge_1 l -> exists s, tsum l = Fin s /\ INR (length l) <= s.
Proof.
  induction 1 as [|a l (k & -> & Hk) _ (s & Hs & Hle)].
  - exists 0. split; [reflexivity|simpl; lra].
  - exists (IZR k + s). unfold tsum in *. cbn [fold_right]. rewrite Hs.
    split; [reflexivity|]. rewrite length_cons, S_INR.
    apply IZR_le in Hk. lra.
Qed.

(** The float32 sum of whole numbers that are at least 1 is at least their
    count, or [inf]. *)
Lemma rng_tsum_whole l :
  Forall whole_ge_1 l ->
  tge (rng (tsum l)) (Fin (INR (length l))) = true.
Proof.
  intros H. destruct (tsum_whole l H) as (s & -> & Hle). cbn [rng].
  destruct (Rle_dec float_overflow s) as [Ho|Ho];
    [now rewrite fl_overflow|].
  pose proof (pos_INR (length l)) as Hn.
  destruct (fl_fin s) as (y & -> & [[-> _]|[-> Hu]]).
  - rewrite Rabs_pos_eq; lra.
  - cbn [tge tlt]. now rewrite Rltb_false by lra.
  - cbn [tge tlt]. rewrite Rltb_false; [reflexivity|].
    rewrite Rabs_pos_eq in Hu by lra.
    destruct l as [|a l]; [simpl; lra|].
    rewrite length_cons, S_INR in *. pose proof (pos_INR (length l)).
    pose proof float_underflow_lt_1. lra.
Qed.

Lemma zip_with_ext {A B C : Type} (g g' : A -> B -> C) xs ys :
  (forall a c, g a c = g' a c) -> zip_with g xs ys = zip_with g' xs ys.
Proof.
  intros H. revert ys; induction xs as [|x xs IH]; intros [|y ys]; simpl; auto.
  now rewrite H, IH.
Qed.

Lemma map_zip_with {A B C D : Type} (f : C -> D) (g : A -> B -> C) xs ys :
  map f (zip_with g xs ys) = zip_with (fun a c => f (g a c)) xs ys.
Proof.
  revert ys; induction xs as [|x xs IH]; intros [|y ys]; simpl; auto.
  now rewrite IH.
Qed.

Lemma zip_with_map_l {A A' B C : Type} (h : A' -> A) (g : A -> B -> C) xs ys :
  zip_with g (map h xs) ys = zip_with (fun a c => g (h a) c) xs ys.
Proof.
  revert ys; induction xs as [|x xs IH]; intros [|y ys]; simpl; auto.
  now rewrite IH.
Qed.

Lemma Forall_zip_with {A B C : Type} (P : A -> Prop) (Q : B -> Prop)
  (R : C -> Prop) (g : A -> B -> C) xs ys :
  Forall P xs -> Forall Q ys -> (forall a c, P a -> Q c -> R (g a c)) ->
  Forall R (zip_with g xs ys).
Proof.
  intros Hx. revert ys. induction Hx as [|x xs Hp _ IH]; intros ys Hy H.
  - constructor.
  - destruct Hy as [|y ys Hq Hy]; simpl; constructor; auto.
Qed.

Lemma map3d_zip3 {A B C D : Type} (f : C -> D) (g : A -> B -> C) x y :
  map3d f (zip3 g x y) = zip3 (fun a c => f (g a c)) x y.
Proof.
  unfold map3d, map2d, zip3. rewrite map_zip_with. apply zip_with_ext.
  intros a c. rewrite map_zip_with. apply zip_with_ext.
  intros a' c'. apply map_zip_with.
Qed.

Lemma zip3_map3d_l {A A' B C : Type} (h : A' -> A) (g : A -> B -> C) x y :
  zip3 g (map3d h x) y = zip3 (fun a c => g (h a) c) x y.
Proof.
  unfold map3d, map2d, zip3. rewrite zip_with_map_l. apply zip_with_ext.
  intros a c. rewrite zip_with_map_l. apply zip_with_ext.
  intros a' c'. apply zip_with_map_l.
Qed.

Lemma shape3p_row {A : Type} b c n (x : list (list (list A))) i :
  shape3p b c n x -> (i < b)%nat -> shape2 c n (nth i x []).
Proof.
  intros [Hb Hn] Hi. rewrite Forall_forall in Hn. apply Hn, nth_In. lia.
Qed.

Lemma shape3p_map3d {A B : Type} (f : A -> B) b c n (x : list (list (list A))) :
  shape3p b c n x -> shape3p b c n (map3d f x).
Proof.
  intros [Hb Hn]. split; unfold map3d.
  - now rewrite length_map.
  - apply Forall_map. eapply Forall_impl; [|exact Hn].
    intros r Hr. now apply shape2_map2d.
Qed.

Lemma shape3p_zip3 {A B C : Type} (g : A -> B -> C) b c n x y :
  shape3p b c n x -> shape3p b c n y -> shape3p b c n (zip3 g x y).
Proof.
  intros [Hbx Hx] [Hby Hy]. split; unfold zip3.
  - rewrite zip_with_length; congruence.
  - apply (Forall_zip_with (shape2 c n) (shape2 c n)); auto.
    intros a a' Ha Ha'. now apply shape2_zip_with.
Qed.

Lemma zip3_get3 (g : tval -> tval -> tval) b c n x y i k j :
  shape3p b c n x -> shape3p b c n y ->
  (i < b)%nat -> (k < c)%nat -> (j < n)%nat ->
  get3 (zip3 g x y) i k j = g (get3 x i k j) (get3 y i k j).
Proof.
  intros Hx Hy Hi Hk Hj. unfold get3, zip3.
  rewrite (zip_with_nth _ [] [] [])
    by (destruct Hx as [Hbx _], Hy as [Hby _]; lia).
  apply (zip_with2_nth g NaN NaN NaN c n); auto; eapply shape3p_row; eauto.
Qed.

Lemma ew3_same f b c n (x y : T3) :
  shape3p b c n x -> shape3p b c n y -> ew3 f x y = Ok (zip3 f x y).
Proof.
  intros Hx Hy. unfold ew3, zip3.
  assert (Hl : length x = length y) by (destruct Hx, Hy; congruence).
  rewrite bcast_same by exact Hl.
  apply zipM_ok, (Forall2_nth_intro _ [] []); [exact Hl|].
  intros i Hi. apply (ew2_same f c n); eapply shape3p_row; eauto;
    destruct Hx as [Hbx _]; lia.
Qed.

(** A tensor with one item broadcasts along the batch axis. *)
Lemma bcast_single {A B C : Type} (f : A -> B -> py C) xs y :
  bcast f xs [y] = bcast f xs (repeat y (length xs)).
Proof.
  rewrite (bcast_same f xs (repeat y (length xs))) by now rewrite repeat_length.
  unfold bcast, bsize. cbn [length].
  destruct (Nat.eqb_spec (length xs) 1) as [H1|H1].
  - cbn [bind]. rewrite expand_same by reflexivity. cbn [bind].
    rewrite H1. reflexivity.
  - cbn [Nat.eqb bind]. rewrite expand_same by reflexivity. cbn [bind].
    unfold expand. cbn [length]. 
    destruct (Nat.eqb_spec 1 (length xs)) as [H2|H2]; [lia|reflexivity].
Qed.

Lemma format_durations_ok length_scale b t (o_dr_log x_mask : T3) :
  shape3p b 1 t o_dr_log -> shape3p b 1 t x_mask ->
  format_durations length_scale o_dr_log x_mask
  = Ok (zip3 (duration_entry length_scale) o_dr_log x_mask).
Proof.
  intros Ho Hm. unfold format_durations.
  rewrite (ew3_same _ b 1 t) by (try apply shape3p_map3d; assumption).
  cbn [bind]. rewrite !map3d_zip3, zip3_map3d_l. reflexivity.
Qed.

Lemma all_fin3_get3 b c n (x : T3) i k j :
  all_fin3 x -> shape3p b c n x ->
  (i < b)%nat -> (k < c)%nat -> (j < n)%nat -> is_fin (get3 x i k j).
Proof.
  intros Hf Hs Hi Hk Hj. unfold get3, all_fin3 in *.
  pose proof (shape3p_row b c n x i Hs Hi) as Hrow.
  destruct Hs as [Hb _].
  rewrite Forall_forall in Hf.
  assert (H1 : Forall (Forall is_fin) (nth i x [])) by (apply Hf, nth_In; lia).
  rewrite Forall_forall in H1.
  assert (H2 : Forall is_fin (nth k (nth i x []) []))
    by (apply H1, nth_In; destruct Hrow as [-> _]; exact Hk).
  rewrite Forall_forall in H2. apply H2, nth_In.
  now rewrite (shape2_row c n (nth i x [])).
Qed.

Lemma inference_x_mask_row t :
  inference_x_mask t
  = [[map of_bool (map (fun i => (Z.of_nat i <? Z.of_nat t)%Z) (seq 0 t))]].
Proof.
  unfold inference_x_mask, unsqueeze1, map2d, sequence_mask. cbn [map].
  now rewrite Nat2Z.id.
Qed.

(** Every entry of the mask of [inference] is 1. *)
Lemma inference_mask_entry t j :
  (j < t)%nat ->
  nth j (map of_bool (map (fun i => (Z.of_nat i <? Z.of_nat t)%Z) (seq 0 t))) NaN
  = Fin 1.
Proof.
  intros Hj. rewrite map_map.
  rewrite (map_nth_lt _ _ _ 0%nat) by (rewrite length_seq; exact Hj).
  rewrite seq_nth by exact Hj.
  assert (H : (Z.of_nat (0 + j) <? Z.of_nat t)%Z = true)
    by (apply Z.ltb_lt; lia).
  now rewrite H.
Qed.

Lemma exp_INR_ge n : 2 ^ n <= exp (INR n).
Proof.
  induction n as [|n IH]; [simpl; rewrite exp_0; lra|].
  rewrite S_INR, exp_plus. cbn [pow].
  pose proof (exp_ineq1 1 ltac:(lra)) as H1.
  pose proof (pow_lt 2 n ltac:(lra)) as H2.
  rewrite (Rmult_comm 2). apply Rmult_le_compat; lra.
Qed.

(** The exponential of 128 is beyond the range of float32. *)
Lemma exp_128_overflow : float_overflow <= exp 128.
Proof.
  pose proof (exp_INR_ge 128) as H.
  rewrite INR_IZR_INZ in H. change (Z.of_nat 128) with 128%Z in H.
  rewrite pow_IZR in H.
  assert (Hlt : float_overflow < IZR (2 ^ Z.of_nat 128)).
  { unfold float_overflow. apply IZR_lt. reflexivity. }
  lra.
Qed.

(** C10 (as stated) fails: the exponential of the real log-duration 128
    overflows float32, and [format_durations] returns [inf] at a position
    that the mask keeps and [nan] at one that it masks; neither is a whole
    number. *)
Lemma format_durations_overflow :
  format_durations (Fin 1) [[[Fin 128; Fin 128]]] [[[Fin 1; Fin 0]]]
  = Ok [[[PInf; NaN]]] /\
  ~ whole_ge_1 PInf /\ ~ whole_ge_1 NaN.
Proof.
  split; [|split; intros (k & Hk & _); discriminate].
  unfold format_durations. cbn -[rng texp tsub tmul tlt tround].
  cbn [texp rng]. rewrite (fl_overflow _ exp_128_overflow).
  cbn [tsub tneg tadd rng tmul]. unfold inf_times.
  rewrite (Reqb_false 1 0) by lra. rewrite (Rltb_true 0 1) by lra.
  rewrite (Reqb_true 0 0) by reflexivity.
  cbn [Bool.eqb rng tmul]. unfold inf_times.
  rewrite (Reqb_false 1 0) by lra. rewrite (Rltb_true 0 1) by lra.
  cbn [Bool.eqb rng tmul tlt tround]. reflexivity.
Qed.

(** C10 (as amended).  For log-durations of shape (B, 1, T) and a mask of
    the same shape, at whose every entry no step of [format_durations]
    leaves the range of float32, [format_durations] returns a tensor of
    that shape whose every entry is a whole number that is at least 1, and
    exactly 1 where the mask is 0; and the lengths that [inference]
    derives from it, for at most 2 ^ 24 input positions (the counts that
    float32 holds exactly), are at least the number [T] of input
    positions, a sum beyond the range being [inf]. *)
Theorem format_durations_at_least_one :
  forall length_scale b t o_dr_log,
    shape3p b 1 t o_dr_log ->
    (forall x_mask,
        shape3p b 1 t x_mask ->
        (forall i j, (i < b)%nat -> (j < t)%nat ->
           in_float_range length_scale
             (get3 o_dr_log i 0 j) (get3 x_mask i 0 j)) ->
        exists o_dr,
          format_durations length_scale o_dr_log x_mask = Ok o_dr /\
          shape3p b 1 t o_dr /\
          (forall i j, (i < b)%nat -> (j < t)%nat ->
             whole_ge_1 (get3 o_dr i 0 j)) /\
          forall i j, (i < b)%nat -> (j < t)%nat ->
            get3 x_mask i 0 j = Fin 0 -> get3 o_dr i 0 j = Fin 1) /\
    ((Z.of_nat t <= 2 ^ 24)%Z ->
     (forall i j, (i < b)%nat -> (j < t)%nat ->
        in_float_range length_scale (get3 o_dr_log i 0 j) (Fin 1)) ->
     exists y_lengths,
       inference_y_lengths length_scale t o_dr_log = Ok y_lengths /\
       length y_lengths = b /\
       forall i, (i < b)%nat ->
         tge (nth i y_lengths NaN) (Fin (INR t)) = true).
Proof.
  intros length_scale b t o_dr_log Ho.
  assert (Hpart : forall x_mask,
             shape3p b 1 t x_mask ->
             (forall i j, (i < b)%nat -> (j < t)%nat ->
                in_float_range length_scale
                  (get3 o_dr_log i 0 j) (get3 x_mask i 0 j)) ->
             forall i j, (i < b)%nat -> (j < t)%nat ->
               whole_ge_1
                 (get3 (zip3 (duration_entry length_scale) o_dr_log x_mask)
                    i 0 j)).
  { intros x_mask Hm Hr i j Hi Hj.
    rewrite (zip3_get3 _ b 1 t) by (auto; lia).
    apply duration_entry_whole, Hr; assumption. }
  split.
  - intros x_mask Hm Hr. eexists. split; [|split; [|split]].
    + apply (format_durations_ok length_scale b t); assumption.
    + now apply shape3p_zip3.
    + now apply Hpart.
    + intros i j Hi Hj Hz.
      rewrite (zip3_get3 _ b 1 t) by (auto; lia). rewrite Hz.
      apply duration_entry_masked. rewrite <- Hz. now apply Hr.
  - intros _ Hr.
    unfold inference_y_lengths. rewrite inference_x_mask_row.
    set (row := map of_bool (map (fun i => (Z.of_nat i <? Z.of_nat t)%Z) (seq 0 t))).
    assert (Hrow : length row = t)
      by (unfold row; now rewrite !length_map, length_seq).
    assert (Hm : shape3p b 1 t (repeat [row] b)).
    { split; [apply repeat_length|]. apply Forall_forall.
      intros m Hin. apply repeat_spec in Hin. subst m.
      split; [reflexivity|]. repeat constructor. exact Hrow. }
    assert (Hone : forall i j, (i < b)%nat -> (j < t)%nat ->
               get3 (repeat [row] b) i 0 j = Fin 1).
    { intros i j Hi Hj. unfold get3. rewrite nth_repeat_lt by exact Hi.
      cbn [nth]. now apply inference_mask_entry. }
    assert (Heq : format_durations length_scale o_dr_log [[row]]
                  = format_durations length_scale o_dr_log (repeat [row] b)).
    { unfold format_durations, ew3. rewrite bcast_single.
      unfold map3d at 2. rewrite length_map. destruct Ho as [-> _]. reflexivity. }
    rewrite Heq, (format_durations_ok length_scale b t) by assumption.
    cbn [bind].
    set (o_dr := zip3 (duration_entry length_scale) o_dr_log (repeat [row] b)).
    assert (Hs : shape3p b 1 t o_dr) by now apply shape3p_zip3.
    assert (Hw : forall i j, (i < b)%nat -> (j < t)%nat ->
               whole_ge_1 (get3 o_dr i 0 j)).
    { apply Hpart; [exact Hm|]. intros i j Hi Hj.
      rewrite Hone by assumption. now apply Hr. }
    eexists. split; [reflexivity|]. split.
    + unfold squeeze1. rewrite !length_map. apply Hs.
    + intros i Hi.
      rewrite (map_nth_lt (fun r => rng (tsum r)) _ _ [])
        by (unfold squeeze1; rewrite length_map; destruct Hs as [-> _]; exact Hi).
      unfold squeeze1.
      rewrite (map_nth_lt (fun m => hd [] m) _ _ [])
        by (destruct Hs as [-> _]; exact Hi).
      pose proof (shape3p_row b 1 t o_dr i Hs Hi) as [Hlen Hrows].
      specialize (Hw i). unfold get3 in Hw.
      destruct (nth i o_dr []) as [|r rest]; [discriminate|].
      cbn [hd nth] in *. apply Forall_inv in Hrows. rewrite <- Hrows.
      apply rng_tsum_whole, Forall_forall. intros a Ha.
      apply (In_nth _ _ NaN) in Ha. destruct Ha as (j & Hj & <-).
      apply Hw; [exact Hi|]. now rewrite <- Hrows.
Qed.

Lemma format_durations_at_least_one_witness :
  shape3p 1 1 2 [[[Fin 0; Fin 0]]] /\
  (forall x_mask,
      shape3p 1 1 2 x_mask ->
      (forall i j, (i < 1)%nat -> (j < 2)%nat ->
         in_float_range (Fin 1)
           (get3 [[[Fin 0; Fin 0]]] i 0 j) (get3 x_mask i 0 j)) ->
      exists o_dr,
        format_durations (Fin 1) [[[Fin 0; Fin 0]]] x_mask = Ok o_dr /\
        shape3p 1 1 2 o_dr /\
        (forall i j, (i < 1)%nat -> (j < 2)%nat ->
           whole_ge_1 (get3 o_dr i 0 j)) /\
        forall i j, (i < 1)%nat -> (j < 2)%nat ->
          get3 x_mask i 0 j = Fin 0 -> get3 o_dr i 0 j = Fin 1) /\
  ((Z.of_nat 2 <= 2 ^ 24)%Z /\
   (forall i j, (i < 1)%nat -> (j < 2)%nat ->
      in_float_range (Fin 1) (get3 [[[Fin 0; Fin 0]]] i 0 j) (Fin 1)) /\
   exists y_lengths,
     inference_y_lengths (Fin 1) 2 [[[Fin 0; Fin 0]]] = Ok y_lengths /\
     length y_lengths = 1%nat /\
     forall i, (i < 1)%nat ->
       tge (nth i y_lengths NaN) (Fin (INR 2)) = true).
Proof.
  assert (Hs : shape3p 1 1 2 [[[Fin 0; Fin 0]]])
    by (split; [reflexivity|]; repeat constructor).
  assert (Ht : (Z.of_nat 2 <= 2 ^ 24)%Z) by (simpl; lia).
  assert (Hr : forall i j, (i < 1)%nat -> (j < 2)%nat ->
             in_float_range (Fin 1) (get3 [[[Fin 0; Fin 0]]] i 0 j) (Fin 1)).
  { intros i j Hi Hj.
    assert (Hi0 : i = 0%nat) by lia. subst i.
    assert (Hj0 : j = 0%nat \/ j = 1%nat) by lia.
    pose proof float_overflow_gt_1.
    destruct Hj0 as [-> | ->]; cbn [get3 nth in_float_range];
      rewrite exp_0, Rabs_R1, Rmax_left by lra; lra. }
  pose proof (format_durations_at_least_one (Fin 1) 1 2 [[[Fin 0; Fin 0]]] Hs)
    as [H1 H2].
  split; [exact Hs|]. split; [exact H1|]. split; [exact Ht|].
  split; [exact Hr|]. exact (H2 Ht Hr).
Defined.

(** ** The monotonic alignment search *)



Lemma tge_fin_neg_inf x : tge (Fin x) NInf = true.
Proof. reflexivity. Qed.

Lemma tge_neg_inf_fin x : tge NInf (Fin x) = false.
Proof. reflexivity. Qed.










Lemma Forall_firstn_of {A : Type} (P : A -> Prop) n (l : list A) :
  Forall P l -> Forall P (firstn n l).
Proof.
  intros H. revert n. induction H as [|a l Ha _ IH]; intros [|n]; simpl;
    constructor; auto.
Qed.

Lemma transpose_column (x : T2) c j :
  Forall (fun r => length r = c) x -> (j < c)%nat ->
  flat_map (fun r => match nth_error r j with
                     | Some a => [a]
                     | None => []
                     end) x
  = map (fun r => nth j r NaN) x.
Proof.
  induction 1 as [|r x Hr _ IH]; intros Hj; [reflexivity|].
  cbn [flat_map map]. rewrite (nth_error_nth' r NaN) by lia.
  rewrite IH by exact Hj. reflexivity.
Qed.



(** ** Counting the frames of each character *)











Lemma zipM_pure {A B C : Type} (g : A -> B -> C) xs ys :
  zipM (fun a c => Ok (g a c)) xs ys = Ok (zip_with g xs ys).
Proof.
  revert ys; induction xs as [|x xs IH]; intros [|y ys]; simpl; auto.
  now rewrite IH.
Qed.

Lemma same_size_pure {A B C : Type} (g : A -> B -> C) xs ys :
  length xs = length ys ->
  same_size (fun a c => Ok (g a c)) xs ys = Ok (zip_with g xs ys).
Proof.
  intros H. rewrite same_size_same by exact H. apply zipM_pure.
Qed.

Lemma zip_with_map_r {A B B' C : Type} (h : B' -> B) (g : A -> B -> C) xs ys :
  zip_with g xs (map h ys) = zip_with (fun a c => g a (h c)) xs ys.
Proof.
  revert ys; induction xs as [|x xs IH]; intros [|y ys]; simpl; auto.
  now rewrite IH.
Qed.








(** ** AlignTTS.compute_align_path *)

Section AlignFacts.

Variables (mu log_sigma y log_p : T3) (B T_en T_dec : nat).
Variables (x_lengths y_lengths : list Z).
Hypothesis log_p_ok : compute_log_probs mu log_sigma y = Ok log_p.
Hypothesis log_p_shape : shape3p B T_en T_dec log_p.
Hypothesis log_p_fin : all_fin3 log_p.
Hypothesis x_lengths_batch : length x_lengths = B.
Hypothesis y_lengths_batch : length y_lengths = B.

Let x_mask := unsqueeze1 (sequence_mask x_lengths (Some (Z.of_nat T_en))).
Let y_mask := unsqueeze1 (sequence_mask y_lengths (Some (Z.of_nat T_dec))).
Let attn_mask :=
  zip_with (fun t_x t_y => item_mask t_x t_y T_en T_dec) x_lengths y_lengths.
Let attn :=
  zip_with
    (fun v m =>
       path_attn m (length v) (length (hd [] v))
         (mas_path (count_true (map (hd false) m)) (count_true (hd [] m)) v))
    log_p attn_mask.



Variable b : nat.
Hypothesis b_item : (b < B)%nat.
Let t_x := nth b x_lengths 0%Z.
Let t_y := nth b y_lengths 0%Z.
Hypothesis lengths_ordered : (1 <= t_x <= t_y)%Z.
Hypothesis t_x_valid : (t_x <= Z.of_nat T_en)%Z.
Hypothesis t_y_valid : (t_y <= Z.of_nat T_dec)%Z.

Let path := mas_path (Z.to_nat t_x) (Z.to_nat t_y) (nth b log_p []).






End AlignFacts.

(** ** AlignTTS.compute_log_probs on real inputs *)

Lemma mapM_exists {A B : Type} (f : A -> py B) (P : B -> Prop) l :
  Forall (fun a => exists c, f a = Ok c /\ P c) l ->
  exists cs, mapM f l = Ok cs /\ length cs = length l /\ Forall P cs.
Proof.
  induction 1 as [|a l (c & Hc & Hp) _ (cs & Hcs & Hl & Hf)].
  - exists []. repeat split; auto.
  - exists (c :: cs). cbn [mapM]. rewrite Hc, Hcs. cbn [bind length].
    repeat split; auto.
Qed.

Lemma zipM_exists {A B C : Type} (f : A -> B -> py C) (P : C -> Prop) xs ys :
  Forall2 (fun a c => exists e, f a c = Ok e /\ P e) xs ys ->
  exists es, zipM f xs ys = Ok es /\ length es = length xs /\ Forall P es.
Proof.
  induction 1 as [|a c xs ys (e & He & Hp) _ (es & Hes & Hl & Hf)].
  - exists []. repeat split; auto.
  - exists (e :: es). cbn [zipM]. rewrite He, Hes. cbn [bind length].
    repeat split; auto.
Qed.

Lemma tsum_fin l : Forall is_fin l -> exists s, tsum l = Fin s.
Proof.
  induction 1 as [|a l Ha _ (s & Hs)]; [now exists 0|].
  destruct a as [x| | |]; try contradiction.
  exists (x + s). unfold tsum in *. cbn [fold_right]. now rewrite Hs.
Qed.

Lemma zip_with_diag {A C : Type} (g : A -> A -> C) l :
  zip_with g l l = map (fun a => g a a) l.
Proof. induction l as [|a l IH]; [reflexivity|]. cbn [zip_with map]. now rewrite IH. Qed.

Lemma float_overflow_value :
  float_overflow = 340282356779733661637539395458142568448.
Proof. reflexivity. Qed.

Lemma float_underflow_value :
  float_underflow = / 1427247692705959881058285969449495136382746624.
Proof. reflexivity. Qed.

Lemma float_underflow_lt x :
  0 < x -> x < 1427247692705959881058285969449495136382746624 ->
  float_underflow < / x.
Proof.
  intros H0 H. rewrite float_underflow_value.
  apply Rinv_lt_contravar; [|exact H]. apply Rmult_lt_0_compat; lra.
Qed.

Lemma exp_le x y : x <= y -> exp x <= exp y.
Proof.
  intros [H| ->]; [left; now apply exp_increasing|lra].
Qed.

Lemma exp_INR_le n : exp (INR n) <= 3 ^ n.
Proof.
  induction n as [|n IH]; [simpl; rewrite exp_0; lra|].
  rewrite S_INR, exp_plus. cbn [pow].
  pose proof exp_le_3 as H3. pose proof (exp_pos (INR n)) as Hn.
  pose proof (exp_pos 1) as H1.
  rewrite (Rmult_comm 3). apply Rmult_le_compat; lra.
Qed.

Lemma exp_30 : exp 30 <= 205891132094649.
Proof.
  pose proof (exp_INR_le 30) as H.
  rewrite INR_IZR_INZ in H. change (Z.of_nat 30) with 30%Z in H.
  rewrite pow_IZR in H.
  change (3 ^ Z.of_nat 30)%Z with 205891132094649%Z in H. exact H.
Qed.

(** The standard deviation of a log standard deviation of magnitude up to
    30 lies between 3 ^ -30 and 3 ^ 30. *)
Lemma exp_range s :
  Rabs s <= 30 -> / 205891132094649 <= exp s <= 205891132094649.
Proof.
  intros H. pose proof (Rle_abs s) as H1. pose proof (Rle_abs (- s)) as H2.
  rewrite Rabs_Ropp in H2. pose proof exp_30 as H30.
  pose proof (exp_le s 30 ltac:(lra)) as Hs.
  pose proof (exp_le (- s) 30 ltac:(lra)) as Hs'.
  split; [|lra].
  replace (exp s) with (/ exp (- s))
    by (rewrite exp_Ropp; apply Rinv_inv).
  apply Rinv_le_contravar; [apply exp_pos|lra].
Qed.

Lemma within_fin bound a :
  within bound a -> exists x, a = Fin x /\ Rabs x <= bound.
Proof. destruct a as [x| | |]; try contradiction. eauto. Qed.

Lemma within_intro bound x : - bound <= x <= bound -> within bound (Fin x).
Proof. intros H. cbn [within]. now apply Rabs_le. Qed.

Lemma tsum_bounded bound l :
  Forall (fun e => exists x, e = Fin x /\ 0 <= x <= bound) l ->
  exists s, tsum l = Fin s /\ 0 <= s <= INR (length l) * bound.
Proof.
  induction 1 as [|a l (x & -> & Hx) _ (s & Hs & Hs0)];
    [exists 0; split; [reflexivity|simpl; lra]|].
  exists (x + s). unfold tsum in *. cbn [fold_right]. rewrite Hs.
  split; [reflexivity|]. rewrite length_cons, S_INR. lra.
Qed.

Lemma tsum_all_zero l :
  Forall (fun e => e = Fin 0) l -> tsum l = Fin 0.
Proof.
  induction 1 as [|a l -> _ IH]; [reflexivity|].
  unfold tsum in *. cbn [fold_right]. rewrite IH. cbn [tadd].
  now rewrite Rplus_0_r.
Qed.

Lemma tsum_within bound l :
  Forall (within bound) l ->
  exists s, tsum l = Fin s /\ Rabs s <= INR (length l) * bound.
Proof.
  induction 1 as [|a l Ha _ (s & Hs & Hs0)].
  - exists 0. split; [reflexivity|]. rewrite Rabs_R0. simpl. lra.
  - destruct (within_fin _ _ Ha) as (x & -> & Hx).
    exists (x + s). unfold tsum in *. cbn [fold_right]. rewrite Hs.
    split; [reflexivity|]. rewrite length_cons, S_INR.
    pose proof (Rabs_triang x s). lra.
Qed.

Lemma INR_le_256 d : (Z.of_nat d <= 256)%Z -> INR d <= 256.
Proof. intros H. rewrite INR_IZR_INZ. now apply IZR_le. Qed.

Lemma INR_ge_1 d : (1 <= d)%nat -> 1 <= INR d.
Proof. intros H. apply (le_INR 1) in H. exact H. Qed.

Lemma Rdiv_le_self x d : 0 <= x -> 1 <= d -> 0 <= x / d <= x.
Proof.
  intros Hx Hd. assert (H0 : 0 < / d) by (apply Rinv_0_lt_compat; lra).
  assert (H1 : / d <= 1).
  { rewrite <- Rinv_1. apply Rinv_le_contravar; lra. }
  unfold Rdiv. split; [apply Rmult_le_pos; lra|].
  rewrite <- (Rmult_1_r x) at 2. apply Rmult_le_compat_l; lra.
Qed.

(** The mean of a row of at least one real that is not negative. *)
Lemma tmean_nonneg l s bound :
  tsum l = Fin s -> 0 <= s <= bound -> bound < float_overflow ->
  (1 <= length l)%nat ->
  exists m, tmean l = Fin m /\ 0 <= m <= bound /\ (s = 0 -> m = 0).
Proof.
  intros Hs Hb Ho Hl. unfold tmean. rewrite Hs. cbn [rng].
  destruct (fl_nonneg s bound Hb Ho) as (s' & -> & Hs' & Hz).
  pose proof (INR_ge_1 _ Hl) as Hd.
  rewrite tdiv_fin by lra. cbn [rng].
  pose proof (Rdiv_le_self s' (INR (length l)) ltac:(lra) Hd) as Hq.
  destruct (fl_nonneg (s' / INR (length l)) bound ltac:(lra) Ho)
    as (m & -> & Hm & Hmz).
  exists m. split; [reflexivity|]. split; [exact Hm|].
  intros H0. apply Hmz. rewrite (Hz H0). unfold Rdiv. apply Rmult_0_l.
Qed.

(** The mean of a row of at least one real. *)
Lemma tmean_within l s bound :
  tsum l = Fin s -> Rabs s <= bound -> bound < float_overflow ->
  (1 <= length l)%nat ->
  exists m, tmean l = Fin m /\ Rabs m <= bound.
Proof.
  intros Hs Hb Ho Hl. unfold tmean. rewrite Hs. cbn [rng].
  destruct (fl_bound s bound Hb Ho) as (s' & -> & Hs' & _).
  pose proof (INR_ge_1 _ Hl) as Hd.
  rewrite tdiv_fin by lra. cbn [rng].
  destruct (fl_bound (s' / INR (length l)) bound) as (m & -> & Hm & _);
    [|exact Ho|eauto].
  unfold Rdiv. rewrite Rabs_mult.
  rewrite (Rabs_pos_eq (/ INR (length l)))
    by (left; apply Rinv_0_lt_compat; lra).
  pose proof (Rdiv_le_self (Rabs s') (INR (length l)) (Rabs_pos s') Hd) as Hq.
  unfold Rdiv in Hq. lra.
Qed.

(** The squared errors, the variances and their quotients of one entry,
    for means and frames of magnitude up to 1024 and log standard
    deviations of magnitude up to 30. *)
Lemma squared_error_range y_j mu_i :
  Forall (within 1024) y_j -> Forall (within 1024) mu_i ->
  Forall (fun e => exists z, e = Fin z /\ 0 <= z <= 4194304)
    (map (fun x => rng (tmul x x))
       (zip_with (fun a c => rng (tsub a c)) y_j mu_i)).
Proof.
  intros Hy Hm. apply Forall_map.
  apply (Forall_zip_with (within 1024) (within 1024)); auto.
  intros a c Ha Hc.
  destruct (within_fin _ _ Ha) as (x & -> & Hx).
  destruct (within_fin _ _ Hc) as (x' & -> & Hx').
  cbn [tsub tneg tadd rng].
  destruct (fl_bound (x + - x') 2048) as (d & -> & Hd & _).
  - pose proof (Rabs_triang x (- x')) as Ht. rewrite Rabs_Ropp in Ht. lra.
  - rewrite float_overflow_value. lra.
  - cbn [tmul rng].
    assert (Hsq : 0 <= d * d <= 4194304).
    { replace (d * d) with (Rabs d * Rabs d)
        by (rewrite <- Rabs_mult; apply Rabs_pos_eq; nra).
      pose proof (Rabs_pos d). split; [nra|].
      replace 4194304 with (2048 * 2048) by lra.
      apply Rmult_le_compat; lra. }
    destruct (fl_nonneg (d * d) 4194304 Hsq) as (z & -> & Hz & _);
      [rewrite float_overflow_value; lra|eauto].
Qed.

Lemma squared_error_zero mu_i :
  Forall (within 1024) mu_i ->
  Forall (fun e => e = Fin 0)
    (map (fun x => rng (tmul x x))
       (zip_with (fun a c => rng (tsub a c)) mu_i mu_i)).
Proof.
  intros Hm. rewrite zip_with_diag, map_map. apply Forall_map.
  eapply Forall_impl; [|exact Hm]. intros a Ha.
  destruct (within_fin _ _ Ha) as (x & -> & _).
  cbn [tsub tneg tadd rng]. rewrite Rplus_opp_r, fl_0.
  cbn [tmul rng]. now rewrite Rmult_0_l, fl_0.
Qed.

Lemma variance_range log_sigma_i :
  Forall (within 30) log_sigma_i ->
  Forall (fun e => exists v, e = Fin v /\
                   / 42391158275216203514294433201 <= v
                   <= 42391158275216203514294433201)
    (map (fun s => let e := rng (texp s) in rng (tmul e e)) log_sigma_i).
Proof.
  intros Hs. apply Forall_map. eapply Forall_impl; [|exact Hs].
  intros a Ha. destruct (within_fin _ _ Ha) as (s & -> & Hs30).
  destruct (exp_range s Hs30) as [Hlo Hhi].
  pose proof (exp_pos s) as Hpos. cbv zeta. cbn [texp rng].
  assert (Hu : float_underflow < / 205891132094649)
    by (apply float_underflow_lt; lra).
  rewrite fl_id;
    [|rewrite Rabs_pos_eq; lra
     |rewrite Rabs_pos_eq, float_overflow_value; lra].
  cbn [tmul rng].
  assert (Hlo2 : / 42391158275216203514294433201 <= exp s * exp s).
  { replace (/ 42391158275216203514294433201)
      with (/ 205891132094649 * / 205891132094649)
      by (rewrite <- Rinv_mult; f_equal; lra).
    assert (0 < / 205891132094649) by (apply Rinv_0_lt_compat; lra).
    apply Rmult_le_compat; lra. }
  assert (Hhi2 : exp s * exp s <= 42391158275216203514294433201).
  { replace 42391158275216203514294433201
      with (205891132094649 * 205891132094649) by lra.
    apply Rmult_le_compat; lra. }
  assert (Hu2 : float_underflow < / 42391158275216203514294433201)
    by (apply float_underflow_lt; lra).
  rewrite fl_id;
    [eauto
    |rewrite Rabs_pos_eq; nra
    |rewrite Rabs_pos_eq, float_overflow_value; nra].
Qed.

Lemma quotient_range sq var :
  Forall (fun e => exists z, e = Fin z /\ 0 <= z <= 4194304) sq ->
  Forall (fun e => exists v, e = Fin v /\
                   / 42391158275216203514294433201 <= v
                   <= 42391158275216203514294433201) var ->
  Forall (fun e => exists w, e = Fin w /\
                   0 <= w <= 177801404718372423264819198352687104)
    (zip_with (fun a c => rng (tdiv a c)) sq var).
Proof.
  intros Hsq Hvar.
  apply (Forall_zip_with
           (fun e => exists z, e = Fin z /\ 0 <= z <= 4194304)
           (fun e => exists v, e = Fin v /\
                     / 42391158275216203514294433201 <= v
                     <= 42391158275216203514294433201)); auto.
  intros a c (z & -> & Hz) (v & -> & Hv).
  assert (Hk : 0 < / 42391158275216203514294433201)
    by (apply Rinv_0_lt_compat; lra).
  rewrite tdiv_fin by lra. cbn [rng].
  assert (Hi : 0 < / v <= 42391158275216203514294433201).
  { split; [apply Rinv_0_lt_compat; lra|].
    rewrite <- (Rinv_inv 42391158275216203514294433201).
    apply Rinv_le_contravar; lra. }
  assert (Hq : 0 <= z / v <= 177801404718372423264819198352687104).
  { unfold Rdiv. split; [apply Rmult_le_pos; lra|].
    replace 177801404718372423264819198352687104
      with (4194304 * 42391158275216203514294433201) by lra.
    apply Rmult_le_compat; lra. }
  destruct (fl_nonneg (z / v) _ Hq) as (w & -> & Hw & _);
    [rewrite float_overflow_value; lra|eauto].
Qed.

Lemma quotient_zero sq var :
  length sq = length var ->
  Forall (fun e => e = Fin 0) sq ->
  Forall (fun e => exists v, e = Fin v /\
                   / 42391158275216203514294433201 <= v
                   <= 42391158275216203514294433201) var ->
  Forall (fun e => e = Fin 0) (zip_with (fun a c => rng (tdiv a c)) sq var).
Proof.
  intros _ Hsq Hvar.
  apply (Forall_zip_with
           (fun e => e = Fin 0)
           (fun e => exists v, e = Fin v /\
                     / 42391158275216203514294433201 <= v
                     <= 42391158275216203514294433201)); auto.
  intros a c -> (v & -> & Hv).
  assert (Hk : 0 < / 42391158275216203514294433201)
    by (apply Rinv_0_lt_compat; lra).
  rewrite tdiv_fin by lra. cbn [rng]. unfold Rdiv.
  now rewrite Rmult_0_l, fl_0.
Qed.

(** Inside that range, and for at most 256 feature channels, an entry is
    real: it is at most minus the halved mean of the log standard
    deviations, and equal to it when the frame is the mean. *)
Lemma log_prob_entry_in_range d mu_i log_sigma_i y_j :
  (1 <= d)%nat -> (Z.of_nat d <= 256)%Z ->
  length mu_i = d -> Forall (within 1024) mu_i ->
  length log_sigma_i = d -> Forall (within 30) log_sigma_i ->
  length y_j = d -> Forall (within 1024) y_j ->
  exists r h,
    log_prob_entry mu_i log_sigma_i y_j = Ok (Fin r) /\
    rng (tmul (Fin (/ 2)) (tmean log_sigma_i)) = Fin h /\
    r <= - h /\
    (y_j = mu_i -> r = - h).
Proof.
  intros Hd Hd' Hml Hmf Hsl Hsf Hyl Hyf. unfold log_prob_entry.
  pose proof (INR_le_256 d Hd') as Hd256. pose proof (INR_ge_1 d Hd) as Hd1.
  pose proof float_overflow_value as Hov.
  rewrite ew1_same by congruence. cbn [bind].
  rewrite ew1_same by (rewrite !length_map, zip_with_length; congruence).
  cbn [bind].
  set (sq := map (fun x => rng (tmul x x))
               (zip_with (fun a c => rng (tsub a c)) y_j mu_i)).
  set (var := map (fun s => let e := rng (texp s) in rng (tmul e e))
                log_sigma_i).
  set (q := zip_with (fun a c => rng (tdiv a c)) sq var).
  assert (Hsql : length sq = d)
    by (unfold sq; rewrite length_map, zip_with_length; congruence).
  assert (Hvarl : length var = d) by (unfold var; now rewrite length_map).
  assert (Hql : length q = d)
    by (unfold q; rewrite zip_with_length; congruence).
  pose proof (variance_range log_sigma_i Hsf) as Hvar. fold var in Hvar.
  pose proof (squared_error_range y_j mu_i Hyf Hmf) as Hsq. fold sq in Hsq.
  pose proof (quotient_range sq var Hsq Hvar) as Hq. fold q in Hq.
  destruct (tsum_bounded _ q Hq) as (s & Hs & Hs0). rewrite Hql in Hs0.
  destruct (tmean_nonneg q s 45517159607903340355793714778287898624 Hs)
    as (m1 & Hm1 & Hm1b & Hm1z); [nra|lra|lia|].
  destruct (tsum_within 30 log_sigma_i Hsf) as (t & Ht & Ht0).
  rewrite Hsl in Ht0.
  destruct (tmean_within log_sigma_i t 7680 Ht) as (m2 & Hm2 & Hm2b);
    [nra|lra|lia|].
  rewrite Hm1, Hm2. cbn [tmul rng].
  destruct (fl_fin (/ 2 * m2)) as (h & -> & Hh).
  { rewrite Rabs_mult, (Rabs_pos_eq (/ 2)) by lra. lra. }
  assert (Hhb : Rabs h <= 3840).
  { destruct Hh as [[-> _]|[-> _]]; [|rewrite Rabs_R0; lra].
    rewrite Rabs_mult, (Rabs_pos_eq (/ 2)) by lra. lra. }
  assert (Hh0 : h = 0 \/ float_underflow < Rabs h).
  { destruct Hh as [[-> Hu]|[-> _]]; [right; exact Hu|now left]. }
  destruct (fl_fin (- / 2 * m1)) as (a & -> & Ha).
  { rewrite Rabs_mult, Rabs_Ropp, (Rabs_pos_eq (/ 2)), (Rabs_pos_eq m1) by lra.
    lra. }
  assert (Hab : - 22758579803951670177896857389143949312 <= a <= 0
                /\ (m1 = 0 -> a = 0)).
  { destruct Ha as [[-> _]|[-> _]]; split; first [lra|intros ->; lra]. }
  destruct Hab as [Hab Haz]. cbn [tsub tneg tadd rng].
  pose proof (Rle_abs h) as Hh1. pose proof (Rle_abs (- h)) as Hh2.
  rewrite Rabs_Ropp in Hh2.
  destruct (fl_fin (a + - h)) as (r & -> & Hr).
  { apply Rabs_def1; lra. }
  exists r, h. split; [reflexivity|]. split; [reflexivity|].
  pose proof float_underflow_pos as Hup.
  assert (Hle : r <= - h).
  { destruct Hr as [[-> _]|[-> Hu]]; [lra|].
    destruct Hh0 as [->|Hbig]; [lra|].
    destruct (Rle_dec h 0) as [Hneg|Hposh]; [lra|].
    exfalso. rewrite Rabs_pos_eq in Hbig by lra.
    rewrite Rabs_left in Hu by lra. lra. }
  split; [exact Hle|].
  intros Heq. subst y_j.
  assert (Hqz : Forall (fun e => e = Fin 0) q).
  { unfold q. apply quotient_zero; [congruence| |exact Hvar].
    unfold sq. now apply squared_error_zero. }
  pose proof (tsum_all_zero q Hqz) as Hs'. rewrite Hs in Hs'.
  injection Hs' as ->. rewrite (Haz (Hm1z eq_refl)) in *.
  destruct Hr as [[-> _]|[-> Hu]]; [lra|].
  destruct Hh0 as [->|Hbig]; [lra|].
  exfalso. rewrite Rplus_0_l, Rabs_Ropp in Hu. lra.
Qed.

(** The transposed items: (T, D) matrices whose rows keep what holds of
    every entry. *)
Lemma transpose_columns_of (P : tval -> Prop) (x : T2) r c :
  (1 <= r)%nat -> shape2 r c x -> Forall (Forall P) x ->
  length (transpose x) = c /\
  Forall (fun col => length col = r /\ Forall P col) (transpose x).
Proof.
  intros Hr [Hlen Hrows] Hfin. unfold transpose.
  assert (Hhd : length (hd [] x) = c).
  { destruct x as [|r0 x']; [simpl in Hlen; lia|].
    cbn [hd]. now apply Forall_inv in Hrows. }
  rewrite Hhd. split; [now rewrite length_map, length_seq|].
  apply Forall_map, Forall_forall. intros j Hj. apply in_seq in Hj.
  rewrite (transpose_column x c) by (auto; lia). split.
  - now rewrite length_map.
  - apply Forall_map. rewrite Forall_forall in *. intros row Hin.
    specialize (Hfin row Hin). rewrite Forall_forall in Hfin.
    apply Hfin, nth_In. rewrite (Hrows row Hin). lia.
Qed.

Lemma permute021_rows (P : tval -> Prop) b d t (x : T3) :
  (1 <= d)%nat -> shape3p b d t x -> Forall (Forall (Forall P)) x ->
  length (permute021 x) = b /\
  Forall (fun m => length m = t /\
                   Forall (fun r => length r = d /\ Forall P r) m)
    (permute021 x).
Proof.
  intros Hd [Hb Hs] Hf. unfold permute021. split; [now rewrite length_map|].
  apply Forall_map. rewrite Forall_forall in *.
  intros m Hin.
  destruct (transpose_columns_of P m d t Hd (Hs m Hin) (Hf m Hin)) as [Hl Hc].
  split; [exact Hl|exact Hc].
Qed.

Lemma Forall3_trivial (x : T3) : Forall (Forall (Forall (fun _ => True))) x.
Proof.
  apply Forall_forall. intros m _. apply Forall_forall. intros r _.
  apply Forall_forall. auto.
Qed.

(** [compute_log_probs] on tensors whose shapes agree: what holds of every
    entry that [log_prob_entry] returns holds of the whole result. *)
Lemma compute_log_probs_rows (Pm Ps Py Q : tval -> Prop)
  b d T_en T_dec (mu log_sigma y : T3) :
  (1 <= d)%nat ->
  shape3p b d T_en mu -> shape3p b d T_en log_sigma -> shape3p b d T_dec y ->
  Forall (Forall (Forall Pm)) mu -> Forall (Forall (Forall Ps)) log_sigma ->
  Forall (Forall (Forall Py)) y ->
  (forall m s yj,
      length m = d /\ Forall Pm m -> length s = d /\ Forall Ps s ->
      length yj = d /\ Forall Py yj ->
      exists r, log_prob_entry m s yj = Ok r /\ Q r) ->
  exists log_p,
    compute_log_probs mu log_sigma y = Ok log_p /\
    shape3p b T_en T_dec log_p /\ Forall (Forall (Forall Q)) log_p.
Proof.
  intros Hd Hmu Hls Hy Hmf Hlf Hyf Hentry. unfold compute_log_probs.
  destruct (permute021_rows Pm b d T_en mu Hd Hmu Hmf) as [Hml Hmr].
  destruct (permute021_rows Ps b d T_en log_sigma Hd Hls Hlf) as [Hsl Hsr].
  destruct (permute021_rows Py b d T_dec y Hd Hy Hyf) as [Hyl Hyr].
  set (mu' := permute021 mu) in *. set (ls' := permute021 log_sigma) in *.
  set (y' := permute021 y) in *.
  rewrite Forall_forall in Hmr, Hsr, Hyr.
  assert (Hms : same_size (same_size (fun (m s : T1) => Ok (m, s))) mu' ls'
                = Ok (zip_with (zip_with pair) mu' ls')).
  { rewrite same_size_same by congruence.
    apply zipM_ok, (Forall2_nth_intro _ [] []); [congruence|].
    intros i Hi. apply same_size_pure.
    destruct (Hmr (nth i mu' [])) as [-> _]; [apply nth_In; lia|].
    destruct (Hsr (nth i ls' [])) as [-> _]; [apply nth_In; lia|].
    reflexivity. }
  rewrite Hms. cbn [bind].
  set (ms := zip_with (zip_with pair) mu' ls').
  assert (Hmsl : length ms = b)
    by (unfold ms; rewrite zip_with_length; congruence).
  rewrite bcast_same by congruence.
  set (F := fun (ms_b : list (T1 * T1)) (y_b : T2) =>
              mapM (fun ms_i => mapM (log_prob_entry (fst ms_i) (snd ms_i)) y_b) ms_b).
  destruct (zipM_exists F
              (fun m => shape2 T_en T_dec m /\ Forall (Forall Q) m) ms y')
    as (log_p & Hok & Hlen & Hall).
  { apply (Forall2_nth_intro _ [] []); [congruence|].
    intros i Hi. rewrite Hmsl in Hi. unfold ms.
    rewrite (zip_with_nth _ [] [] []) by congruence.
    destruct (Hmr (nth i mu' [])) as [Hm1 Hm2]; [apply nth_In; lia|].
    destruct (Hsr (nth i ls' [])) as [Hs1 Hs2]; [apply nth_In; lia|].
    destruct (Hyr (nth i y' [])) as [Hy1 Hy2]; [apply nth_In; lia|].
    set (mi := nth i mu' []) in *. set (si := nth i ls' []) in *.
    set (yi := nth i y' []) in *.
    destruct (mapM_exists
                (fun ms_i => mapM (log_prob_entry (fst ms_i) (snd ms_i)) yi)
                (fun row => length row = T_dec /\ Forall Q row)
                (zip_with pair mi si)) as (rows & Hrows & Hrl & Hrf).
    { apply Forall_forall. intros [m s] Hin.
      assert (Hpair : (length m = d /\ Forall Pm m)
                      /\ (length s = d /\ Forall Ps s)).
      { apply (In_nth _ _ ([], [])) in Hin. destruct Hin as (k & Hk & Hnth).
        rewrite zip_with_length in Hk by congruence.
        rewrite (zip_with_nth pair [] [] ([], [])) in Hnth by congruence.
        injection Hnth as <- <-. rewrite Forall_forall in Hm2, Hs2.
        split; [apply Hm2 | apply Hs2]; apply nth_In; lia. }
      destruct Hpair as [Hm Hs]. cbn [fst snd].
      destruct (mapM_exists (log_prob_entry m s) Q yi)
        as (row & Hrow & Hrowl & Hrowf).
      { apply Forall_forall. intros yj Hyj. rewrite Forall_forall in Hy2.
        apply (Hentry m s yj Hm Hs (Hy2 yj Hyj)). }
      exists row. split; [exact Hrow|]. split; [congruence|exact Hrowf]. }
    exists rows. split; [exact Hrows|].
    rewrite zip_with_length in Hrl by congruence.
    split; [split; [congruence|]|].
    - eapply Forall_impl; [|exact Hrf]. intros r [Hr _]. exact Hr.
    - eapply Forall_impl; [|exact Hrf]. intros r [_ Hr]. exact Hr. }
  exists log_p. split; [exact Hok|]. split.
  - split; [congruence|]. eapply Forall_impl; [|exact Hall]. intros m [Hm _]. exact Hm.
  - eapply Forall_impl; [|exact Hall]. intros m [_ Hm]. exact Hm.
Qed.


(** Means and frames of magnitude up to 1024, log standard deviations of
    magnitude up to 30 and at most 256 feature channels give real
    scores. *)
Lemma compute_log_probs_fin b d T_en T_dec (mu log_sigma y : T3) :
  (1 <= d)%nat -> (Z.of_nat d <= 256)%Z ->
  shape3p b d T_en mu -> shape3p b d T_en log_sigma -> shape3p b d T_dec y ->
  all_within3 1024 mu -> all_within3 30 log_sigma -> all_within3 1024 y ->
  exists log_p,
    compute_log_probs mu log_sigma y = Ok log_p /\
    shape3p b T_en T_dec log_p /\ all_fin3 log_p.
Proof.
  intros Hd Hd' Hmu Hls Hy Hmf Hlf Hyf.
  apply (compute_log_probs_rows (within 1024) (within 30) (within 1024) is_fin
           b d T_en T_dec); auto.
  intros m s yj [Hm1 Hm2] [Hs1 Hs2] [Hy1 Hy2].
  destruct (log_prob_entry_in_range d m s yj Hd Hd' Hm1 Hm2 Hs1 Hs2 Hy1 Hy2)
    as (r & h & -> & _).
  exists (Fin r). split; [reflexivity|exact I].
Qed.


Lemma all_within3_single bound (rows : T2) :
  Forall (Forall (fun a => exists x, a = Fin x /\ - bound <= x <= bound)) rows ->
  all_within3 bound [rows].
Proof.
  intros H. constructor; [|constructor].
  eapply Forall_impl; [|exact H]. intros r Hr.
  eapply Forall_impl; [|exact Hr]. intros a (x & -> & Hx).
  now apply within_intro.
Qed.



(** ** What the masking and the last lines of HMM.forward compute *)

Lemma zip_with_repeat {A B C : Type} (g : A -> B -> C) xs y :
  zip_with g xs (repeat y (length xs)) = map (fun x => g x y) xs.
Proof.
  induction xs as [|x xs IH]; [reflexivity|]. cbn [length repeat zip_with map].
  now rewrite IH.
Qed.

Lemma ew1_single f (row : T1) m :
  ew1 f row [m] = Ok (map (fun x => f x m) row).
Proof.
  unfold ew1. rewrite bcast_single. fold (ew1 f).
  rewrite ew1_same by now rewrite repeat_length.
  now rewrite zip_with_repeat.
Qed.

(** [_mask_lengths] multiplies every entry by the 0/1 mask of its frame. *)
Lemma mask_lengths_entries B T N self (lens : list Z) (log_c : T2) :
  shape2 B T log_c -> shape3p B T N (self_log_alpha_scaled self) ->
  length lens = B -> Z.to_nat (zmax_list lens) = T ->
  exists log_c' self',
    _mask_lengths self lens log_c = Ok (log_c', self') /\
    (forall b t, (b < B)%nat -> (t < T)%nat ->
       get2 log_c' b t
       = tmul (get2 log_c b t) (of_bool (Z.of_nat t <? nth b lens 0%Z)%Z)) /\
    (forall b t i, (b < B)%nat -> (t < T)%nat -> (i < N)%nat ->
       get3 (self_log_alpha_scaled self') b t i
       = tmul (get3 (self_log_alpha_scaled self) b t i)
              (of_bool (Z.of_nat t <? nth b lens 0%Z)%Z)).
Proof.
  intros Hc Hl Hlens Hmax. unfold _mask_lengths.
  rewrite sequence_mask_default.
  set (mask := sequence_mask lens (Some (zmax_list lens))).
  assert (Hm : shape2 B T mask).
  { unfold mask. rewrite <- Hlens, <- Hmax. apply sequence_mask_shape. }
  rewrite (ew2_same tmul B T) by (try apply shape2_map2d; assumption).
  cbn [bind].
  set (las := self_log_alpha_scaled self) in *.
  set (m3 := map2d (fun m => [of_bool m]) mask).
  assert (Hm3 : shape2 B T m3) by now apply shape2_map2d.
  assert (Hlas : ew3 tmul las m3
                 = Ok (zip_with
                         (zip_with (fun row m => map (fun x => tmul x (hd NaN m)) row))
                         las m3)).
  { unfold ew3. destruct Hl as [Hlb Hli]. destruct Hm3 as [Hmb Hmi].
    rewrite bcast_same by congruence.
    apply zipM_ok, (Forall2_nth_intro _ [] []); [congruence|].
    intros b Hb. unfold ew2.
    assert (Hib : shape2 T N (nth b las []))
      by (rewrite Forall_forall in Hli; apply Hli, nth_In; exact Hb).
    assert (Hmb' : length (nth b m3 []) = T)
      by (rewrite Forall_forall in Hmi; apply Hmi, nth_In; lia).
    destruct Hib as [Hit Hin].
    rewrite bcast_same by congruence.
    apply zipM_ok, (Forall2_nth_intro _ [] []); [congruence|].
    intros t Ht. unfold m3 at 1 2.
    rewrite map2d_nth.
    rewrite (map_nth_lt _ _ _ false)
      by (unfold m3 in Hmb'; rewrite map2d_nth, length_map in Hmb'; lia).
    cbn [hd]. apply ew1_single. }
  rewrite Hlas. cbn [bind]. eexists. eexists. split; [reflexivity|]. split.
  - intros b t Hb Ht. unfold get2.
    rewrite (zip_with2_nth tmul NaN NaN NaN B T); auto;
      [|now apply shape2_map2d].
    f_equal. rewrite map2d_nth.
    rewrite (map_nth_lt of_bool _ _ false) by now rewrite (shape2_row B T mask).
    f_equal. unfold mask. apply sequence_mask_nth; lia.
  - intros b t i Hb Ht Hi. cbn [self_log_alpha_scaled set_log_alpha_scaled].
    unfold get3.
    assert (Hib : shape2 T N (nth b las [])) by now apply (shape3p_row B).
    rewrite (zip_with_nth _ [] [] [])
      by (destruct Hl as [Hlb _], Hm3 as [Hmb _]; lia).
    rewrite (zip_with_nth _ [] [] [])
      by (destruct Hib as [Hit _]; rewrite ?(shape2_row B T m3); auto; lia).
    rewrite (map_nth_lt _ _ _ NaN) by now rewrite (shape2_row T N (nth b las [])).
    f_equal. unfold m3. rewrite map2d_nth.
    rewrite (map_nth_lt _ _ _ false) by now rewrite (shape2_row B T mask).
    cbn [hd]. f_equal. unfold mask. apply sequence_mask_nth; lia.
Qed.

(** The value of the last line of [forward] for one item. *)
Lemma log_probs_of_entry (log_c : T2) (sum_final_log_c : T1) b :
  length log_c = length sum_final_log_c -> (b < length log_c)%nat ->
  exists log_probs,
    log_probs_of log_c sum_final_log_c = Ok log_probs /\
    nth b log_probs NaN
    = tadd (tsum (nth b log_c [])) (nth b sum_final_log_c NaN).
Proof.
  intros Hl Hb. unfold log_probs_of.
  rewrite ew1_same by now rewrite length_map.
  eexists. split; [reflexivity|].
  rewrite (zip_with_nth tadd NaN NaN NaN) by (rewrite ?length_map; lia).
  now rewrite (map_nth_lt tsum _ _ []).
Qed.

Lemma mask_row_S len n :
  mask_row len (S n) = (0 <? len)%Z :: mask_row (len - 1) n.
Proof.
  unfold mask_row. cbn [seq map]. f_equal.
  rewrite <- seq_shift, map_map. apply map_ext. intros i.
  destruct (Z.ltb_spec (Z.of_nat (S i)) len),
           (Z.ltb_spec (Z.of_nat i) (len - 1)); auto; lia.
Qed.

(** The sum of a masked row of real entries is the sum over its valid
    frames. *)
Lemma masked_row_sum (row : T1) : forall len,
  Forall is_fin row ->
  tsum (zip_with tmul row (map of_bool (mask_row len (length row))))
  = tsum (firstn (Z.to_nat len) row).
Proof.
  induction row as [|a row IH]; intros len Hf; [now destruct (Z.to_nat len)|].
  inversion Hf as [|? ? Ha Hf']; subst.
  destruct a as [x| | |]; try contradiction.
  cbn [length]. rewrite mask_row_S. cbn [map zip_with].
  unfold tsum in *. cbn [fold_right]. rewrite (IH (len - 1)%Z Hf').
  destruct (Z.ltb_spec 0 len) as [Hpos|Hneg].
  - replace (Z.to_nat len) with (S (Z.to_nat (len - 1))) by lia.
    cbn [firstn fold_right of_bool tmul]. f_equal. f_equal. lra.
  - replace (Z.to_nat len) with 0%nat by lia.
    replace (Z.to_nat (len - 1)) with 0%nat by lia.
    cbn [firstn fold_right of_bool tmul tadd]. f_equal. lra.
Qed.

(** * Further properties *)

(** ** AlignTTS._set_phase *)

Lemma index_true_spec l :
  True_in l = true ->
  exists k,
    index_true l = Ok k /\ (k < length l)%nat /\ nth k l false = true /\
    forall j, (j < k)%nat -> nth j l false = false.
Proof.
  induction l as [|c l IH]; [discriminate|]. unfold True_in in *.
  cbn [existsb index_true]. destruct c.
  - intros _. exists 0%nat. cbn [length nth]. repeat split; auto; lia.
  - cbn [orb]. intros H. destruct (IH H) as (k & -> & Hk & Hn & Hj).
    exists (S k). cbn [bind length nth]. repeat split; auto; try lia.
    intros [|j] Hlt; [reflexivity|]. apply Hj. lia.
Qed.

Lemma True_in_rev l : True_in (rev l) = True_in l.
Proof.
  unfold True_in. induction l as [|c l IH]; [reflexivity|].
  cbn [rev existsb]. rewrite existsb_app, IH. cbn [existsb].
  destruct c, (existsb (fun c => c) l); reflexivity.
Qed.

Lemma True_in_nth l : True_in l = true <-> exists j, (j < length l)%nat /\ nth j l false = true.
Proof.
  unfold True_in. rewrite existsb_exists. split.
  - intros (c & Hin & Hc). destruct (In_nth _ _ false Hin) as (j & Hj & Hn).
    exists j. split; [exact Hj|congruence].
  - intros (j & Hj & Hn). exists (nth j l false). split; [now apply nth_In|exact Hn].
Qed.

(** The phase is the index of the last start step below [global_step], and 0
    when there is none. *)
Lemma set_phase_spec steps g :
  exists p,
    _set_phase (Some steps) g = Ok (Some p) /\
    ((exists k,
         p = Z.of_nat k /\ (k < length steps)%nat /\ (nth k steps 0 < g)%Z /\
         forall j, (k < j < length steps)%nat -> (g <= nth j steps 0)%Z)
     \/ (p = 0%Z /\ forall j, (j < length steps)%nat -> (g <= nth j steps 0)%Z)).
Proof.
  unfold _set_phase. cbv zeta.
  set (vals := map (fun i => (i <? g)%Z) steps).
  assert (Hlen : length vals = length steps) by (unfold vals; apply length_map).
  assert (Hnth : forall j, (j < length steps)%nat ->
            nth j vals false = (nth j steps 0 <? g)%Z).
  { intros j Hj. unfold vals. now rewrite (map_nth_lt _ _ _ 0%Z). }
  destruct (True_in vals) eqn:Hin; cbn [negb].
  - pose proof Hin as Hin'. rewrite <- True_in_rev in Hin'.
    destruct (index_true_spec _ Hin') as (k & -> & Hk & Hn & Hj).
    rewrite length_rev in Hk. cbn [bind]. eexists. split; [reflexivity|].
    left. exists (length steps - S k)%nat.
    rewrite rev_nth in Hn by lia. rewrite Hlen, Hnth in Hn by lia.
    repeat split; try lia.
    intros j Hjr.
    specialize (Hj (length steps - S j)%nat ltac:(lia)).
    rewrite rev_nth in Hj by lia. rewrite Hlen in Hj.
    replace (length steps - S (length steps - S j))%nat with j in Hj by lia.
    rewrite Hnth in Hj by lia. lia.
  - exists 0%Z. split; [reflexivity|]. right. split; [reflexivity|].
    intros j Hj. destruct (Z.ltb_spec (nth j steps 0%Z) g) as [Hlt|]; [|lia].
    assert (Ht : True_in vals = true).
    { apply True_in_nth. exists j. rewrite Hlen, Hnth by lia.
      split; [exact Hj|]. now apply Z.ltb_lt. }
    congruence.
Qed.

(** X1.  For a list of start steps [_set_phase] never raises: it returns
    the index of the last phase whose start step is below [global_step] (no
    later phase has started), and 0 when no phase has started; the result
    is 0 or an index of the list. *)
Theorem set_phase_last_started :
  forall steps g,
    exists p,
      _set_phase (Some steps) g = Ok (Some p) /\
      (0 <= p)%Z /\
      (p = 0%Z \/ (p < Z.of_nat (length steps))%Z) /\
      ((exists j, (j < length steps)%nat /\ (nth j steps 0 < g)%Z) ->
       (nth (Z.to_nat p) steps 0 < g)%Z /\
       forall j, (Z.to_nat p < j < length steps)%nat -> (g <= nth j steps 0)%Z) /\
      ((forall j, (j < length steps)%nat -> (g <= nth j steps 0)%Z) -> p = 0%Z).
Proof.
  intros steps g. destruct (set_phase_spec steps g) as (p & Hp & Hcase).
  exists p. split; [exact Hp|].
  destruct Hcase as [(k & -> & Hk & Hlt & Hlater) | (-> & Hnone)].
  - rewrite Nat2Z.id. split; [lia|]. split; [lia|]. split.
    + intros _. split; [exact Hlt|exact Hlater].
    + intros Hnone. specialize (Hnone k Hk). lia.
  - split; [lia|]. split; [lia|]. split.
    + intros (j & Hj & Hlt). specialize (Hnone j Hj). lia.
    + reflexivity.
Qed.

(** X2.  The phase never goes back as training goes on: for one list of
    start steps, in whatever order, a later [global_step] gives a phase
    that is at least as large. *)
Theorem set_phase_monotone :
  forall steps g g',
    (g <= g')%Z ->
    exists p p',
      _set_phase (Some steps) g = Ok (Some p) /\
      _set_phase (Some steps) g' = Ok (Some p') /\
      (p <= p')%Z.
Proof.
  intros steps g g' Hle.
  destruct (set_phase_spec steps g) as (p & Hp & Hcase).
  destruct (set_phase_spec steps g') as (p' & Hp' & Hcase').
  exists p, p'. split; [exact Hp|]. split; [exact Hp'|].
  destruct Hcase as [(k & -> & Hk & Hlt & Hlater) | (-> & Hnone)];
    destruct Hcase' as [(k' & -> & Hk' & Hlt' & Hlater') | (-> & Hnone')];
    try lia.
  - destruct (Nat.lt_ge_cases k' k) as [Hkk|]; [|lia].
    specialize (Hlater' k ltac:(lia)). lia.
  - specialize (Hnone' k Hk). lia.
Qed.

Lemma set_phase_monotone_witness :
  (40000 <= 80001)%Z /\
  exists p p',
    _set_phase (Some [0; 40000; 80000; 160000; 170000]%Z) 40000 = Ok (Some p) /\
    _set_phase (Some [0; 40000; 80000; 160000; 170000]%Z) 80001 = Ok (Some p') /\
    (p <= p')%Z.
Proof.
  split; [lia|].
  apply (set_phase_monotone [0; 40000; 80000; 160000; 170000]%Z 40000 80001).
  lia.
Defined.

(** ** AlignTTS: the durations of the alignment through their logarithm *)

Lemma Int_part_IZR k : Int_part (IZR k) = k.
Proof.
  destruct (base_Int_part (IZR k)) as [Hle Hlt].
  apply le_IZR in Hle.
  assert (H : IZR (k - 1) < IZR (Int_part (IZR k))) by (rewrite minus_IZR; lra).
  apply lt_IZR in H. lia.
Qed.

Lemma Rround_IZR k : Rround (IZR k) = k.
Proof.
  unfold Rround. rewrite Int_part_IZR. rewrite Rltb_true by lra. reflexivity.
Qed.

Lemma duration_entry_of_log k (m : bool) :
  (0 <= k <= 65536)%Z ->
  duration_entry (Fin 1) (duration_log (Fin (IZR k))) (of_bool m)
  = Fin (IZR (if m then Z.max k 1 else 1)).
Proof.
  intros [Hk Hk']. assert (H0 : 0 <= IZR k) by now apply IZR_le.
  assert (H1 : IZR k <= 65536) by now apply IZR_le.
  assert (Hov : 65537 < float_overflow)
    by (unfold float_overflow; apply IZR_lt; reflexivity).
  pose proof float_underflow_lt_1 as Hun.
  unfold duration_log. cbn [tadd]. rewrite tlog_pos by lra.
  unfold duration_entry. cbn [texp rng].
  rewrite exp_ln by lra.
  rewrite fl_id by (rewrite Rabs_pos_eq; lra).
  cbn [tsub tneg tadd rng].
  replace (IZR k + 1 + - (1)) with (IZR k) by lra.
  rewrite fl_IZR by (rewrite Rabs_pos_eq; lra).
  destruct m; cbn [of_bool tmul rng].
  - rewrite Rmult_1_r, fl_IZR by (rewrite Rabs_pos_eq; lra).
    cbn [tmul rng].
    rewrite Rmult_1_r, fl_IZR by (rewrite Rabs_pos_eq; lra).
    cbn [tlt].
    destruct (Z.eq_dec k 0) as [->|Hne].
    + rewrite Rltb_true by lra. cbn [tround]. now rewrite Rround_1.
    + assert (H2 : (1 <= k)%Z) by lia. apply IZR_le in H2.
      rewrite Rltb_false by lra. cbn [tround]. rewrite Rround_IZR.
      now rewrite Z.max_l by lia.
  - rewrite Rmult_0_r, fl_0. cbn [tmul rng]. rewrite Rmult_0_l, fl_0.
    cbn [tlt]. rewrite Rltb_true by lra. cbn [tround]. now rewrite Rround_1.
Qed.

Lemma zip3_unsqueeze1 {A B C : Type} (g : A -> B -> C) xs ys :
  zip3 g (unsqueeze1 xs) (unsqueeze1 ys) = unsqueeze1 (zip_with (zip_with g) xs ys).
Proof.
  unfold zip3, unsqueeze1. revert ys.
  induction xs as [|x xs IH]; intros [|y ys]; cbn [map zip_with]; try reflexivity.
  now rewrite IH.
Qed.

Lemma shape3p_unsqueeze1 {A : Type} b t (x : list (list A)) :
  shape2 b t x -> shape3p b 1 t (unsqueeze1 x).
Proof.
  intros [Hb Hrows]. split; [unfold unsqueeze1; now rewrite length_map|].
  unfold unsqueeze1. apply Forall_map. revert Hrows. apply Forall_impl.
  intros r Hr. split; [reflexivity|]. constructor; [exact Hr|constructor].
Qed.

Lemma zip_with_ext_Forall {A B C : Type} (P : A -> Prop) (g g' : A -> B -> C) xs ys :
  Forall P xs -> (forall a c, P a -> g a c = g' a c) ->
  zip_with g xs ys = zip_with g' xs ys.
Proof.
  intros Hx H. revert ys.
  induction Hx as [|x xs Hp _ IH]; intros [|y ys]; cbn [zip_with]; auto.
  now rewrite H, IH.
Qed.

(** X3.  The logarithm that [forward] takes of the aligned durations is
    undone by [format_durations]: on [log(dr + 1)] of whole durations up to
    2 ^ 16, which float32 takes through the logarithm and the exponential
    with an error far below one half, and with length scale 1, it returns
    the durations themselves at the positions of the mask, except that a
    duration 0 comes back as 1, and 1 at the masked positions. *)
Theorem format_durations_of_log :
  forall b t (dr : list (list Z)) (mask : list (list bool)),
    shape2 b t dr -> shape2 b t mask ->
    Forall (Forall (fun k => (0 <= k <= 65536)%Z)) dr ->
    format_durations (Fin 1)
      (unsqueeze1 (map2d (fun k => duration_log (Fin (IZR k))) dr))
      (unsqueeze1 (map2d of_bool mask))
    = Ok (unsqueeze1
            (zip_with
               (zip_with (fun k (m : bool) => Fin (IZR (if m then Z.max k 1 else 1))))
               dr mask)).
Proof.
  intros b t dr mask Hdr Hmask Hpos.
  rewrite (format_durations_ok (Fin 1) b t)
    by (apply shape3p_unsqueeze1, shape2_map2d; assumption).
  rewrite zip3_unsqueeze1. do 2 f_equal.
  unfold map2d. rewrite zip_with_map_l, zip_with_map_r.
  apply (zip_with_ext_Forall (Forall (fun k => (0 <= k <= 65536)%Z)));
    [exact Hpos|].
  intros ks ms Hks. rewrite zip_with_map_l, zip_with_map_r.
  apply (zip_with_ext_Forall (fun k => (0 <= k <= 65536)%Z)); [exact Hks|].
  intros k m Hk. now apply duration_entry_of_log.
Qed.

Lemma format_durations_of_log_witness :
  format_durations (Fin 1)
    (unsqueeze1 (map2d (fun k => duration_log (Fin (IZR k))) [[3; 0; 2]; [1; 5; 0]]%Z))
    (unsqueeze1 (map2d of_bool [[true; true; true]; [true; true; false]]))
  = Ok [[[Fin 3; Fin 1; Fin 2]]; [[Fin 1; Fin 5; Fin 1]]].
Proof.
  apply (format_durations_of_log 2 3 [[3; 0; 2]; [1; 5; 0]]%Z
           [[true; true; true]; [true; true; false]]).
  - split; [reflexivity|]. repeat constructor.
  - split; [reflexivity|]. repeat constructor.
  - repeat constructor; lia.
Defined.

(** ** Results read back entry by entry *)

Lemma mapM_nth {A B : Type} (f : A -> py B) l r dx dr :
  mapM f l = Ok r ->
  length r = length l /\
  forall i, (i < length l)%nat -> f (nth i l dx) = Ok (nth i r dr).
Proof.
  revert r. induction l as [|a l IH]; intros r H; cbn [mapM] in H.
  - injection H as <-. split; [reflexivity|]. cbn [length]. lia.
  - destruct (f a) as [c|e] eqn:Hc; cbn [bind] in H; [|discriminate].
    destruct (mapM f l) as [cs|e] eqn:Hcs; cbn [bind] in H; [|discriminate].
    injection H as <-. destruct (IH cs eq_refl) as [Hl Hi].
    split; [cbn [length]; congruence|].
    intros [|i] Hlt; cbn [nth]; [exact Hc|]. apply Hi. cbn [length] in Hlt. lia.
Qed.

Lemma zipM_nth {A B C : Type} (f : A -> B -> py C) xs ys r dx dy dr :
  zipM f xs ys = Ok r -> length xs = length ys ->
  length r = length xs /\
  forall i, (i < length xs)%nat -> f (nth i xs dx) (nth i ys dy) = Ok (nth i r dr).
Proof.
  revert ys r. induction xs as [|x xs IH]; intros [|y ys] r H Hl;
    cbn [zipM length] in *; try discriminate.
  - injection H as <-. split; [reflexivity|]. lia.
  - destruct (f x y) as [c|e] eqn:Hc; cbn [bind] in H; [|discriminate].
    destruct (zipM f xs ys) as [cs|e] eqn:Hcs; cbn [bind] in H; [|discriminate].
    injection H as <-. destruct (IH ys cs Hcs ltac:(lia)) as [Hlen Hi].
    split; [cbn [length]; congruence|].
    intros [|i] Hlt; cbn [nth]; [exact Hc|]. apply Hi. lia.
Qed.

(** ** AlignTTS.compute_log_probs *)

(** Every entry of the result is the entry of [log_prob_entry] on the rows
    of the transposed arguments. *)
Lemma compute_log_probs_entries (Pm Ps Py : tval -> Prop)
  b d T_en T_dec (mu log_sigma y log_p : T3) :
  (1 <= d)%nat ->
  shape3p b d T_en mu -> shape3p b d T_en log_sigma -> shape3p b d T_dec y ->
  Forall (Forall (Forall Pm)) mu -> Forall (Forall (Forall Ps)) log_sigma ->
  Forall (Forall (Forall Py)) y ->
  compute_log_probs mu log_sigma y = Ok log_p ->
  forall i k j, (i < b)%nat -> (k < T_en)%nat -> (j < T_dec)%nat ->
    (length (nth k (nth i (permute021 mu) []) []) = d /\
     Forall Pm (nth k (nth i (permute021 mu) []) [])) /\
    (length (nth k (nth i (permute021 log_sigma) []) []) = d /\
     Forall Ps (nth k (nth i (permute021 log_sigma) []) [])) /\
    (length (nth j (nth i (permute021 y) []) []) = d /\
     Forall Py (nth j (nth i (permute021 y) []) [])) /\
    log_prob_entry (nth k (nth i (permute021 mu) []) [])
      (nth k (nth i (permute021 log_sigma) []) [])
      (nth j (nth i (permute021 y) []) [])
    = Ok (get3 log_p i k j).
Proof.
  intros Hd Hmu Hls Hy Hmf Hlf Hyf Hok.
  unfold compute_log_probs in Hok.
  destruct (permute021_rows Pm b d T_en mu Hd Hmu Hmf) as [Hml Hmr].
  destruct (permute021_rows Ps b d T_en log_sigma Hd Hls Hlf) as [Hsl Hsr].
  destruct (permute021_rows Py b d T_dec y Hd Hy Hyf) as [Hyl Hyr].
  set (mu' := permute021 mu) in *. set (ls' := permute021 log_sigma) in *.
  set (y' := permute021 y) in *.
  rewrite Forall_forall in Hmr, Hsr, Hyr.
  assert (Hms : same_size (same_size (fun (m s : T1) => Ok (m, s))) mu' ls'
                = Ok (zip_with (zip_with pair) mu' ls')).
  { rewrite same_size_same by congruence.
    apply zipM_ok, (Forall2_nth_intro _ [] []); [congruence|].
    intros i Hi. apply same_size_pure.
    destruct (Hmr (nth i mu' [])) as [-> _]; [apply nth_In; lia|].
    destruct (Hsr (nth i ls' [])) as [-> _]; [apply nth_In; lia|].
    reflexivity. }
  rewrite Hms in Hok. cbn [bind] in Hok.
  set (ms := zip_with (zip_with pair) mu' ls') in *.
  assert (Hmsl : length ms = b)
    by (unfold ms; rewrite zip_with_length; congruence).
  rewrite bcast_same in Hok by congruence.
  destruct (zipM_nth _ ms y' log_p [] [] [] Hok ltac:(congruence)) as [_ Hitem].
  intros i k j Hi Hk Hj.
  specialize (Hitem i ltac:(lia)). cbv beta in Hitem.
  destruct (Hmr (nth i mu' [])) as [Hm1 Hm2]; [apply nth_In; lia|].
  destruct (Hsr (nth i ls' [])) as [Hs1 Hs2]; [apply nth_In; lia|].
  destruct (Hyr (nth i y' [])) as [Hy1 Hy2]; [apply nth_In; lia|].
  rewrite Forall_forall in Hm2, Hs2, Hy2.
  split; [apply Hm2, nth_In; lia|]. split; [apply Hs2, nth_In; lia|].
  split; [apply Hy2, nth_In; lia|].
  assert (Hmsi : length (nth i ms []) = T_en).
  { unfold ms. rewrite (zip_with_nth _ [] [] []) by congruence.
    rewrite zip_with_length; congruence. }
  destruct (mapM_nth _ _ _ ([], []) [] Hitem) as [_ Hrow].
  specialize (Hrow k ltac:(lia)). cbv beta in Hrow.
  destruct (mapM_nth _ _ _ [] NaN Hrow) as [_ Hentry].
  specialize (Hentry j ltac:(lia)).
  unfold ms in Hentry.
  rewrite (zip_with_nth _ [] [] []) in Hentry by congruence.
  rewrite (zip_with_nth pair [] [] ([], [])) in Hentry by congruence.
  cbn [fst snd] in Hentry. exact Hentry.
Qed.

(** X4.  On tensors whose shapes agree, with between 1 and 256 feature
    channels, means and frames of magnitude up to 1024 and log standard
    deviations of magnitude up to 30, [compute_log_probs] does not raise
    and returns a (B, T_en, T_dec) tensor of reals: no operation leaves the
    range of float32, and no entry is infinite or [nan]. *)
Theorem compute_log_probs_real :
  forall b d T_en T_dec (mu log_sigma y : T3),
    (1 <= d)%nat -> (Z.of_nat d <= 256)%Z ->
    shape3p b d T_en mu -> shape3p b d T_en log_sigma -> shape3p b d T_dec y ->
    all_within3 1024 mu -> all_within3 30 log_sigma -> all_within3 1024 y ->
    exists log_p,
      compute_log_probs mu log_sigma y = Ok log_p /\
      shape3p b T_en T_dec log_p /\ all_fin3 log_p.
Proof.
  intros b d T_en T_dec mu log_sigma y.
  apply compute_log_probs_fin.
Qed.

Lemma compute_log_probs_real_witness :
  exists log_p,
    compute_log_probs [[[Fin 0; Fin 1]]] [[[Fin 0; Fin 0]]] [[[Fin 0; Fin 1; Fin 2]]]
    = Ok log_p /\
    shape3p 1 2 3 log_p /\ all_fin3 log_p.
Proof.
  apply (compute_log_probs_real 1 1 2 3);
    try (simpl; lia);
    try (split; [reflexivity|]; repeat constructor);
    try (apply all_within3_single; repeat constructor; eexists;
         (split; [reflexivity|lra])).
Defined.

(** X5.  Under the same conditions, entry [(i, k, j)] of the result of
    [compute_log_probs] is at most minus the halved mean of the log
    standard deviations of encoder position [k], the term that the last
    line subtracts, and it has that value when frame [j] equals the mean
    of position [k]: the score of a frame is largest at the mean. *)
Theorem compute_log_probs_upper_bound :
  forall b d T_en T_dec (mu log_sigma y : T3),
    (1 <= d)%nat -> (Z.of_nat d <= 256)%Z ->
    shape3p b d T_en mu -> shape3p b d T_en log_sigma -> shape3p b d T_dec y ->
    all_within3 1024 mu -> all_within3 30 log_sigma -> all_within3 1024 y ->
    exists log_p,
      compute_log_probs mu log_sigma y = Ok log_p /\
      forall i k j, (i < b)%nat -> (k < T_en)%nat -> (j < T_dec)%nat ->
        exists r h,
          get3 log_p i k j = Fin r /\
          rng (tmul (Fin (/ 2))
                 (tmean (nth k (nth i (permute021 log_sigma) []) []))) = Fin h /\
          r <= - h /\
          (nth j (nth i (permute021 y) []) [] = nth k (nth i (permute021 mu) []) [] ->
           r = - h).
Proof.
  intros b d T_en T_dec mu log_sigma y Hd Hd' Hmu Hls Hy Hmf Hlf Hyf.
  destruct (compute_log_probs_fin b d T_en T_dec mu log_sigma y
              Hd Hd' Hmu Hls Hy Hmf Hlf Hyf) as (log_p & Hok & _ & _).
  exists log_p. split; [exact Hok|]. intros i k j Hi Hk Hj.
  destruct (compute_log_probs_entries (within 1024) (within 30) (within 1024)
              b d T_en T_dec mu log_sigma y log_p Hd Hmu Hls Hy Hmf Hlf Hyf
              Hok i k j Hi Hk Hj)
    as ([Hm1 Hm2] & [Hs1 Hs2] & [Hy1 Hy2] & Hentry).
  destruct (log_prob_entry_in_range d _ _ _ Hd Hd' Hm1 Hm2 Hs1 Hs2 Hy1 Hy2)
    as (r & h & Hr & Hh & Hle & Heq).
  exists r, h. rewrite Hr in Hentry. injection Hentry as <-.
  repeat split; assumption.
Qed.

Lemma compute_log_probs_upper_bound_witness :
  exists log_p,
    compute_log_probs [[[Fin 0; Fin 1]]] [[[Fin 0; Fin 0]]] [[[Fin 0; Fin 1; Fin 2]]]
    = Ok log_p /\
    forall i k j, (i < 1)%nat -> (k < 2)%nat -> (j < 3)%nat ->
      exists r h,
        get3 log_p i k j = Fin r /\
        rng (tmul (Fin (/ 2))
               (tmean (nth k (nth i (permute021 [[[Fin 0; Fin 0]]]) []) [])))
        = Fin h /\
        r <= - h /\
        (nth j (nth i (permute021 [[[Fin 0; Fin 1; Fin 2]]]) []) []
         = nth k (nth i (permute021 [[[Fin 0; Fin 1]]]) []) [] ->
         r = - h).
Proof.
  apply (compute_log_probs_upper_bound 1 1 2 3);
    try (simpl; lia);
    try (split; [reflexivity|]; repeat constructor);
    try (apply all_within3_single; repeat constructor; eexists;
         (split; [reflexivity|lra])).
Defined.

(** ** HMM._mask_lengths *)

Lemma tmul_one_r v : tmul v (Fin 1) = v.
Proof.
  destruct v as [x| | |]; cbn [tmul]; unfold inf_times;
    rewrite ?Reqb_false, ?Rltb_true by lra; try reflexivity.
  f_equal. lra.
Qed.

Lemma tmul_zero_r v :
  tmul v (Fin 0) = match v with Fin _ => Fin 0 | _ => NaN end.
Proof.
  destruct v as [x| | |]; cbn [tmul]; unfold inf_times;
    rewrite ?Reqb_true by reflexivity; try reflexivity.
  f_equal. lra.
Qed.

(** X6.  On a batch whose longest item fills the frame axis,
    [_mask_lengths] leaves every entry of [log_c] and of
    [self.log_alpha_scaled] at a valid frame as it is, infinite entries
    included, and sets every real entry at a frame beyond the item's length
    to zero; an entry there that is not real becomes [nan]. *)
Theorem mask_lengths_valid_frames_kept :
  forall B T N self (lens : list Z) (log_c : T2),
    shape2 B T log_c -> shape3p B T N (self_log_alpha_scaled self) ->
    length lens = B -> Z.to_nat (zmax_list lens) = T ->
    exists log_c' self',
      _mask_lengths self lens log_c = Ok (log_c', self') /\
      (forall b t, (b < B)%nat -> (t < T)%nat -> (Z.of_nat t < nth b lens 0)%Z ->
         get2 log_c' b t = get2 log_c b t /\
         forall i, (i < N)%nat ->
           get3 (self_log_alpha_scaled self') b t i
           = get3 (self_log_alpha_scaled self) b t i) /\
      (forall b t, (b < B)%nat -> (t < T)%nat -> (nth b lens 0 <= Z.of_nat t)%Z ->
         get2 log_c' b t
         = match get2 log_c b t with Fin _ => Fin 0 | _ => NaN end /\
         forall i, (i < N)%nat ->
           get3 (self_log_alpha_scaled self') b t i
           = match get3 (self_log_alpha_scaled self) b t i with
             | Fin _ => Fin 0
             | _ => NaN
             end).
Proof.
  intros B T N self lens log_c Hc Hl Hlens Hmax.
  destruct (mask_lengths_entries B T N self lens log_c Hc Hl Hlens Hmax)
    as (log_c' & self' & Hok & Hlc & Hlas).
  exists log_c', self'. split; [exact Hok|]. split.
  - intros b t Hb Ht Hvalid.
    assert (Hm : (Z.of_nat t <? nth b lens 0)%Z = true) by now apply Z.ltb_lt.
    split.
    + rewrite Hlc, Hm by assumption. apply tmul_one_r.
    + intros i Hi. rewrite Hlas, Hm by assumption. apply tmul_one_r.
  - intros b t Hb Ht Hmasked.
    assert (Hm : (Z.of_nat t <? nth b lens 0)%Z = false) by now apply Z.ltb_ge.
    split.
    + rewrite Hlc, Hm by assumption. apply tmul_zero_r.
    + intros i Hi. rewrite Hlas, Hm by assumption. apply tmul_zero_r.
Qed.

Lemma mask_lengths_valid_frames_kept_witness :
  exists log_c' self',
    _mask_lengths masking_example [2; 1]%Z [[Fin (-1); Fin (-1)]; [Fin (-1); Fin (-1)]]
    = Ok (log_c', self') /\
    (forall b t, (b < 2)%nat -> (t < 2)%nat -> (Z.of_nat t < nth b [2; 1]%Z 0)%Z ->
       get2 log_c' b t = get2 [[Fin (-1); Fin (-1)]; [Fin (-1); Fin (-1)]] b t /\
       forall i, (i < 2)%nat ->
         get3 (self_log_alpha_scaled self') b t i
         = get3 (self_log_alpha_scaled masking_example) b t i) /\
    (forall b t, (b < 2)%nat -> (t < 2)%nat -> (nth b [2; 1]%Z 0 <= Z.of_nat t)%Z ->
       get2 log_c' b t
       = match get2 [[Fin (-1); Fin (-1)]; [Fin (-1); Fin (-1)]] b t with
         | Fin _ => Fin 0
         | _ => NaN
         end /\
       forall i, (i < 2)%nat ->
         get3 (self_log_alpha_scaled self') b t i
         = match get3 (self_log_alpha_scaled masking_example) b t i with
           | Fin _ => Fin 0
           | _ => NaN
           end).
Proof.
  apply (mask_lengths_valid_frames_kept 2 2 2 masking_example [2; 1]%Z
           [[Fin (-1); Fin (-1)]; [Fin (-1); Fin (-1)]]).
  - split; [reflexivity|]. repeat constructor.
  - split; [reflexivity|]. repeat constructor.
  - reflexivity.
  - reflexivity.
Defined.

Lemma mask_lengths_log_c B T self (lens : list Z) (log_c log_c' : T2) self' :
  shape2 B T log_c -> length lens = B -> Z.to_nat (zmax_list lens) = T ->
  _mask_lengths self lens log_c = Ok (log_c', self') ->
  forall b, (b < B)%nat ->
    nth b log_c' []
    = zip_with tmul (nth b log_c []) (map of_bool (mask_row (nth b lens 0%Z) T)).
Proof.
  intros Hc Hlens Hmax H b Hb. unfold _mask_lengths in H.
  rewrite sequence_mask_default in H.
  set (mask := sequence_mask lens (Some (zmax_list lens))) in *.
  assert (Hm : shape2 B T mask).
  { unfold mask. rewrite <- Hlens, <- Hmax. apply sequence_mask_shape. }
  rewrite (ew2_same tmul B T) in H by (try apply shape2_map2d; assumption).
  cbn [bind] in H.
  destruct (ew3 tmul _ _) as [las|e]; cbn [bind] in H; [|discriminate].
  injection H as <- _.
  destruct Hc as [Hcb Hcr]. destruct Hm as [Hmb Hmr].
  rewrite (zip_with_nth _ [] [] []) by (unfold map2d; rewrite ?length_map; lia).
  f_equal. rewrite map2d_nth. f_equal.
  unfold mask, sequence_mask, mask_row. rewrite Hmax.
  now rewrite (map_nth_lt _ _ _ 0%Z) by lia.
Qed.

(** X7.  After [_mask_lengths], the sum over the frame axis that [forward]
    takes of [log_c] is, for every item of a real [log_c], the sum of the
    entries of its valid frames only. *)
Theorem mask_lengths_sum_over_valid_frames :
  forall B T N self (lens : list Z) (log_c : T2),
    shape2 B T log_c -> shape3p B T N (self_log_alpha_scaled self) ->
    length lens = B -> Z.to_nat (zmax_list lens) = T ->
    Forall (Forall is_fin) log_c ->
    exists log_c' self',
      _mask_lengths self lens log_c = Ok (log_c', self') /\
      forall b, (b < B)%nat ->
        nth b (map tsum log_c') NaN
        = tsum (firstn (Z.to_nat (nth b lens 0%Z)) (nth b log_c [])).
Proof.
  intros B T N self lens log_c Hc Hl Hlens Hmax Hfin.
  destruct (mask_lengths_entries B T N self lens log_c Hc Hl Hlens Hmax)
    as (log_c' & self' & Hok & Hlc & _).
  exists log_c', self'. split; [exact Hok|]. intros b Hb.
  pose proof (mask_lengths_log_c B T self lens log_c log_c' self'
                Hc Hlens Hmax Hok) as Hrow.
  assert (Hlen' : length log_c' = B).
  { unfold _mask_lengths in Hok. rewrite sequence_mask_default in Hok.
    rewrite (ew2_same tmul B T) in Hok.
    - cbn [bind] in Hok.
      destruct (ew3 tmul _ _) as [las|e]; cbn [bind] in Hok; [|discriminate].
      injection Hok as <- _. destruct Hc as [Hcb _].
      rewrite zip_with_length; unfold map2d; rewrite ?length_map; [lia|].
      unfold sequence_mask. rewrite length_map. lia.
    - exact Hc.
    - apply shape2_map2d. rewrite <- Hlens, <- Hmax. apply sequence_mask_shape. }
  rewrite (map_nth_lt tsum _ _ []) by lia.
  rewrite (Hrow b Hb).
  assert (Hrl : length (nth b log_c []) = T) by now apply (shape2_row B T).
  rewrite <- Hrl. apply masked_row_sum.
  rewrite Forall_forall in Hfin. apply Hfin, nth_In. destruct Hc; lia.
Qed.

Lemma mask_lengths_sum_over_valid_frames_witness :
  exists log_c' self',
    _mask_lengths masking_example [2; 1]%Z [[Fin (-1); Fin (-1)]; [Fin (-1); Fin (-1)]]
    = Ok (log_c', self') /\
    forall b, (b < 2)%nat ->
      nth b (map tsum log_c') NaN
      = tsum (firstn (Z.to_nat (nth b [2; 1]%Z 0%Z))
                (nth b [[Fin (-1); Fin (-1)]; [Fin (-1); Fin (-1)]] [])).
Proof.
  apply (mask_lengths_sum_over_valid_frames 2 2 2 masking_example [2; 1]%Z
           [[Fin (-1); Fin (-1)]; [Fin (-1); Fin (-1)]]).
  - split; [reflexivity|]. repeat constructor.
  - split; [reflexivity|]. repeat constructor.
  - reflexivity.
  - reflexivity.
  - repeat constructor.
Defined.

(** ** TransitionModel.forward: further properties *)

Lemma log_clamped_sigmoid_fin eps x :
  exists q, log_clamped eps (sigmoid (Fin x)) = Fin q.
Proof.
  pose proof (sigmoid_range x) as Hp. cbn [sigmoid]. unfold log_clamped, clamp_min.
  exists (ln (Rmax (/ (1 + exp (- x))) eps)). apply tlog_pos.
  apply Rlt_le_trans with (/ (1 + exp (- x))); [lra | apply Rmax_l].
Qed.

(** X8.  The states are left one at a time: for an item with real
    transition logits whose previous scaled log-alpha is [-inf] from state
    [k] on, the returned row is [-inf] from state [k + 1] on. *)
Theorem TransitionModel_forward_no_skip :
  forall eps b n las tv lens i k,
    transition_batch b n las tv lens ->
    (i < b)%nat ->
    Forall is_fin (nth i tv []) ->
    (forall j, (k <= j < n)%nat -> get2 las i j = NInf) ->
    exists out,
      TransitionModel_forward eps las tv lens = Ok out /\
      forall j, (k < j < n)%nat -> get2 out i j = NInf.
Proof.
  intros eps b n las tv lens i k H Hi Htv Hprev.
  eexists. split; [exact (TransitionModel_forward_ok eps b n las tv lens H)|].
  intros j Hj. rewrite (out_entry eps b n) by (auto; lia).
  unfold transition_entry.
  destruct (Z.of_nat j <? nth i lens 0%Z)%Z; [|reflexivity].
  destruct j as [|j']; [lia|].
  assert (Hrow : length (nth i tv []) = n) by (apply (shape2_row b n); auto; apply H).
  rewrite Forall_forall in Htv.
  assert (Hf : forall j, (j < n)%nat -> exists x, nth j (nth i tv []) NaN = Fin x).
  { intros j Hjn. specialize (Htv (nth j (nth i tv []) NaN) ltac:(apply nth_In; lia)).
    destruct (nth j (nth i tv []) NaN); try contradiction. eauto. }
  destruct (Hf (S j') ltac:(lia)) as (x & ->).
  destruct (Hf j' ltac:(lia)) as (x' & ->).
  pose proof (Hprev (S j') ltac:(lia)) as H1.
  pose proof (Hprev j' ltac:(lia)) as H2.
  unfold get2 in H1, H2. rewrite H1, H2. cbn [tneg].
  destruct (log_clamped_sigmoid_fin eps (- x)) as (q & ->).
  destruct (log_clamped_sigmoid_fin eps x') as (q' & ->).
  cbn [tadd]. apply logsumexp_all_neg_inf. repeat constructor.
Qed.

Lemma TransitionModel_forward_no_skip_witness :
  exists out,
    TransitionModel_forward (/ 10000) [[Fin 0; NInf; NInf]]
      [[Fin 1; Fin (-1); Fin 0]] [3%Z] = Ok out /\
    forall j, (1 < j < 3)%nat -> get2 out 0 j = NInf.
Proof.
  apply (TransitionModel_forward_no_skip (/ 10000) 1 3 [[Fin 0; NInf; NInf]]
           [[Fin 1; Fin (-1); Fin 0]] [3%Z] 0 1).
  - repeat split; simpl; repeat constructor.
  - lia.
  - repeat constructor.
  - intros j Hj. destruct j as [|[|[|j]]]; try lia; reflexivity.
Defined.

(** X9.  With no state at all (an empty state axis) and at least one item,
    [TransitionModel.forward] raises [IndexError]: [leaving[:, 0]] has no
    entry to assign. *)
Theorem TransitionModel_forward_no_state :
  forall eps b las tv lens,
    (1 <= b)%nat -> shape2 b 0 las -> shape2 b 0 tv ->
    TransitionModel_forward eps las tv lens = Raise IndexError.
Proof.
  intros eps b las tv lens Hb Hlas Htv. unfold TransitionModel_forward.
  unfold TransitionModel_staying.
  rewrite (ew2_same tadd b 0) by (repeat apply shape2_map2d; assumption).
  cbn [bind]. unfold TransitionModel_leaving.
  rewrite (ew2_same tadd b 0) by (repeat apply shape2_map2d; assumption).
  cbn [bind].
  destruct Hlas as [Hlb Hlr]. destruct Htv as [Htb Htr].
  destruct las as [|r las]; [cbn [length] in Hlb; lia|].
  destruct tv as [|r' tv]; [cbn [length] in Htb; lia|].
  apply Forall_inv in Hlr. destruct r; [|discriminate].
  reflexivity.
Qed.

Lemma TransitionModel_forward_no_state_witness :
  TransitionModel_forward (/ 10000) [[]] [[]] [0%Z] = Raise IndexError.
Proof.
  apply (TransitionModel_forward_no_state (/ 10000) 1 [[]] [[]] [0%Z]).
  - lia.
  - split; [reflexivity|]. repeat constructor.
  - split; [reflexivity|]. repeat constructor.
Defined.

(** ** HMM._add_go_token and HMM._process_ar_timestep *)

Lemma zip_with_repeat_l {A B C : Type} (g : A -> B -> C) x ys :
  zip_with g (repeat x (length ys)) ys = map (g x) ys.
Proof.
  induction ys as [|y ys IH]; [reflexivity|]. cbn [length repeat zip_with map].
  now rewrite IH.
Qed.

(** The input of the autoregression: the go tokens, then the frames, cut to
    the number of frames. *)
Lemma add_go_token_ok frame_channels ar_order (mel_inputs : T3) :
  nth 2 (shape3 mel_inputs) 0%nat = frame_channels ->
  _add_go_token frame_channels ar_order mel_inputs
  = Ok (map (fun m => firstn (length (hd [] mel_inputs))
                        (zeros2 ar_order frame_channels ++ m)) mel_inputs).
Proof.
  intros Hd. unfold _add_go_token. cbn [unpack3 shape3 bind nth].
  cbn [shape3 nth] in Hd. rewrite Hd, Nat.eqb_refl.
  unfold zeros3. rewrite same_size_pure by now rewrite repeat_length.
  now rewrite zip_with_repeat_l.
Qed.

(** The frames from [t] on, [a] of them, of a list cut to [n] entries that
    starts with [a] entries [g]: only the entries of [m] before [t] are
    read. *)
Lemma window_prefix {A : Type} (g m : list A) a t n :
  length g = a ->
  firstn a (skipn t (firstn n (g ++ m)))
  = skipn t (firstn n (g ++ firstn t m)).
Proof.
  intros Hg. rewrite firstn_skipn_comm, firstn_firstn.
  rewrite Nat.min_comm, <- firstn_firstn. f_equal. f_equal.
  rewrite firstn_app, Hg.
  rewrite firstn_all2 by lia. f_equal. f_equal. lia.
Qed.

Lemma zeros2_length b n : length (zeros2 b n) = b.
Proof. unfold zeros2. apply repeat_length. Qed.

(** X10.  Teacher forcing is causal: when two batches of frames of one
    shape agree, item by item, on the frames before [t], step [t] of the
    autoregression gives the same memory states for both; frame [t] and
    the later frames are not read. *)
Theorem process_ar_timestep_causal :
  forall frame_channels ar_order prenet memory_rnn t
         (mel1 mel2 ar1 ar2 : T3) h_memory c_memory,
    shape3 mel1 = shape3 mel2 ->
    Forall2 (fun m1 m2 => firstn t m1 = firstn t m2) mel1 mel2 ->
    _add_go_token frame_channels ar_order mel1 = Ok ar1 ->
    _add_go_token frame_channels ar_order mel2 = Ok ar2 ->
    _process_ar_timestep ar_order prenet memory_rnn t ar1 h_memory c_memory
    = _process_ar_timestep ar_order prenet memory_rnn t ar2 h_memory c_memory.
Proof.
  intros fc a prenet memory_rnn t mel1 mel2 ar1 ar2 h c Hshape Hpre H1 H2.
  assert (Hd1 : nth 2 (shape3 mel1) 0%nat = fc).
  { unfold _add_go_token in H1. cbn [unpack3 shape3 bind nth] in H1.
    cbn [shape3 nth].
    destruct (Nat.eqb_spec (length (hd [] (hd [] mel1))) fc) as [->|];
      [reflexivity|discriminate]. }
  assert (Hd2 : nth 2 (shape3 mel2) 0%nat = fc) by now rewrite <- Hshape.
  rewrite add_go_token_ok in H1, H2 by assumption.
  injection H1 as <-. injection H2 as <-.
  assert (HT : length (hd [] mel1) = length (hd [] mel2))
    by (unfold shape3 in Hshape; congruence).
  rewrite <- HT. unfold _process_ar_timestep. do 2 f_equal.
  rewrite !map_map. generalize (length (hd [] mel1)). intros T.
  clear - Hpre.
  induction Hpre as [|m1 m2 l1 l2 Hm _ IH]; [reflexivity|].
  cbn [map]. f_equal; [|exact IH].
  rewrite !window_prefix by apply zeros2_length. now rewrite Hm.
Qed.

Lemma process_ar_timestep_causal_witness :
  _process_ar_timestep 1 (fun x => x) (fun x s => (x, snd s)) 1
    [[[Fin 0]; [Fin 1]; [Fin 2]]] [[Fin 0]] [[Fin 0]]
  = _process_ar_timestep 1 (fun x => x) (fun x s => (x, snd s)) 1
      [[[Fin 0]; [Fin 1]; [Fin 5]]] [[Fin 0]] [[Fin 0]].
Proof.
  apply (process_ar_timestep_causal 1 1 (fun x => x) (fun x s => (x, snd s)) 1
           [[[Fin 1]; [Fin 2]; [Fin 3]]] [[[Fin 1]; [Fin 5]; [Fin 7]]]).
  - reflexivity.
  - repeat constructor.
  - reflexivity.
  - reflexivity.
Defined.

Lemma Forall_skipn_of {A : Type} (P : A -> Prop) n (l : list A) :
  Forall P l -> Forall P (skipn n l).
Proof.
  intros H. revert n. induction H as [|a l Ha Hl IH]; intros [|n]; cbn [skipn];
    auto.
Qed.

Lemma concat_length_const {A : Type} n (l : list (list A)) :
  Forall (fun r => length r = n) l -> length (concat l) = (length l * n)%nat.
Proof.
  induction 1 as [|r l Hr _ IH]; [reflexivity|].
  cbn [concat length]. rewrite length_app, IH, Hr. lia.
Qed.

(** X11.  The frames that [_process_ar_timestep] hands to the prenet at
    step [t]: for frames of shape (B, T, frame_channels) there are
    [min ar_order (T - t)] of them per item, so that the flattened rows
    are shorter than [ar_order] frames at the last [ar_order - 1] steps. *)
Theorem process_ar_timestep_window :
  forall B T frame_channels ar_order t (mel_inputs : T3),
    (1 <= B)%nat -> (1 <= T)%nat ->
    shape3p B T frame_channels mel_inputs ->
    exists ar_inputs prenet_input,
      _add_go_token frame_channels ar_order mel_inputs = Ok ar_inputs /\
      (forall prenet memory_rnn h_memory c_memory,
         _process_ar_timestep ar_order prenet memory_rnn t ar_inputs
           h_memory c_memory
         = memory_rnn (prenet prenet_input) (h_memory, c_memory)) /\
      length prenet_input = B /\
      Forall (fun r => length r = (Nat.min ar_order (T - t) * frame_channels)%nat)
        prenet_input.
Proof.
  intros B T fc a t mel HB HT [Hb Hitems].
  assert (Hhd : shape2 T fc (hd [] mel)).
  { destruct mel as [|m mel]; [cbn [length] in Hb; lia|].
    cbn [hd]. now apply Forall_inv in Hitems. }
  assert (Hd : nth 2 (shape3 mel) 0%nat = fc).
  { cbn [shape3 nth]. destruct Hhd as [Hl Hr].
    destruct (hd [] mel) as [|r m]; [cbn [length] in Hl; lia|].
    cbn [hd]. now apply Forall_inv in Hr. }
  eexists. eexists. split; [apply add_go_token_ok; exact Hd|].
  split; [intros; reflexivity|].
  split; [now rewrite !length_map|].
  rewrite map_map. apply Forall_map.
  destruct Hhd as [-> _].
  eapply Forall_impl; [|exact Hitems].
  intros m [Hm Hrows].
  assert (Hall : Forall (fun r : T1 => length r = fc)
                   (firstn a (skipn t (firstn T (zeros2 a fc ++ m))))).
  { apply Forall_firstn_of, Forall_skipn_of, Forall_firstn_of, Forall_app.
    split; [|exact Hrows].
    unfold zeros2. apply Forall_forall. intros r Hr.
    apply repeat_spec in Hr. subst r. apply repeat_length. }
  assert (Hlen : length (firstn a (skipn t (firstn T (zeros2 a fc ++ m))))
                 = Nat.min a (T - t)).
  { rewrite length_firstn, length_skipn, length_firstn, length_app, zeros2_length.
    lia. }
  rewrite <- Hlen. now apply concat_length_const.
Qed.

Lemma process_ar_timestep_window_witness :
  exists ar_inputs prenet_input,
    _add_go_token 1 2 [[[Fin 1]; [Fin 2]; [Fin 3]]] = Ok ar_inputs /\
    (forall prenet memory_rnn h_memory c_memory,
       _process_ar_timestep 2 prenet memory_rnn 2 ar_inputs h_memory c_memory
       = memory_rnn (prenet prenet_input) (h_memory, c_memory)) /\
    length prenet_input = 1%nat /\
    Forall (fun r => length r = (Nat.min 2 (3 - 2) * 1)%nat) prenet_input.
Proof.
  apply (process_ar_timestep_window 1 3 1 2 2 [[[Fin 1]; [Fin 2]; [Fin 3]]]).
  - lia.
  - lia.
  - split; [reflexivity|]. repeat constructor.
Defined.

(** ** HMM._initialize_log_state_priors *)

(** X12.  The initial state distribution puts all its mass on state 0: with
    at least one state the vector has one entry per state, 0 at state 0 and
    [-inf] elsewhere, and its log-sum-exp is 0 (total probability 1); with
    no state the assignment to entry 0 raises [IndexError]. *)
Theorem initialize_log_state_priors_point_mass :
  forall self,
    (self_N self = 0%nat /\ _initialize_log_state_priors self = Raise IndexError)
    \/ exists priors,
         _initialize_log_state_priors self = Ok priors /\
         length priors = self_N self /\
         nth 0 priors NaN = Fin 0 /\
         (forall i, (1 <= i < self_N self)%nat -> nth i priors NaN = NInf) /\
         logsumexp priors = Fin 0.
Proof.
  intros self. unfold _initialize_log_state_priors.
  destruct (self_N self) as [|n]; [left; split; reflexivity|].
  right. exists (Fin 0 :: repeat NInf n). split; [reflexivity|].
  split; [cbn [length]; now rewrite repeat_length|].
  split; [reflexivity|]. split.
  - intros [|i] Hi; [lia|]. cbn [nth]. apply nth_repeat_lt. lia.
  - unfold logsumexp, tsum. cbn [map fold_right texp].
    change (fold_right tadd (Fin 0) (map texp (repeat NInf n)))
      with (tsum (map texp (repeat NInf n))).
    rewrite tsum_zeros.
    + cbn [tadd]. rewrite exp_0, tlog_pos by lra. f_equal.
      replace (1 + 0) with 1 by lra. apply ln_1.
    + apply Forall_map, Forall_forall. intros v Hv.
      apply repeat_spec in Hv. now subst v.
Qed.

(** ** HMM.get_absorption_state_scaling_factor: the value and the errors *)

Lemma skipn_nth_cons {A : Type} (d : A) k (l : list A) :
  (k < length l)%nat -> skipn k l = nth k l d :: skipn (S k) l.
Proof.
  revert k. induction l as [|a l IH]; intros [|k] H; cbn [length] in H; try lia.
  - reflexivity.
  - cbn [skipn nth]. change (skipn (S k) l) with (skipn (S k) l).
    rewrite (IH k) by lia. reflexivity.
Qed.

Lemma gather_entry_ok (xb : T2) i t :
  (0 <= t)%Z -> (Z.to_nat t < length xb)%nat ->
  (i < length (nth (Z.to_nat t) xb []))%nat ->
  gather_entry xb i t = Ok (nth i (nth (Z.to_nat t) xb []) NaN).
Proof.
  intros Ht Hlt Hi. unfold gather_entry.
  destruct (Z.ltb_spec t 0) as [|_]; [lia|].
  rewrite (nth_error_nth' xb [] Hlt).
  now rewrite (nth_error_nth' _ NaN Hi).
Qed.

Lemma gather_row_from (xb : T2) t n : forall k,
  (0 <= t)%Z -> (Z.to_nat t < length xb)%nat ->
  (k + n <= length (nth (Z.to_nat t) xb []))%nat ->
  zipM (gather_entry xb) (seq k n) (repeat t n)
  = Ok (firstn n (skipn k (nth (Z.to_nat t) xb []))).
Proof.
  induction n as [|n IH]; intros k Ht Hlt Hk; [reflexivity|].
  cbn [seq repeat zipM]. rewrite gather_entry_ok by (auto; lia).
  cbn [bind]. rewrite IH by (auto; lia). cbn [bind].
  rewrite (skipn_nth_cons NaN k) by lia. reflexivity.
Qed.

Lemma gather_row (xb : T2) t n :
  (0 <= t)%Z -> (Z.to_nat t < length xb)%nat ->
  length (nth (Z.to_nat t) xb []) = n ->
  zipM (gather_entry xb) (seq 0 n) (repeat t n) = Ok (nth (Z.to_nat t) xb []).
Proof.
  intros Ht Hlt Hn. rewrite gather_row_from by (auto; lia).
  cbn [skipn]. now rewrite firstn_all2 by lia.
Qed.

(** The gather of the last valid frame of every item. *)
Lemma gather_last_items T N (x : T3) : forall mels_len : list Z,
  Forall (shape2 T N) x ->
  Forall (fun l => (1 <= l <= Z.of_nat T)%Z) mels_len ->
  zipM (fun xb ib =>
          mapM (fun irow => zipM (gather_entry xb) (seq 0 (length irow)) irow) ib)
       x (map (fun l => [repeat (l - 1)%Z N]) mels_len)
  = Ok (zip_with (fun xb l => [nth (Z.to_nat (l - 1)) xb []]) x mels_len).
Proof.
  induction x as [|xb x IH]; intros [|l ls] Hx Hls; cbn [map zipM zip_with];
    try reflexivity.
  apply Forall_inv in Hx as Hxb. apply Forall_inv_tail in Hx.
  apply Forall_inv in Hls as Hl. apply Forall_inv_tail in Hls.
  destruct Hxb as [Hxl Hxr].
  cbn [mapM]. rewrite repeat_length, gather_row.
  - cbn [bind]. rewrite (IH ls Hx Hls). reflexivity.
  - lia.
  - lia.
  - rewrite Forall_forall in Hxr. apply Hxr, nth_In. lia.
Qed.

Lemma gather_last B T N (x : T3) (mels_len : list Z) :
  shape3p B T N x -> length mels_len = B ->
  Forall (fun l => (1 <= l <= Z.of_nat T)%Z) mels_len ->
  gather1 x (map (fun l => [repeat (l - 1)%Z N]) mels_len)
  = Ok (zip_with (fun xb l => [nth (Z.to_nat (l - 1)) xb []]) x mels_len).
Proof.
  intros [Hb Hitems] Hl Hlens. unfold gather1.
  rewrite same_size_same by (rewrite length_map; congruence).
  now apply (gather_last_items T N).
Qed.

Lemma squeeze1_zip_with {A B C : Type} (g : A -> B -> list C) xs ys :
  squeeze1 (zip_with (fun a c => [g a c]) xs ys) = zip_with g xs ys.
Proof.
  unfold squeeze1. rewrite map_zip_with. reflexivity.
Qed.

Lemma last_frame_shape B T N (x : T3) (mels_len : list Z) :
  shape3p B T N x -> length mels_len = B ->
  Forall (fun l => (1 <= l <= Z.of_nat T)%Z) mels_len ->
  shape2 B N (zip_with (fun xb l => nth (Z.to_nat (l - 1)) xb []) x mels_len).
Proof.
  intros [Hb Hitems] Hl Hlens. split; [rewrite zip_with_length; lia|].
  apply (Forall_zip_with (shape2 T N) (fun l => (1 <= l <= Z.of_nat T)%Z)); auto.
  intros xb l [Hxl Hxr] Hl1. rewrite Forall_forall in Hxr.
  apply Hxr, nth_In. lia.
Qed.

(** The sum of a row that is 0 everywhere but at one place. *)
Lemma tsum_one_hot (row : T1) : forall k,
  (k < length row)%nat ->
  (forall i, (i < length row)%nat -> i <> k -> nth i row NaN = Fin 0) ->
  match nth k row NaN with
  | Fin y => exists s, tsum row = Fin s /\ s = y
  | other => tsum row = other
  end.
Proof.
  induction row as [|a row IH]; intros k Hk Hz; cbn [length] in Hk; [lia|].
  destruct k as [|k].
  - assert (Hrest : tsum row = Fin 0).
    { apply tsum_zeros, Forall_forall. intros v Hv.
      destruct (In_nth _ _ NaN Hv) as (i & Hi & <-).
      apply (Hz (S i)); cbn [length]; lia. }
    cbn [nth]. unfold tsum in *. cbn [fold_right]. rewrite Hrest.
    destruct a as [y| | |]; cbn [tadd]; try reflexivity.
    eexists. split; [reflexivity|lra].
  - assert (Ha : a = Fin 0) by (apply (Hz 0%nat); cbn [length]; lia).
    subst a. cbn [nth].
    specialize (IH k ltac:(lia)).
    assert (Hz' : forall i, (i < length row)%nat -> i <> k -> nth i row NaN = Fin 0).
    { intros i Hi Hne. apply (Hz (S i)); cbn [length]; lia. }
    specialize (IH Hz'). unfold tsum in *. cbn [fold_right].
    destruct (nth k row NaN) as [y| | |].
    + destruct IH as (s & -> & Hs). cbn [tadd]. eexists. split; [reflexivity|lra].
    + rewrite IH. reflexivity.
    + rewrite IH. reflexivity.
    + rewrite IH. reflexivity.
Qed.

(** The log-sum-exp of a row that is [-inf] everywhere but at one place is
    the entry at that place, whatever it is. *)
Lemma logsumexp_one_hot (row : T1) k :
  (k < length row)%nat ->
  (forall i, (i < length row)%nat -> i <> k -> nth i row NaN = NInf) ->
  logsumexp row = nth k row NaN.
Proof.
  intros Hk Hz. unfold logsumexp.
  pose proof (tsum_one_hot (map texp row) k) as H.
  rewrite length_map in H. specialize (H Hk).
  assert (Hz' : forall i, (i < length row)%nat -> i <> k ->
                  nth i (map texp row) NaN = Fin 0).
  { intros i Hi Hne. rewrite (map_nth_lt texp _ _ NaN) by exact Hi.
    now rewrite Hz. }
  specialize (H Hz'). rewrite (map_nth_lt texp _ _ NaN) in H by exact Hk.
  destruct (nth k row NaN) as [x| | |]; cbn [texp] in H.
  - destruct H as (s & -> & ->). rewrite tlog_pos by apply exp_pos.
    now rewrite ln_exp.
  - now rewrite H.
  - destruct H as (s & -> & ->). apply tlog_zero.
  - now rewrite H.
Qed.

Lemma shape3p_third {A : Type} B T N (x : list (list (list A))) :
  (1 <= B)%nat -> (1 <= T)%nat -> shape3p B T N x ->
  nth 2 (shape3 x) 0%nat = N.
Proof.
  intros HB HT [Hb Hitems]. cbn [shape3 nth].
  destruct x as [|m x]; [cbn [length] in Hb; lia|].
  apply Forall_inv in Hitems. destruct Hitems as [Hl Hr]. cbn [hd].
  destruct m as [|r m]; [cbn [length] in Hl; lia|].
  cbn [hd]. now apply Forall_inv in Hr.
Qed.

Lemma last_index_shape (inputs_len : list Z) N :
  shape2 (length inputs_len) N
    (map (fun l => map (fun i => (Z.of_nat i =? l - 1)%Z) (seq 0 N)) inputs_len).
Proof.
  split; [now rewrite length_map|].
  apply Forall_map, Forall_forall. intros l _. now rewrite length_map, length_seq.
Qed.

(** [final_log_c] on a well-shaped batch, entry by entry. *)
Lemma absorption_final_log_c_entries eps self B T N mels_len (las : T3) inputs_len :
  (1 <= B)%nat -> (1 <= T)%nat ->
  shape3p B T N las -> shape3p B T N (self_transition_vector self) ->
  self_N self = N -> length mels_len = B -> length inputs_len = B ->
  Forall (fun l => (1 <= l <= Z.of_nat T)%Z) mels_len ->
  exists final,
    absorption_final_log_c eps self mels_len las inputs_len = Ok final /\
    shape2 B N final /\
    forall b i, (b < B)%nat -> (i < N)%nat ->
      get2 final b i
      = tadd (if (Z.of_nat i <? nth b inputs_len 0)%Z
              then get3 las b (Z.to_nat (nth b mels_len 0%Z - 1)) i
              else NInf)
             (if (Z.of_nat i =? nth b inputs_len 0 - 1)%Z
              then log_clamped eps
                     (sigmoid (get3 (self_transition_vector self) b
                                 (Z.to_nat (nth b mels_len 0%Z - 1)) i))
              else NInf).
Proof.
  intros HB HT Hlas Htv HN Hml Hil Hlens. unfold absorption_final_log_c.
  rewrite (shape3p_third B T N las HB HT Hlas), HN.
  rewrite (gather_last B T N las mels_len Hlas Hml Hlens). cbn [bind].
  rewrite squeeze1_zip_with.
  set (LA := zip_with (fun xb l => nth (Z.to_nat (l - 1)) xb []) las mels_len).
  assert (HLA : shape2 B N LA) by now apply (last_frame_shape B T N).
  set (M1 := sequence_mask inputs_len (Some (Z.of_nat N))).
  assert (HM1 : shape2 B N M1).
  { unfold M1. rewrite <- Hil, <- (Nat2Z.id N) at 1. apply sequence_mask_shape. }
  rewrite (masked_fill2_ok NInf B N) by (try apply shape2_map2d; assumption).
  cbn [bind].
  rewrite (gather_last B T N _ mels_len Htv Hml Hlens). cbn [bind].
  rewrite squeeze1_zip_with.
  set (LT := zip_with (fun xb l => nth (Z.to_nat (l - 1)) xb [])
               (self_transition_vector self) mels_len).
  assert (HLT : shape2 B N LT) by now apply (last_frame_shape B T N).
  set (M2 := map (fun l => map (fun i => (Z.of_nat i =? l - 1)%Z) (seq 0 N))
               inputs_len).
  assert (HM2 : shape2 B N M2).
  { unfold M2. rewrite <- Hil. apply last_index_shape. }
  rewrite (masked_fill2_ok NInf B N)
    by (repeat apply shape2_map2d; assumption).
  cbn [bind].
  set (fill := fun (a : tval) (c : bool) => if c then NInf else a).
  assert (HA : shape2 B N (zip_with (zip_with fill) LA (map2d negb M1)))
    by (apply shape2_zip_with; [|apply shape2_map2d]; assumption).
  assert (HB' : shape2 B N
                  (zip_with (zip_with fill)
                     (map2d (log_clamped eps) (map2d sigmoid LT)) (map2d negb M2)))
    by (apply shape2_zip_with; repeat apply shape2_map2d; assumption).
  rewrite (ew2_same tadd B N) by assumption.
  eexists. split; [reflexivity|].
  split; [now apply shape2_zip_with|].
  intros b i Hb Hi. unfold get2 at 1.
  rewrite (zip_with2_nth tadd NaN NaN NaN B N) by assumption.
  rewrite (zip_with2_nth fill NaN false NaN B N)
    by (try apply shape2_map2d; assumption).
  rewrite (zip_with2_nth fill NaN false NaN B N)
    by (repeat apply shape2_map2d; assumption).
  assert (Hm1 : nth i (nth b (map2d negb M1) []) false
                = negb (Z.of_nat i <? nth b inputs_len 0)%Z).
  { rewrite map2d_nth.
    rewrite (map_nth_lt negb _ _ false) by now rewrite (shape2_row B N M1).
    f_equal. unfold M1. apply sequence_mask_nth; lia. }
  assert (Hm2 : nth i (nth b (map2d negb M2) []) false
                = negb (Z.of_nat i =? nth b inputs_len 0 - 1)%Z).
  { rewrite map2d_nth.
    rewrite (map_nth_lt negb _ _ false) by now rewrite (shape2_row B N M2).
    f_equal. unfold M2.
    rewrite (map_nth_lt _ _ _ 0%Z) by lia.
    rewrite (map_nth_lt _ _ _ 0%nat) by now rewrite length_seq.
    now rewrite seq_nth. }
  rewrite Hm1, Hm2. unfold fill.
  assert (Hla : nth i (nth b LA []) NaN
                = get3 las b (Z.to_nat (nth b mels_len 0%Z - 1)) i).
  { unfold LA, get3. destruct Hlas as [Hlb _].
    now rewrite (zip_with_nth _ [] 0%Z []) by lia. }
  assert (Hlt : nth i (nth b (map2d (log_clamped eps) (map2d sigmoid LT)) []) NaN
                = log_clamped eps
                    (sigmoid (get3 (self_transition_vector self) b
                                (Z.to_nat (nth b mels_len 0%Z - 1)) i))).
  { rewrite !map2d_nth.
    assert (Hr : length (nth b LT []) = N) by now apply (shape2_row B N).
    rewrite (map_nth_lt (log_clamped eps) _ _ NaN) by (rewrite length_map; lia).
    rewrite (map_nth_lt sigmoid _ _ NaN) by lia.
    unfold LT, get3. destruct Htv as [Htb _].
    now rewrite (zip_with_nth _ [] 0%Z []) by lia. }
  rewrite Hla, Hlt.
  destruct (Z.of_nat i <? nth b inputs_len 0)%Z,
           (Z.of_nat i =? nth b inputs_len 0 - 1)%Z; reflexivity.
Qed.

(** X13.  On a well-shaped batch whose mel lengths lie within the frames,
    the absorption factor of an item with a valid state length is the
    scaled log-alpha of its last valid state at its last valid frame plus
    the clamped log of the probability of leaving that state, provided the
    earlier states of that frame hold reals or [-inf]. *)
Theorem absorption_last_state :
  forall eps self B T N mels_len (las : T3) inputs_len b,
    (1 <= T)%nat ->
    shape3p B T N las -> shape3p B T N (self_transition_vector self) ->
    self_N self = N -> length mels_len = B -> length inputs_len = B ->
    Forall (fun l => (1 <= l <= Z.of_nat T)%Z) mels_len ->
    (b < B)%nat ->
    (1 <= nth b inputs_len 0 <= Z.of_nat N)%Z ->
    (forall i, (Z.of_nat i < nth b inputs_len 0 - 1)%Z ->
       real_or_neg_inf (get3 las b (Z.to_nat (nth b mels_len 0%Z - 1)) i)) ->
    exists r,
      get_absorption_state_scaling_factor eps self mels_len las inputs_len = Ok r /\
      length r = B /\
      nth b r NaN
      = tadd (get3 las b (Z.to_nat (nth b mels_len 0%Z - 1))
                (Z.to_nat (nth b inputs_len 0%Z - 1)))
             (log_clamped eps
                (sigmoid (get3 (self_transition_vector self) b
                            (Z.to_nat (nth b mels_len 0%Z - 1))
                            (Z.to_nat (nth b inputs_len 0%Z - 1))))).
Proof.
  intros eps self B T N mels_len las inputs_len b HT Hlas Htv HN Hml Hil Hlens
    Hb Hlen Hprev.
  destruct (absorption_final_log_c_entries eps self B T N mels_len las inputs_len
              ltac:(lia) HT Hlas Htv HN Hml Hil Hlens)
    as (final & Hfinal & Hshape & Hentries).
  unfold get_absorption_state_scaling_factor. rewrite Hfinal. cbn [bind].
  eexists. split; [reflexivity|].
  pose proof Hshape as [Hfb Hfr].
  split; [now rewrite length_map|].
  rewrite (map_nth_lt logsumexp _ _ []) by lia.
  set (k := Z.to_nat (nth b inputs_len 0%Z - 1)).
  assert (Hrow : length (nth b final []) = N)
    by (apply (shape2_row B N); assumption).
  assert (Hk : (k < N)%nat) by (unfold k; lia).
  assert (Hothers : forall i, (i < length (nth b final []))%nat -> i <> k ->
                      nth i (nth b final []) NaN = NInf).
  { rewrite Hrow. intros i Hi Hne. fold (get2 final b i).
    rewrite Hentries by assumption.
    destruct (Z.eqb_spec (Z.of_nat i) (nth b inputs_len 0 - 1)%Z) as [He|_];
      [unfold k in Hne; lia|].
    destruct (Z.ltb_spec (Z.of_nat i) (nth b inputs_len 0%Z)) as [Hlt|_];
      [|reflexivity].
    specialize (Hprev i ltac:(unfold k in Hne; lia)).
    destruct (get3 las b (Z.to_nat (nth b mels_len 0%Z - 1)) i);
      try contradiction; reflexivity. }
  rewrite (logsumexp_one_hot _ k)
    by (first [exact Hothers | rewrite Hrow; exact Hk]).
  fold (get2 final b k). rewrite Hentries by assumption.
  destruct (Z.ltb_spec (Z.of_nat k) (nth b inputs_len 0%Z)) as [_|]; [|unfold k in *; lia].
  destruct (Z.eqb_spec (Z.of_nat k) (nth b inputs_len 0 - 1)%Z) as [_|]; [|unfold k in *; lia].
  reflexivity.
Qed.

Lemma absorption_last_state_witness :
  exists r,
    get_absorption_state_scaling_factor (/ 10000) masking_example [2; 1]%Z
      (self_log_alpha_scaled masking_example) [2; 1]%Z = Ok r /\
    length r = 2%nat /\
    nth 0 r NaN
    = tadd (get3 (self_log_alpha_scaled masking_example) 0
              (Z.to_nat (nth 0 [2; 1]%Z 0%Z - 1)) (Z.to_nat (nth 0 [2; 1]%Z 0%Z - 1)))
           (log_clamped (/ 10000)
              (sigmoid (get3 (self_transition_vector masking_example) 0
                          (Z.to_nat (nth 0 [2; 1]%Z 0%Z - 1))
                          (Z.to_nat (nth 0 [2; 1]%Z 0%Z - 1))))).
Proof.
  apply (absorption_last_state (/ 10000) masking_example 2 2 2 [2; 1]%Z
           (self_log_alpha_scaled masking_example) [2; 1]%Z 0).
  - lia.
  - split; [reflexivity|]. repeat constructor.
  - split; [reflexivity|]. repeat constructor.
  - reflexivity.
  - reflexivity.
  - reflexivity.
  - repeat constructor; cbn; lia.
  - lia.
  - cbn. lia.
  - intros [|i] Hi; [exact I|]. cbn in Hi. lia.
Defined.

Lemma mapM_raise_inv {A B : Type} (f : A -> py B) l e :
  mapM f l = Raise e -> exists a, In a l /\ f a = Raise e.
Proof.
  induction l as [|a l IH]; cbn [mapM]; [discriminate|].
  destruct (f a) as [c|e'] eqn:Hc; cbn [bind].
  - destruct (mapM f l) as [cs|e'']; cbn [bind]; [discriminate|].
    intros H. injection H as ->. destruct (IH eq_refl) as (a' & Hin & Ha').
    exists a'. split; [now right|exact Ha'].
  - intros H. injection H as ->. exists a. split; [now left|exact Hc].
Qed.

Lemma zipM_raise_inv {A B C : Type} (f : A -> B -> py C) xs ys e :
  zipM f xs ys = Raise e -> exists x y, f x y = Raise e.
Proof.
  revert ys. induction xs as [|x xs IH]; intros [|y ys]; cbn [zipM];
    try discriminate.
  destruct (f x y) as [c|e'] eqn:Hc; cbn [bind].
  - destruct (zipM f xs ys) as [cs|e''] eqn:Hcs; cbn [bind]; [discriminate|].
    intros H. injection H as ->. exact (IH ys Hcs).
  - intros H. injection H as ->. eauto.
Qed.

(** When every error of [f] is [e0] and [f] raises at some place, [zipM]
    raises [e0]. *)
Lemma zipM_raise_at {A B C : Type} (f : A -> B -> py C) e0 dx dy : forall xs ys k,
  (forall x y e, f x y = Raise e -> e = e0) ->
  (k < length xs)%nat -> (k < length ys)%nat ->
  f (nth k xs dx) (nth k ys dy) = Raise e0 ->
  zipM f xs ys = Raise e0.
Proof.
  induction xs as [|x xs IH]; intros [|y ys] k Hall Hx Hy Hk;
    cbn [length] in *; try lia.
  cbn [zipM]. destruct (f x y) as [c|e] eqn:Hc; cbn [bind].
  - destruct k as [|k]; [cbn [nth] in Hk; congruence|].
    cbn [nth] in Hk. rewrite (IH ys k Hall) by (auto; lia). reflexivity.
  - now rewrite (Hall x y e Hc).
Qed.

Lemma gather_entry_raises xb i t e :
  gather_entry xb i t = Raise e -> e = RuntimeError.
Proof.
  unfold gather_entry. destruct (t <? 0)%Z; [congruence|].
  destruct (nth_error xb (Z.to_nat t)) as [row|]; [|congruence].
  destruct (nth_error row i); congruence.
Qed.

Lemma gather_item_raises xb (ib : list (list Z)) e :
  mapM (fun irow => zipM (gather_entry xb) (seq 0 (length irow)) irow) ib = Raise e ->
  e = RuntimeError.
Proof.
  intros H. apply mapM_raise_inv in H. destruct H as (irow & _ & H).
  apply zipM_raise_inv in H. destruct H as (i & t & H).
  now apply gather_entry_raises in H.
Qed.

(** X14.  With at least one state, a mel length below 1 or above the
    number of frames of its item makes
    [get_absorption_state_scaling_factor] raise [RuntimeError]: the index
    of the last frame is out of the range of [torch.gather]. *)
Theorem absorption_length_out_of_range :
  forall eps self mels_len (las : T3) inputs_len b,
    (1 <= self_N self)%nat ->
    (b < length las)%nat -> (b < length mels_len)%nat ->
    (nth b mels_len 0 < 1 \/ Z.of_nat (length (nth b las [])) < nth b mels_len 0)%Z ->
    get_absorption_state_scaling_factor eps self mels_len las inputs_len
    = Raise RuntimeError.
Proof.
  intros eps self mels_len las inputs_len b HN Hb Hbm Hout.
  unfold get_absorption_state_scaling_factor, absorption_final_log_c.
  set (index := map (fun l => [repeat (l - 1)%Z (self_N self)]) mels_len).
  assert (Hg : gather1 las index = Raise RuntimeError).
  { unfold gather1, same_size.
    destruct (Nat.eqb_spec (length las) (length index)) as [Heq|]; [|reflexivity].
    apply (zipM_raise_at _ RuntimeError [] [] las index b).
    - intros xb ib e. apply gather_item_raises.
    - exact Hb.
    - unfold index. now rewrite length_map.
    - unfold index. rewrite (map_nth_lt _ _ _ 0%Z) by exact Hbm.
      cbn [mapM]. rewrite repeat_length.
      destruct (self_N self) as [|n]; [lia|].
      cbn [seq repeat zipM]. unfold gather_entry at 1.
      destruct (Z.ltb_spec (nth b mels_len 0 - 1)%Z 0%Z) as [|Hpos]; [reflexivity|].
      destruct (nth_error (nth b las []) (Z.to_nat (nth b mels_len 0 - 1)%Z))
        eqn:Hnth; [|reflexivity].
      assert (Hlt : (Z.to_nat (nth b mels_len 0 - 1)%Z < length (nth b las []))%nat)
        by (apply nth_error_Some; congruence).
      lia. }
  rewrite Hg. reflexivity.
Qed.

Lemma absorption_length_out_of_range_witness :
  get_absorption_state_scaling_factor (/ 10000) absorption_example [0%Z]
    [[[Fin 0]]] [1%Z]
  = Raise RuntimeError.
Proof.
  apply (absorption_length_out_of_range (/ 10000) absorption_example [0%Z]
           [[[Fin 0]]] [1%Z] 0).
  - cbn. lia.
  - cbn. lia.
  - cbn. lia.
  - left. cbn. lia.
Defined.

(** ** HMM.sample: the errors of the first pass and the trace of the loop *)

Lemma select1_raises {A : Type} (x : list (list A)) t e :
  select1 x t = Raise e -> e = IndexError.
Proof.
  intros H. apply mapM_raise_inv in H. destruct H as (r & _ & H).
  destruct (nth_error r t); congruence.
Qed.

(** X15.  In this revision [sample] never returns a result: whatever the
    networks, the draws and the inputs, its first pass raises,
    [UnboundLocalError] at the read of [ar_mel_inputs] when every item has a
    state 0, and [IndexError] at [inputs[:, 0]] otherwise. *)
Theorem HMM_sample_first_pass_raises :
  forall ar_order post_prenet_rnn_dim max_sampling_time predict_means
         deterministic_transition duration_quantile_threshold prenet
         memory_rnn decoder normal_sample multinomial inputs sampling_temp T
         fuel,
    sample ar_order post_prenet_rnn_dim max_sampling_time predict_means
      deterministic_transition duration_quantile_threshold prenet
      memory_rnn decoder normal_sample multinomial (S fuel) inputs
      sampling_temp T
    = Some (Raise match select1 inputs 0 with
                  | Ok _ => UnboundLocalError
                  | Raise _ => IndexError
                  end).
Proof.
  intros. destruct (select1 inputs 0) as [z_t|e] eqn:Hsel.
  - now apply (HMM_sample_first_pass _ _ _ _ _ _ _ _ _ _ _ _ _ _ _ z_t).
  - apply select1_raises in Hsel as He. subst e.
    unfold sample. cbn [sample_loop]. unfold sample_body, sample_init.
    cbn [_init_lstm_states st_h_memory st_c_memory st_current_z_number].
    destruct (memory_rnn _ _) as [h c]. rewrite Hsel. reflexivity.
Qed.

Lemma one_step_trace_snoc z0 p c :
  one_step_trace (z0 ++ [p]) -> (p <= c <= S p)%nat ->
  one_step_trace ((z0 ++ [p]) ++ [c]).
Proof.
  intros Hz Hc j Hj. rewrite !length_app in Hj. cbn [length] in Hj.
  destruct (Nat.eq_dec (S j) (length z0 + 1)) as [He|Hne].
  - assert (Hjz : j = length z0) by lia. subst j.
    rewrite (app_nth1 (z0 ++ [p]) [c]) by (rewrite length_app; cbn [length]; lia).
    rewrite nth_middle.
    replace (S (length z0)) with (length (z0 ++ [p]))
      by (rewrite length_app; cbn [length]; lia).
    rewrite nth_middle. exact Hc.
  - rewrite !(app_nth1 (z0 ++ [p]) [c]) by (rewrite length_app; cbn [length]; lia).
    apply Hz. rewrite length_app. cbn [length]. lia.
Qed.

Section SampleTrace.

Variables (predict_means deterministic_transition : bool).
Variable duration_quantile_threshold : tval.
Variable prenet : T3 -> T3.
Variable memory_rnn : T2 -> T2 * T2 -> T2 * T2.
Variable decoder : T2 -> T3 -> T2 * T2 * T2.
Variable normal_sample : nat -> T2 -> T2 -> T2.
Variable multinomial : nat -> T1 -> Z.

Variables (inputs : T3) (sampling_temp : tval) (T : Z) (N : nat).
Variable prenet_input : T3.

(** What one pass does to the lists and to the state index. *)
Lemma sample_body_lists st r :
  sample_body predict_means deterministic_transition
    duration_quantile_threshold prenet memory_rnn decoder normal_sample
    multinomial inputs sampling_temp T N prenet_input st = Ok r ->
  exists c x_t,
    (c = st_current_z_number st \/ c = S (st_current_z_number st)) /\
    match r with
    | inl st' =>
        st_current_z_number st' = c /\ c <> N /\
        st_z st' = st_z st ++ [c] /\ st_x st' = st_x st ++ [x_t]
    | inr (x, z, _, _) =>
        z = st_z st ++ [c] /\ x = st_x st ++ [x_t]
    end.
Proof.
  unfold sample_body.
  destruct (memory_rnn _ _) as [h c].
  destruct (select1 _ _) as [z_t|]; cbn [bind]; [|discriminate].
  destruct (decoder _ _) as [[mean std] tv].
  destruct (read_local _) as [ar|]; cbn [bind]; [|discriminate].
  destruct (same_size _ _ _) as [ar'|]; cbn [bind]; [|discriminate].
  destruct (ew1 _ _ _) as [q|]; cbn [bind]; [|discriminate].
  match goal with
  | |- context [bind ?m _] => destruct m as [switch|]; cbn [bind]; [|discriminate]
  end.
  intros [= <-].
  exists (if switch then S (st_current_z_number st) else st_current_z_number st).
  eexists. split; [destruct switch; auto|].
  unfold sample_next.
  cbn [st_current_z_number st_t st_z st_x st_input_parameter_values
       st_output_parameter_values].
  destruct (Nat.eqb_spec
              (if switch then S (st_current_z_number st) else st_current_z_number st)
              N) as [|Hne]; cbn [orb].
  - split; reflexivity.
  - destruct (negb (T =? 0)%Z && (Z.of_nat (st_t st) =? T - 1)%Z).
    + split; reflexivity.
    + cbn [st_current_z_number st_z st_x]. repeat split; auto.
Qed.

(** X16.  From a state in which the locals of the loop are bound, a run
    of the loop of [sample] that returns gives a trace [z] that extends the
    one it started with, never goes down, goes up by at most one state at a
    time, stays within [0, N], and has one entry more than there are
    frames in [x]. *)
Theorem HMM_sample_trace :
  forall fuel st x z ipv opv,
    sample_inv N st ->
    sample_loop predict_means deterministic_transition
      duration_quantile_threshold prenet memory_rnn decoder normal_sample
      multinomial fuel inputs sampling_temp T N prenet_input st
    = Some (Ok (x, z, ipv, opv)) ->
    one_step_trace z /\
    Forall (fun k => (k <= N)%nat) z /\
    length z = S (length x) /\
    exists more, more <> [] /\ z = st_z st ++ more.
Proof.
  induction fuel as [|fuel IH]; intros st x z ipv opv Hinv Hrun;
    cbn [sample_loop] in Hrun; [discriminate|].
  destruct (sample_body _ _ _ _ _ _ _ _ _ _ _ _ _ st) as [r|e] eqn:Hbody;
    [|discriminate].
  destruct (sample_body_lists st r Hbody) as (c & x_t & Hc & Hr).
  destruct Hinv as ((z0 & Hz0) & Htrace & Hbound & Hlt & Hlen).
  assert (Htrace' : one_step_trace (st_z st ++ [c])).
  { rewrite Hz0. apply one_step_trace_snoc; [now rewrite <- Hz0|].
    destruct Hc; lia. }
  assert (Hbound' : Forall (fun k => (k <= N)%nat) (st_z st ++ [c])).
  { apply Forall_app. split; [exact Hbound|]. constructor; [|constructor].
    destruct Hc; lia. }
  assert (Hlen' : length (st_z st ++ [c]) = S (length (st_x st ++ [x_t]))).
  { rewrite !length_app. cbn [length]. lia. }
  destruct r as [st'|[[[x' z'] ipv'] opv']].
  - destruct Hr as (Hcur & HcN & Hz' & Hx').
    assert (Hinv' : sample_inv N st').
    { unfold sample_inv. rewrite Hz', Hx', Hcur.
      split; [now exists (st_z st)|].
      split; [exact Htrace'|]. split; [exact Hbound'|].
      split; [destruct Hc; lia|exact Hlen']. }
    destruct (IH st' x z ipv opv Hinv' Hrun) as (H1 & H2 & H3 & more & Hm & Hzz).
    split; [exact H1|]. split; [exact H2|]. split; [exact H3|].
    exists (c :: more). split; [discriminate|].
    rewrite Hzz, Hz', <- app_assoc. reflexivity.
  - destruct Hr as (Hz' & Hx'). injection Hrun as <- <- _ _. subst x' z'.
    split; [exact Htrace'|]. split; [exact Hbound'|]. split; [exact Hlen'|].
    exists [c]. split; [discriminate|reflexivity].
Qed.

End SampleTrace.

Lemma HMM_sample_trace_witness :
  one_step_trace [0; 1]%nat /\
  Forall (fun k => (k <= 1)%nat) [0; 1]%nat /\
  length [0; 1]%nat = S (length [[Fin 0]]) /\
  exists more, more <> [] /\ [0; 1]%nat = st_z sample_bound_example ++ more.
Proof.
  eapply (HMM_sample_trace true false (Fin 0) (fun x => x) (fun _ s => s)
            (fun _ _ => ([[Fin 0]], [[Fin 1]], [[Fin 0]]))
            (fun _ m _ => m) (fun _ _ => 1%Z)
            [[[Fin 0]]] (Fin 1) 5%Z 1 [[[Fin 0]]] 1 sample_bound_example).
  - unfold sample_inv. cbn [sample_bound_example st_z st_x st_current_z_number].
    split; [now exists []|].
    split; [intros j Hj; cbn [length] in Hj; lia|].
    split; [repeat constructor|]. split; [lia|reflexivity].
  - reflexivity.
Defined.

(** ** HMM.forward: the calls of the module objects *)

Lemma select1_ok {A : Type} (x : list (list A)) t :
  Forall (fun r => (t < length r)%nat) x -> exists v, select1 x t = Ok v.
Proof.
  intros H. unfold select1.
  destruct (mapM_exists
              (fun r : list A => match nth_error r t with
                                 | Some a => Ok a
                                 | None => Raise IndexError
                                 end)
              (fun _ => True) x) as (v & Hv & _); [|eauto].
  eapply Forall_impl; [|exact H]. intros r Hr. cbv beta in Hr |- *.
  destruct (nth_error r t) eqn:E; [eauto|].
  apply nth_error_None in E. lia.
Qed.

(** A pass whose frame is there stops at the call of the emission model. *)
Lemma forward_step_module_call eps (Enc : Type) ar_order prenet memory_rnn
  output_net (inputs : Enc) inputs_len mels ar_inputs log_state_priors t st x_t :
  select1 mels t = Ok x_t ->
  forward_step eps Enc ar_order prenet memory_rnn output_net inputs inputs_len
    mels ar_inputs log_state_priors t st
  = Raise AttributeError.
Proof.
  intros Hx. unfold forward_step. destruct st as [[[h c] log_c] self].
  destruct (_process_ar_timestep _ _ _ _ _ _ _) as [h' c'].
  destruct (output_net h' inputs) as [[mean std] tv].
  destruct (Nat.eqb_spec t 0) as [->|Ht]; rewrite Hx; reflexivity.
Qed.

(** X17.  One pass of the loop of [HMM.forward] does not return.  The
    emission model is a [@dataclass] module object whose call raises
    [AttributeError]: a pass whose frame [t] is there raises it, before
    anything is written to [log_c] or to the object; a pass without that
    frame raises [IndexError] at [mels[:, t]]. *)
Theorem forward_step_raises :
  forall eps (Enc : Type) ar_order prenet memory_rnn output_net
         (inputs : Enc) inputs_len mels ar_inputs log_state_priors t st,
    let pass :=
      forward_step eps Enc ar_order prenet memory_rnn output_net inputs
        inputs_len mels ar_inputs log_state_priors t st in
    (pass = Raise AttributeError \/ pass = Raise IndexError) /\
    ((exists x_t, select1 mels t = Ok x_t) <-> pass = Raise AttributeError).
Proof.
  intros eps Enc ar_order prenet memory_rnn output_net inputs inputs_len mels
    ar_inputs log_state_priors t st pass.
  destruct (select1 mels t) as [x_t|e] eqn:Hx.
  - assert (Hp : pass = Raise AttributeError)
      by (apply (forward_step_module_call _ _ _ _ _ _ _ _ _ _ _ _ _ x_t); exact Hx).
    split; [now left|]. split; [intros _; exact Hp|eauto].
  - pose proof (select1_raises _ _ _ Hx) as ->.
    assert (Hp : pass = Raise IndexError).
    { unfold pass, forward_step. destruct st as [[[h c] log_c] self].
      destruct (_process_ar_timestep _ _ _ _ _ _ _) as [h' c'].
      destruct (output_net h' inputs) as [[mean std] tv].
      destruct (Nat.eqb_spec t 0) as [->|Ht]; rewrite Hx; reflexivity. }
    split; [now right|]. split; [intros (x_t & Hc); discriminate|].
    rewrite Hp. discriminate.
Qed.

Lemma permute021_item_shape b c t (x : T3) :
  (1 <= c)%nat -> shape3p b c t x -> shape3p b t c (permute021 x).
Proof.
  intros Hc Hx.
  destruct (permute021_rows (fun _ => True) b c t x Hc Hx (Forall3_trivial x))
    as [Hl Hr].
  split; [exact Hl|]. eapply Forall_impl; [|exact Hr].
  intros m [Hm Hrows]. split; [exact Hm|].
  eapply Forall_impl; [|exact Hrows]. intros r [Hr' _]. exact Hr'.
Qed.

Lemma shape3_of_shape3p {A : Type} b c n (x : list (list (list A))) :
  (1 <= b)%nat -> (1 <= c)%nat -> shape3p b c n x -> shape3 x = [b; c; n].
Proof.
  intros Hb Hc [Hl Hx]. unfold shape3.
  destruct x as [|m x]; [cbn [length] in Hl; lia|].
  apply Forall_inv in Hx. destruct Hx as [Hm Hrows]. cbn [hd].
  destruct m as [|r m]; [cbn [length] in Hm; lia|].
  apply Forall_inv in Hrows. cbn [hd]. now rewrite Hl, Hm, Hrows.
Qed.

(** X18.  With encoder outputs of two axes, at least one state, a batch of
    at least one item whose frames have the [frame_channels] channels of
    the model, and at least one frame, [HMM.forward] raises
    [AttributeError]: everything before the loop returns, and the first
    pass stops at the call of the emission model. *)
Theorem HMM_forward_attribute_error :
  forall eps (Enc : Type) enc_shape frame_channels ar_order memory_rnn_dim
         prenet memory_rnn output_net self (inputs : Enc) inputs_len mels
         mel_lens B N T,
    enc_shape inputs = [B; N] ->
    (1 <= B)%nat -> (1 <= N)%nat -> (1 <= T)%nat ->
    (1 <= frame_channels)%nat ->
    shape3p B frame_channels T mels ->
    (1 <= zmax_list mel_lens)%Z ->
    forward eps Enc enc_shape frame_channels ar_order memory_rnn_dim prenet
      memory_rnn output_net self inputs inputs_len mels mel_lens
    = Raise AttributeError.
Proof.
  intros eps Enc enc_shape frame_channels ar_order memory_rnn_dim prenet
    memory_rnn output_net self inputs inputs_len mels mel_lens B N T
    Henc HB HN HT HC Hmels Hlens.
  pose proof (permute021_item_shape B frame_channels T mels HC Hmels) as Hp.
  pose proof (shape3_of_shape3p B T frame_channels _ HB HT Hp) as Hshape.
  unfold forward. rewrite Henc. cbn [unpack2 bind].
  unfold _initialize_log_state_priors, set_nth. cbn [set_N self_N].
  rewrite repeat_length.
  destruct (Nat.ltb_spec 0 N) as [_|]; [|lia]. cbn [bind].
  unfold _initialize_forward_algorithm_variables, _add_go_token.
  rewrite Hshape. cbn [unpack3 bind nth]. rewrite Nat.eqb_refl.
  rewrite same_size_pure
    by (unfold zeros3; rewrite repeat_length; symmetry; apply Hp).
  cbn [bind _init_lstm_states].
  destruct (Z.to_nat (zmax_list mel_lens)) as [|k] eqn:Hk; [lia|].
  cbn [seq forward_loop].
  destruct (select1_ok (permute021 mels) 0) as (x_t & Hx).
  { destruct Hp as [_ Hrows]. eapply Forall_impl; [|exact Hrows].
    intros m [Hm _]. lia. }
  rewrite (forward_step_module_call _ _ _ _ _ _ _ _ _ _ _ _ _ x_t Hx).
  reflexivity.
Qed.

Lemma HMM_forward_attribute_error_witness :
  forward (/ 10000) T2 (fun x => [length x; length (hd [] x)]) 1 1 1
    (fun x => x) (fun _ s => s) (fun _ _ => ([], [], []))
    absorption_example [[Fin 0]] [1%Z] [[[Fin 1]]] [1%Z]
  = Raise AttributeError.
Proof.
  apply (HMM_forward_attribute_error (/ 10000) T2
           (fun x => [length x; length (hd [] x)]) 1 1 1
           (fun x => x) (fun _ s => s) (fun _ _ => ([], [], []))
           absorption_example [[Fin 0]] [1%Z] [[[Fin 1]]] [1%Z] 1 1 1).
  - reflexivity.
  - lia.
  - lia.
  - lia.
  - lia.
  - split; [reflexivity|]. repeat constructor.
  - simpl. lia.
Defined.

(** ** EmissionModel.forward: shapes that do not broadcast *)

Lemma bsize_raises n m e : bsize n m = Raise e -> e = RuntimeError.
Proof.
  unfold bsize. destruct (n =? m)%nat; [discriminate|].
  destruct (n =? 1)%nat; [discriminate|].
  destruct (m =? 1)%nat; [discriminate|congruence].
Qed.

Lemma bsize_pos n m k : bsize n m = Ok k -> (1 <= n)%nat -> (1 <= m)%nat -> (1 <= k)%nat.
Proof.
  unfold bsize. destruct (n =? m)%nat; [intros [= <-]; lia|].
  destruct (n =? 1)%nat; [intros [= <-]; lia|].
  destruct (m =? 1)%nat; [intros [= <-]; lia|discriminate].
Qed.

Lemma bsize_mismatch n m :
  n <> m -> n <> 1%nat -> m <> 1%nat -> bsize n m = Raise RuntimeError.
Proof.
  intros H1 H2 H3. unfold bsize.
  destruct (Nat.eqb_spec n m); [contradiction|].
  destruct (Nat.eqb_spec n 1); [contradiction|].
  destruct (Nat.eqb_spec m 1); [contradiction|reflexivity].
Qed.

Lemma expand_raises {A : Type} n (l : list A) e :
  expand n l = Raise e -> e = RuntimeError.
Proof.
  unfold expand. destruct (length l =? n)%nat; [discriminate|].
  destruct l as [|x [|y l]]; congruence.
Qed.

Lemma expand_inv {A : Type} (P : A -> Prop) n (l l' : list A) :
  expand n l = Ok l' -> Forall P l -> length l' = n /\ Forall P l'.
Proof.
  unfold expand. destruct (Nat.eqb_spec (length l) n) as [Hl|Hl].
  - intros [= <-] HP. auto.
  - destruct l as [|x [|y l]]; try discriminate.
    intros [= <-] HP. split; [apply repeat_length|].
    apply Forall_inv in HP. apply Forall_forall. intros a Ha.
    apply repeat_spec in Ha. now subst a.
Qed.

Lemma ew1_mismatch f (x y : T1) :
  length x <> length y -> length x <> 1%nat -> length y <> 1%nat ->
  ew1 f x y = Raise RuntimeError.
Proof.
  intros H1 H2 H3. unfold ew1, bcast. now rewrite bsize_mismatch.
Qed.

(** Two matrices whose rows cannot be broadcast against each other. *)
Lemma ew2_mismatch f n d m w (x y : T2) :
  shape2 n d x -> shape2 m w y -> (1 <= n)%nat -> (1 <= m)%nat ->
  d <> w -> d <> 1%nat -> w <> 1%nat ->
  ew2 f x y = Raise RuntimeError.
Proof.
  intros [Hxl Hxr] [Hyl Hyr] Hn Hm H1 H2 H3. unfold ew2, bcast.
  destruct (bsize (length x) (length y)) as [k|e] eqn:Hk; cbn [bind];
    [|now rewrite (bsize_raises _ _ _ Hk)].
  apply bsize_pos in Hk; [|lia|lia].
  destruct (expand k x) as [xs|e] eqn:Hxs; cbn [bind];
    [|now rewrite (expand_raises _ _ _ Hxs)].
  destruct (expand k y) as [ys|e] eqn:Hys; cbn [bind];
    [|now rewrite (expand_raises _ _ _ Hys)].
  destruct (expand_inv _ _ _ _ Hxs Hxr) as [Hxsl Hxsr].
  destruct (expand_inv _ _ _ _ Hys Hyr) as [Hysl Hysr].
  destruct xs as [|a xs]; [cbn [length] in Hxsl; lia|].
  destruct ys as [|c ys]; [cbn [length] in Hysl; lia|].
  apply Forall_inv in Hxsr. apply Forall_inv in Hysr.
  cbn [zipM]. rewrite ew1_mismatch by congruence. reflexivity.
Qed.

(** A (B, N, D) tensor against a matrix with a leading axis of size 1. *)
Lemma ew3_lead1_mismatch f b n d m w (x : T3) (y : T2) :
  shape3p b n d x -> shape2 m w y ->
  (1 <= b)%nat -> (1 <= n)%nat -> (1 <= m)%nat ->
  d <> w -> d <> 1%nat -> w <> 1%nat ->
  ew3 f x (lead1 y) = Raise RuntimeError.
Proof.
  intros [Hxl Hxr] Hy Hb Hn Hm H1 H2 H3. unfold ew3, bcast, lead1.
  destruct (bsize (length x) (length [y])) as [k|e] eqn:Hk; cbn [bind];
    [|now rewrite (bsize_raises _ _ _ Hk)].
  apply bsize_pos in Hk; [|lia|cbn [length]; lia].
  destruct (expand k x) as [xs|e] eqn:Hxs; cbn [bind];
    [|now rewrite (expand_raises _ _ _ Hxs)].
  destruct (expand k [y]) as [ys|e] eqn:Hys; cbn [bind];
    [|now rewrite (expand_raises _ _ _ Hys)].
  destruct (expand_inv _ _ _ _ Hxs Hxr) as [Hxsl Hxsr].
  destruct (expand_inv (shape2 m w) _ _ _ Hys ltac:(repeat constructor; apply Hy))
    as [Hysl Hysr].
  destruct xs as [|a xs]; [cbn [length] in Hxsl; lia|].
  destruct ys as [|c ys]; [cbn [length] in Hysl; lia|].
  apply Forall_inv in Hxsr. apply Forall_inv in Hysr.
  cbn [zipM]. rewrite (ew2_mismatch f n d m w) by assumption. reflexivity.
Qed.

(** One row against every row of a matrix. *)
Lemma ew2_row_left f n d (r : T1) (m : T2) :
  length r = d -> shape2 n d m ->
  exists z, ew2 f [r] m = Ok z /\ shape2 n d z.
Proof.
  intros Hr [Hml Hmr]. unfold ew2, bcast. cbn [length].
  assert (Hk : bsize 1 (length m) = Ok (length m)).
  { unfold bsize. destruct (Nat.eqb_spec 1 (length m)) as [<-|]; reflexivity. }
  rewrite Hk. cbn [bind].
  assert (Hx : expand (length m) [r] = Ok (repeat r (length m))).
  { unfold expand. cbn [length].
    destruct (Nat.eqb_spec 1 (length m)) as [<-|]; reflexivity. }
  rewrite Hx. cbn [bind]. rewrite expand_same by reflexivity. cbn [bind].
  destruct (zipM_exists (ew1 f) (fun row => length row = d)
              (repeat r (length m)) m) as (z & Hz & Hzl & Hzr).
  { apply (Forall2_nth_intro _ [] []); [now rewrite repeat_length|].
    intros i Hi. rewrite repeat_length in Hi.
    rewrite nth_repeat_lt by exact Hi.
    assert (Hrow : length (nth i m []) = d)
      by (rewrite Forall_forall in Hmr; apply Hmr, nth_In; exact Hi).
    rewrite ew1_same by congruence.
    eexists. split; [reflexivity|]. rewrite zip_with_length; congruence. }
  exists z. split; [exact Hz|]. rewrite repeat_length in Hzl.
  split; [congruence|exact Hzr].
Qed.

(** [value.unsqueeze(1)] against a (B, N, D) tensor. *)
Lemma ew3_unsqueeze_left f b n d (x : T2) (m : T3) :
  shape2 b d x -> shape3p b n d m ->
  exists z, ew3 f (unsqueeze1 x) m = Ok z /\ shape3p b n d z.
Proof.
  intros [Hxl Hxr] [Hml Hmr]. unfold ew3.
  rewrite bcast_same by (unfold unsqueeze1; rewrite length_map; congruence).
  destruct (zipM_exists (ew2 f) (shape2 n d) (unsqueeze1 x) m)
    as (z & Hz & Hzl & Hzr).
  { apply (Forall2_nth_intro _ [] []);
      [unfold unsqueeze1; rewrite length_map; congruence|].
    intros i Hi. unfold unsqueeze1 in *. rewrite length_map in Hi.
    rewrite (map_nth_lt _ _ _ []) by exact Hi.
    apply ew2_row_left.
    - rewrite Forall_forall in Hxr. apply Hxr, nth_In. exact Hi.
    - rewrite Forall_forall in Hmr. apply Hmr, nth_In. lia. }
  exists z. split; [exact Hz|].
  unfold unsqueeze1 in Hzl. rewrite length_map in Hzl.
  split; [congruence|exact Hzr].
Qed.

Lemma zip_with_left {A B : Type} (g : A -> B -> A) (P : A -> Prop)
  (Q : B -> Prop) xs ys :
  (forall a c, P a -> Q c -> g a c = a) ->
  length xs = length ys -> Forall P xs -> Forall Q ys ->
  zip_with g xs ys = xs.
Proof.
  intros Hg. revert ys.
  induction xs as [|x xs IH]; intros [|y ys] Hl Hx Hy; try discriminate;
    [reflexivity|].
  cbn [zip_with]. inversion Hx; inversion Hy; subst.
  rewrite Hg by assumption. f_equal. apply IH; [now injection Hl|auto|auto].
Qed.

Lemma zip_with_right {A B : Type} (g : A -> B -> B) (P : A -> Prop)
  (Q : B -> Prop) xs ys :
  (forall a c, P a -> Q c -> g a c = c) ->
  length xs = length ys -> Forall P xs -> Forall Q ys ->
  zip_with g xs ys = ys.
Proof.
  intros Hg. revert ys.
  induction xs as [|x xs IH]; intros [|y ys] Hl Hx Hy; try discriminate;
    [reflexivity|].
  cbn [zip_with]. inversion Hx; inversion Hy; subst.
  rewrite Hg by assumption. f_equal. apply IH; [now injection Hl|auto|auto].
Qed.

(** Broadcasting two tensors of one shape against each other leaves them
    as they are. *)
Lemma zip3_left b c n (x y : T3) :
  shape3p b c n x -> shape3p b c n y -> zip3 (fun a _ => a) x y = x.
Proof.
  intros [Hbx Hx] [Hby Hy]. unfold zip3.
  apply (zip_with_left _ (shape2 c n) (shape2 c n));
    [|congruence|exact Hx|exact Hy].
  intros r r' [Hrl Hr] [Hrl' Hr'].
  apply (zip_with_left _ (fun l => length l = n) (fun l => length l = n));
    [|congruence|exact Hr|exact Hr'].
  intros l l' Hl Hl'.
  apply (zip_with_left _ (fun _ => True) (fun _ => True));
    [reflexivity|congruence| |]; apply Forall_forall; auto.
Qed.

Lemma zip3_right b c n (x y : T3) :
  shape3p b c n x -> shape3p b c n y -> zip3 (fun _ a => a) x y = y.
Proof.
  intros [Hbx Hx] [Hby Hy]. unfold zip3.
  apply (zip_with_right _ (shape2 c n) (shape2 c n));
    [|congruence|exact Hx|exact Hy].
  intros r r' [Hrl Hr] [Hrl' Hr'].
  apply (zip_with_right _ (fun l => length l = n) (fun l => length l = n));
    [|congruence|exact Hr|exact Hr'].
  intros l l' Hl Hl'.
  apply (zip_with_right _ (fun _ => True) (fun _ => True));
    [reflexivity|congruence| |]; apply Forall_forall; auto.
Qed.

Lemma all3_unsqueeze1 p (x : T2) :
  all3 p (unsqueeze1 x) = forallb (forallb p) x.
Proof.
  unfold all3, unsqueeze1. induction x as [|r x IH]; [reflexivity|].
  cbn [map forallb]. rewrite IH. now rewrite andb_true_r.
Qed.

(** On arguments that pass the checks of the distribution, the log-density
    tensor has the shape of the means. *)
Lemma Normal_log_prob_shape b n d (means stds : T3) (x : T2) :
  shape2 b d x -> shape3p b n d means -> shape3p b n d stds ->
  all3 not_nan means = true -> all3 positive stds = true ->
  forallb (forallb not_nan) x = true ->
  exists out,
    Normal_log_prob means stds (unsqueeze1 x) = Ok out /\ shape3p b n d out.
Proof.
  intros Hx Hm Hs Hmv Hsv Hxv. unfold Normal_log_prob.
  rewrite !(ew3_same _ b n d means stds) by assumption. cbn [bind].
  rewrite (zip3_left b n d), (zip3_right b n d) by assumption.
  rewrite Hmv, Hsv. cbn [andb negb].
  destruct (ew3_unsqueeze_left tsub b n d x means Hx Hm) as (z & -> & Hz).
  rewrite all3_unsqueeze1, Hxv. cbn [negb].
  rewrite (ew3_same tdiv b n d) by (apply shape3p_map3d; assumption).
  cbn [bind].
  rewrite (ew3_same tsub b n d)
    by (try apply shape3p_zip3; apply shape3p_map3d; assumption).
  cbn [bind]. eexists. split; [reflexivity|].
  apply shape3p_map3d, shape3p_zip3; [apply shape3p_zip3|];
    apply shape3p_map3d; assumption.
Qed.

(** X19.  [EmissionModel.forward] raises [RuntimeError] on every batch
    of at least one item and one state whose arguments pass the checks of
    the distribution (no mean and no observation is [nan], every standard
    deviation is greater than 0) and whose number of feature channels
    differs from the longest state length, neither of the two being 1: the
    mask of the lengths, multiplied in without a trailing axis, does not
    broadcast against the log-density tensor. *)
Theorem EmissionModel_forward_feature_mismatch :
  forall b n d (x_t : T2) (means stds : T3) (state_lengths : list Z),
    (1 <= b)%nat -> (1 <= n)%nat ->
    shape2 b d x_t -> shape3p b n d means -> shape3p b n d stds ->
    all3 not_nan means = true -> all3 positive stds = true ->
    forallb (forallb not_nan) x_t = true ->
    state_lengths <> [] ->
    d <> Z.to_nat (zmax_list state_lengths) ->
    d <> 1%nat -> Z.to_nat (zmax_list state_lengths) <> 1%nat ->
    EmissionModel_forward x_t means stds state_lengths = Raise RuntimeError.
Proof.
  intros b n d x_t means stds lens Hb Hn Hx Hm Hs Hmv Hsv Hxv Hlens H1 H2 H3.
  unfold EmissionModel_forward.
  destruct (Normal_log_prob_shape b n d means stds x_t Hx Hm Hs Hmv Hsv Hxv)
    as (out & -> & Hout).
  cbn [bind]. rewrite sequence_mask_default.
  rewrite (ew3_lead1_mismatch tmul b n d (length lens)
             (Z.to_nat (zmax_list lens))); try assumption; [reflexivity| |].
  - apply shape2_map2d, sequence_mask_shape.
  - destruct lens; [contradiction|cbn [length]; lia].
Qed.

Lemma EmissionModel_forward_feature_mismatch_witness :
  EmissionModel_forward [[Fin 0; Fin 0; Fin 0]]
    [[[Fin 0; Fin 0; Fin 0]; [Fin 0; Fin 0; Fin 0]]]
    [[[Fin 1; Fin 1; Fin 1]; [Fin 1; Fin 1; Fin 1]]] [2%Z]
  = Raise RuntimeError.
Proof.
  apply (EmissionModel_forward_feature_mismatch 1 2 3).
  - lia.
  - lia.
  - split; [reflexivity|]. repeat constructor.
  - split; [reflexivity|]. repeat constructor.
  - split; [reflexivity|]. repeat constructor.
  - reflexivity.
  - cbn. rewrite !(Rltb_true 0 1) by lra. reflexivity.
  - reflexivity.
  - discriminate.
  - cbn. lia.
  - lia.
  - cbn. lia.
Defined.

(** ** AlignTTS.forward in phase 0 *)

(** X20.  In phase 0 [AlignTTS.forward] never returns its dictionary:
    [o_de] is still [None] when the dictionary is built, so that, when the
    encoder, the alignment and [convert_dr_to_align] have returned,
    [o_de.transpose(1, 2)] raises [AttributeError]; otherwise the exception
    of the method that raised comes out.  Phase 0 is the phase that
    [_set_phase] gives while no start step is below the step count. *)
Theorem AlignTTS_forward_phase_0 :
  forall (Tokens Speaker : Type) _forward_encoder _forward_mdn
         convert_dr_to_align _forward_decoder duration_predictor
         (x : Tokens) x_lengths y y_lengths (x_vectors : option Speaker),
    let run :=
      AlignTTS_forward Tokens Speaker _forward_encoder _forward_mdn
        convert_dr_to_align _forward_decoder duration_predictor
        x x_lengths y y_lengths x_vectors in
    (run (Some 0%Z) = RaisedAttributeError \/ exists e, run (Some 0%Z) = Raised e) /\
    (forall o_en o_en_dp x_mask g dr_mas mu log_sigma logp attn,
       _forward_encoder x x_lengths x_vectors = Ok (o_en, o_en_dp, x_mask, g) ->
       _forward_mdn o_en (permute021 y) y_lengths x_mask
       = Ok (dr_mas, mu, log_sigma, logp) ->
       convert_dr_to_align dr_mas x_mask
         (unsqueeze1 (map2d of_bool (sequence_mask y_lengths None)))
       = Ok attn ->
       run (Some 0%Z) = RaisedAttributeError) /\
    (forall steps global_step phase,
       (forall j, (j < length steps)%nat -> (global_step <= nth j steps 0)%Z) ->
       _set_phase (Some steps) global_step = Ok phase ->
       forall o, run phase <> Returned o).
Proof.
  intros Tokens Speaker enc mdn conv dec dp x x_lengths y y_lengths x_vectors run.
  assert (H0 : run (Some 0%Z) = RaisedAttributeError
               \/ exists e, run (Some 0%Z) = Raised e).
  { unfold run, AlignTTS_forward, AlignTTS_forward_branches. cbn [phase_is Z.eqb].
    destruct (enc x x_lengths x_vectors) as [[[[o_en o_en_dp] x_mask] g]|e];
      cbn [bind]; [|right; eauto].
    destruct (mdn o_en (permute021 y) y_lengths x_mask)
      as [[[[dr_mas mu] log_sigma] logp]|e]; cbn [bind]; [|right; eauto].
    destruct (conv dr_mas x_mask _) as [attn|e]; cbn [bind]; [|right; eauto].
    now left. }
  split; [exact H0|]. split.
  - intros o_en o_en_dp x_mask g dr_mas mu log_sigma logp attn He Hm Hc.
    unfold run, AlignTTS_forward, AlignTTS_forward_branches. cbn [phase_is Z.eqb].
    rewrite He. cbn [bind]. rewrite Hm. cbn [bind]. rewrite Hc. reflexivity.
  - intros steps g phase Hnone Hp o.
    destruct (set_phase_spec steps g) as (p & Hp' & Hcase).
    rewrite Hp' in Hp. injection Hp as <-.
    assert (p = 0%Z) as ->.
    { destruct Hcase as [(k & -> & Hk & Hlt & _) | (-> & _)]; [|reflexivity].
      specialize (Hnone k Hk). lia. }
    destruct H0 as [-> | (e & ->)]; discriminate.
Qed.

(** ** TransitionModel.forward: the probability mass *)

Lemma sigmoidR_pos x : 0 < sigmoidR x.
Proof. unfold sigmoidR. apply sigmoid_range. Qed.

(** Staying and leaving are complementary. *)
Lemma sigmoidR_complement x : sigmoidR (- x) + sigmoidR x = 1.
Proof.
  unfold sigmoidR. rewrite Ropp_involutive, exp_Ropp.
  pose proof (exp_pos x) as H. field. split; lra.
Qed.

Lemma log_clamped_no_clamp eps p :
  0 < p -> eps <= p -> log_clamped eps (Fin p) = Fin (ln p).
Proof.
  intros Hp He. unfold log_clamped, clamp_min.
  rewrite Rmax_left by exact He. now apply tlog_pos.
Qed.

Lemma texp_tadd_ln v p :
  real_or_neg_inf v -> 0 < p ->
  exists m, texp (tadd v (Fin (ln p))) = Fin m /\ m = massR v * p.
Proof.
  intros Hv Hp. destruct v as [a| | |]; try contradiction; cbn [tadd texp massR].
  - eexists. split; [reflexivity|]. rewrite exp_plus, exp_ln by exact Hp. reflexivity.
  - eexists. split; [reflexivity|]. lra.
Qed.

Lemma texp_tlog m : 0 <= m -> texp (tlog (Fin m)) = Fin m.
Proof.
  intros [Hpos|<-].
  - rewrite tlog_pos by exact Hpos. cbn [texp]. now rewrite exp_ln.
  - now rewrite tlog_zero.
Qed.

Lemma Rsum_S f n : Rsum f (S n) = Rsum f n + f n.
Proof.
  unfold Rsum. rewrite seq_S, map_app, fold_right_app. cbn [map fold_right Nat.add].
  generalize (map f (seq 0 n)). intros l.
  induction l as [|a l IH]; cbn [fold_right]; [lra|]. rewrite IH. lra.
Qed.

Lemma tsum_texp_map (g : nat -> tval) (f : nat -> R) (l : list nat) :
  (forall j, In j l -> exists m, texp (g j) = Fin m /\ m = f j) ->
  exists s, tsum (map texp (map g l)) = Fin s /\
            s = fold_right Rplus 0 (map f l).
Proof.
  induction l as [|j l IH]; intros H.
  - exists 0. split; reflexivity.
  - destruct (H j (or_introl eq_refl)) as (m & Hm & ->).
    destruct IH as (s & Hs & ->); [intros k Hk; apply H; now right|].
    unfold tsum in *. cbn [map fold_right]. rewrite Hm, Hs. cbn [tadd].
    eexists. split; reflexivity.
Qed.

Lemma firstn_as_map {A : Type} (d : A) (l : list A) n :
  (n <= length l)%nat -> firstn n l = map (fun j => nth j l d) (seq 0 n).
Proof.
  intros Hn. apply (nth_ext _ _ d d).
  - rewrite length_firstn, length_map, length_seq. lia.
  - intros j Hj. rewrite length_firstn in Hj.
    rewrite nth_firstn. destruct (Nat.ltb_spec j n); [|lia].
    rewrite (map_nth_lt _ _ _ 0%nat) by (rewrite length_seq; lia).
    now rewrite seq_nth by lia.
Qed.

(** The mass that the recursion gives to state [j]: what stays on [j] and
    what leaves [j - 1]. *)
Lemma transition_entry_mass eps (prev tv : T1) len j :
  (Z.of_nat j < len)%Z ->
  real_or_neg_inf (nth j prev NaN) ->
  (forall k, (k <= j)%nat -> real_or_neg_inf (nth k prev NaN)) ->
  (forall k, (k <= j)%nat ->
     exists x, nth k tv NaN = Fin x /\ eps <= sigmoidR x /\ eps <= sigmoidR (- x)) ->
  exists m,
    texp (transition_entry eps prev tv len j) = Fin m /\
    m = massR (nth j prev NaN) * sigmoidR (- realR (nth j tv NaN))
        + match j with
          | O => 0
          | S k => massR (nth k prev NaN) * sigmoidR (realR (nth k tv NaN))
          end.
Proof.
  intros Hlen Hj Hprev Htv. unfold transition_entry.
  destruct (Z.ltb_spec (Z.of_nat j) len) as [_|]; [|lia].
  destruct (Htv j ltac:(lia)) as (x & Hx & He1 & He2). rewrite Hx.
  cbn [tneg sigmoid realR].
  change (/ (1 + exp (- - x))) with (sigmoidR (- x)).
  rewrite (log_clamped_no_clamp eps (sigmoidR (- x)))
    by (try apply sigmoidR_pos; exact He2).
  destruct (texp_tadd_ln (nth j prev NaN) (sigmoidR (- x)) Hj (sigmoidR_pos _))
    as (ma & Hma & ->).
  destruct j as [|k].
  - unfold logsumexp, tsum. cbn [map fold_right]. rewrite Hma. cbn [texp tadd].
    rewrite texp_tlog.
    + eexists. split; [reflexivity|]. lra.
    + pose proof (sigmoidR_pos (- x)).
      assert (0 <= massR (nth 0 prev NaN))
        by (destruct (nth 0 prev NaN); cbn [massR]; try lra; left; apply exp_pos).
      nra.
  - destruct (Htv k ltac:(lia)) as (x' & Hx' & He1' & He2'). rewrite Hx'.
    cbn [sigmoid realR]. change (/ (1 + exp (- x'))) with (sigmoidR x').
    rewrite (log_clamped_no_clamp eps (sigmoidR x'))
      by (try apply sigmoidR_pos; exact He1').
    destruct (texp_tadd_ln (nth k prev NaN) (sigmoidR x') (Hprev k ltac:(lia))
                (sigmoidR_pos _)) as (mc & Hmc & ->).
    unfold logsumexp, tsum. cbn [map fold_right]. rewrite Hma, Hmc. cbn [tadd].
    rewrite texp_tlog.
    + eexists. split; [reflexivity|]. lra.
    + pose proof (sigmoidR_pos (- x)). pose proof (sigmoidR_pos x').
      assert (0 <= massR (nth (S k) prev NaN))
        by (destruct (nth (S k) prev NaN); cbn [massR]; try lra; left; apply exp_pos).
      assert (0 <= massR (nth k prev NaN))
        by (destruct (nth k prev NaN); cbn [massR]; try lra; left; apply exp_pos).
      nra.
Qed.

(** The sum of the masses of the recursion telescopes. *)
Lemma recursion_mass_sum (E x : nat -> R) n :
  Rsum (fun j => E j * sigmoidR (- x j)
                 + match j with
                   | O => 0
                   | S k => E k * sigmoidR (x k)
                   end) (S n)
  = Rsum E (S n) - E n * sigmoidR (x n).
Proof.
  induction n as [|n IH].
  - unfold Rsum. cbn [seq map fold_right].
    pose proof (sigmoidR_complement (x 0%nat)). nra.
  - rewrite Rsum_S, IH, (Rsum_S E (S n)).
    pose proof (sigmoidR_complement (x (S n))). nra.
Qed.

(** X21.  [TransitionModel.forward] keeps the probability mass of an item
    except for what leaves its last valid state: for an item of [len] valid
    states (at least one) whose previous scaled log-alphas are reals or
    [-inf] and whose transition logits are reals with probabilities that
    the clamp at [eps] leaves alone, the mass of the returned row over the
    valid states is the mass of the previous row there minus the mass of
    the last valid state times its probability of leaving. *)
Theorem TransitionModel_forward_mass :
  forall eps b n las tv lens i,
    transition_batch b n las tv lens ->
    (i < b)%nat ->
    (1 <= nth i lens 0 <= Z.of_nat n)%Z ->
    Forall real_or_neg_inf (nth i las []) ->
    Forall (fun v => exists x, v = Fin x /\ eps <= sigmoidR x /\ eps <= sigmoidR (- x))
      (nth i tv []) ->
    let last := (Z.to_nat (nth i lens 0%Z) - 1)%nat in
    exists out m_out m_prev,
      TransitionModel_forward eps las tv lens = Ok out /\
      row_mass (nth i lens 0%Z) (nth i out []) = Fin m_out /\
      row_mass (nth i lens 0%Z) (nth i las []) = Fin m_prev /\
      m_out = m_prev - massR (get2 las i last) * sigmoidR (realR (get2 tv i last)).
Proof.
  intros eps b n las tv lens i H Hi Hlen Hprev Htv last.
  set (len := nth i lens 0%Z) in *.
  set (prev := nth i las []) in *. set (tvr := nth i tv []) in *.
  assert (Hpl : length prev = n) by (apply (shape2_row b n); [apply H|exact Hi]).
  assert (Htl : length tvr = n) by (apply (shape2_row b n); [apply H|exact Hi]).
  assert (Hp : forall k, (k < n)%nat -> real_or_neg_inf (nth k prev NaN)).
  { intros k Hk. rewrite Forall_forall in Hprev. apply Hprev, nth_In. lia. }
  assert (Ht : forall k, (k < n)%nat ->
            exists x, nth k tvr NaN = Fin x /\ eps <= sigmoidR x /\ eps <= sigmoidR (- x)).
  { intros k Hk. rewrite Forall_forall in Htv. apply Htv, nth_In. lia. }
  pose proof (out_shape eps b n las tv lens H) as Hos.
  pose proof (TransitionModel_forward_ok eps b n las tv lens H) as Hok.
  pose proof (out_entry eps b n las tv lens H i) as Hentry.
  match type of Hok with _ = Ok ?o => set (out := o) in * end.
  assert (Hol : length (nth i out []) = n) by (apply (shape2_row b n); assumption).
  set (L := Z.to_nat len).
  assert (HL : (1 <= L <= n)%nat) by (unfold L; lia).
  set (E := fun k => massR (nth k prev NaN)).
  set (X := fun k => realR (nth k tvr NaN)).
  (* the returned row over the valid states *)
  assert (Hout : exists s,
             row_mass len (nth i out []) = Fin s /\
             s = Rsum (fun j => E j * sigmoidR (- X j)
                                + match j with
                                  | O => 0
                                  | S k => E k * sigmoidR (X k)
                                  end) L).
  { unfold row_mass. fold L.
    rewrite (firstn_as_map NaN) by lia.
    apply tsum_texp_map. intros j Hj. apply in_seq in Hj.
    fold (get2 out i j). rewrite Hentry by (auto; lia).
    fold prev. fold tvr. fold len.
    apply transition_entry_mass.
    - unfold L in *. lia.
    - apply Hp. lia.
    - intros k Hk. apply Hp. lia.
    - intros k Hk. apply Ht. lia. }
  (* the previous row over the valid states *)
  assert (Hpm : exists s, row_mass len prev = Fin s /\ s = Rsum E L).
  { unfold row_mass. fold L. rewrite (firstn_as_map NaN) by lia.
    apply (tsum_texp_map (fun j => nth j prev NaN) E). intros j Hj.
    apply in_seq in Hj. specialize (Hp j ltac:(lia)). unfold E.
    destruct (nth j prev NaN); try contradiction; cbn [texp massR]; eauto. }
  destruct Hout as (so & Hso & ->). destruct Hpm as (sp & Hsp & ->).
  exists out. eexists. eexists.
  split; [exact Hok|]. split; [exact Hso|]. split; [exact Hsp|].
  destruct L as [|L'] eqn:HLeq; [lia|].
  rewrite recursion_mass_sum.
  unfold last. fold L. rewrite HLeq.
  replace (S L' - 1)%nat with L' by lia. reflexivity.
Qed.

Lemma TransitionModel_forward_mass_witness :
  exists out m_out m_prev,
    TransitionModel_forward 0 [[Fin 0; NInf]] [[Fin 1; Fin (-1)]] [2%Z] = Ok out /\
    row_mass (nth 0 [2%Z] 0%Z) (nth 0 out []) = Fin m_out /\
    row_mass (nth 0 [2%Z] 0%Z) (nth 0 [[Fin 0; NInf]] []) = Fin m_prev /\
    m_out = m_prev
            - massR (get2 [[Fin 0; NInf]] 0 (Z.to_nat (nth 0 [2%Z] 0%Z) - 1))
              * sigmoidR (realR (get2 [[Fin 1; Fin (-1)]] 0
                                   (Z.to_nat (nth 0 [2%Z] 0%Z) - 1))).
Proof.
  apply (TransitionModel_forward_mass 0 1 2 [[Fin 0; NInf]] [[Fin 1; Fin (-1)]]
           [2%Z] 0).
  - exact transition_batch_example.
  - lia.
  - cbn. lia.
  - repeat constructor.
  - cbn [nth]. repeat constructor.
    + exists 1. split; [reflexivity|].
      split; left; apply sigmoidR_pos.
    + exists (-1). split; [reflexivity|].
      split; left; apply sigmoidR_pos.
Defined.
